(** * butiran-frontend: the agent movement / grid-occupancy step

    A shallow embedding of the simulation core of the repository:
    - [generateDirection] and [simulate]   (src/25f53.js),
    - [simulate2] with its filter counters  (src/25f63.js),
    - [simulate_v0_2] with its end time     (src/25g32.js),
    and of the helpers that build its input:
    - [createZeroMatrix], [addTextToTextarea] and [getColor] (src/25e41.js),
    - [drawWall] and [getLinesFromTextarea] (src/25f45.js),
    - [getBlocksFromTextarea]               (src/25f49.js).

    Modelling choices.
    - A JavaScript array is an object whose properties are its indices.
      The step functions get and set properties of [world] and of its rows,
      so [world] is a finite map from row index to row and a row is a finite
      map from column index to cell value; the two lengths that the canvas
      update consults are kept beside it.
      A missing property reads as [undefined], here [None].  Storing
      [undefined] in a cell is modelled by deleting the property: every read
      the step functions perform gives the same answer.  Rows are separate
      objects ([createZeroMatrix] of 25e41.js pushes a fresh array per row),
      so a write to one row shows in no other.
    - Coordinates, cell values, agent types and the tick are integers ([Z]).
    - The entries of a movement matrix and the random draws are numbers of
      JavaScript, that is binary64 values, each given by the rational it
      stands for ([Q]).  The running sum of the sampler is kept as such a
      value ([num]): it is rounded to nearest, ties to even, after every
      addition, overflows to an infinity, and is [NaN] once [undefined] has
      been added.
    - [Math.random()] is an oracle [rand : nat -> Q]; the state counts the
      draws consumed so far ([rnd]).
    - The only exception these functions can raise is a [TypeError] (a
      property read on [undefined], or destructuring [undefined]); uncaught,
      it leaves the module-level variables as they are at the point of the
      throw, so every operation returns a completion together with the state.
    - The DOM updates of the step functions (time display, bars, canvas) do
      not touch the simulation state; the page is taken to have the elements
      they address.  What [drawMatrixOnCanvas] reads of [world] is kept,
      because a missing row makes it throw: [world.length], [world[0].length]
      and [world[r]] for every row index below the former.  The two lengths
      are part of the state; an assignment past the end of row 0 extends
      it.
    - [createZeroMatrix] and [drawWall] do consult [length]; for them a
      matrix is a list of rows and a row a list of cells, a hole being
      [None].  The loop [while (true)] of [drawWall] takes fuel, and its end
      points are integers.
    - A textarea is the string it holds. *)

From Stdlib Require Import ZArith QArith Qround Lia Lqa.
From Stdlib Require Floats.SpecFloat.
From stdpp Require Import base option list gmap strings.

Local Open Scope Z_scope.

(** ** Data model *)

Inductive completion (A : Type) : Type :=
| Normal (a : A)
| Throw.
Arguments Normal {A} a.
Arguments Throw {A}.

(** An agent is the array [[x, y, t]]. *)
Abbreviation agent := (Z * Z * Z)%type.

Definition pos (a : agent) : Z * Z := (a.1.1, a.1.2).
Definition atype (a : agent) : Z := a.2.

(** A movement probability matrix, as parsed: an array of rows of numbers,
    each given by the rational it stands for. *)
Abbreviation matrix := (list (list Q)).

(** ** Numbers

    A JavaScript number is a binary64 value.  Every finite one is an integer
    multiple of [2^-1074] with at most 53 significant bits: [Num n] is
    [n * 2^-1074].  The two zeros are one value here (they compare equal and
    add alike). *)

Inductive num : Type :=
| Num (n : Z)
| PosInf
| NegInf
| NotANumber.

(** [2^1074], the number of units in 1. *)
Definition scale : Q := inject_Z (2 ^ 1074).

(** Rounding a rational to the nearest integer, ties to even. *)
Definition RNE (a : Q) : Z :=
  let f := Qfloor a in
  match (a - inject_Z f ?= 1 # 2)%Q with
  | Lt => f
  | Gt => f + 1
  | Eq => if Z.even f then f else f + 1
  end.

(** Powers of two among the rationals. *)
Definition pow2 (k : Z) : Q := inject_Z (2 ^ k).

(** The exponent of the grid on which a non-negative number of units is
    rounded: below [2^53] units the grid is the integers (the subnormal
    numbers and the first binade), from there on it doubles with each
    binade. *)
Definition binade (a : Q) : Z := Z.max 0 (Z.log2 (Qfloor a) - 52).

(** Rounding a non-negative number of units to 53 significant bits. *)
Definition round53 (a : Q) : Z :=
  RNE (a / pow2 (binade a)) * 2 ^ binade a.

Definition round_units (x : Q) : Z :=
  if Qle_bool 0 x then round53 x else - round53 (- x).

(** [2^1024] in units, the first value that is no longer finite. *)
Definition huge : Z := 2 ^ 2098.

(** The number nearest to an exact value given in units: round to nearest,
    ties to even, with overflow to the infinities. *)
Definition round (x : Q) : num :=
  let n := round_units x in
  if bool_decide (huge ≤ n) then PosInf
  else if bool_decide (n ≤ - huge) then NegInf
  else Num n.

(** The rational a finite number stands for. *)
Definition value (n : Z) : Q := (inject_Z n / scale)%Q.

(** The number nearest to a rational (what a numeric literal denotes), and
    the rational it stands for. *)
Definition number (q : Q) : num := round (q * scale).

Definition double (q : Q) : Q :=
  match number q with
  | Num n => value n
  | _ => q
  end.

(** A number that rounding produces: [round] leaves it alone. *)
Definition is_double (y : num) : Prop :=
  match y with
  | Num n => round (inject_Z n) = Num n
  | _ => True
  end.

Arguments scale : simpl never.
Arguments round : simpl never.
Arguments huge : simpl never.

#[global] Instance num_eq_dec : EqDecision num.
Proof. solve_decision. Defined.

#[global] Instance is_double_dec y : Decision (is_double y).
Proof. destruct y; apply _. Defined.

(** *** The binary64 of the library

    [SpecFloat] of the Standard Library specifies the IEEE 754 operations
    behind Rocq's primitive floats.  A number goes there and back as below;
    [library_add] is the addition of that specification, against which the
    sampler's [y += p] is checked on [sample_sums]. *)

Definition to_spec (y : num) : SpecFloat.spec_float :=
  match y with
  | Num n => SpecFloat.binary_normalize 53 1024 n (-1074) false
  | PosInf => SpecFloat.S754_infinity false
  | NegInf => SpecFloat.S754_infinity true
  | NotANumber => SpecFloat.S754_nan
  end.

Definition of_spec (f : SpecFloat.spec_float) : num :=
  match f with
  | SpecFloat.S754_zero _ => Num 0
  | SpecFloat.S754_infinity s => if s then NegInf else PosInf
  | SpecFloat.S754_nan => NotANumber
  | SpecFloat.S754_finite s m e =>
      Num ((if s then -1 else 1) * Z.pos m * 2 ^ (e + 1074))
  end.

Definition library_add (x y : num) : num :=
  of_spec (SpecFloat.SFadd 53 1024 (to_spec x) (to_spec y)).

(** [m * 2^e] in units. *)
Definition dyadic (m e : Z) : Z := m * 2 ^ (e + 1074).

(** Pairs of numbers to add: an addend too small to count, ties towards
    either side, 0.1 + 0.2, the largest number with and without overflow,
    subnormal numbers, the step into the normal range, cancellation. *)
Definition sample_sums : list (Z * Z) :=
  [ (dyadic 1 (-1), dyadic 1 (-55));
    (dyadic 1 (-1), dyadic 1 (-54));
    (dyadic 1 (-1), dyadic 3 (-55));
    (dyadic 1 0, dyadic 1 (-53));
    (dyadic 1 0, dyadic 3 (-53));
    (dyadic 3602879701896397 (-55), dyadic 3602879701896397 (-54));
    (dyadic 7025615418697974 (-54), dyadic 5764607523034235 (-57));
    (dyadic 9007199254740991 971, dyadic 9007199254740991 971);
    (dyadic 9007199254740991 971, dyadic 1 969);
    (dyadic 9007199254740991 971, dyadic 1 970);
    (dyadic (-9007199254740991) 971, dyadic (-1) 970);
    (dyadic 1 (-1074), dyadic 1 (-1074));
    (dyadic 4503599627370495 (-1074), dyadic 1 (-1074));
    (dyadic 9007199254740991 (-1074), dyadic 1 (-1074));
    (dyadic 9007199254740991 (-1073), dyadic 1 (-1074));
    (dyadic 9007199254740991 (-1073), dyadic (-1) (-1074));
    (dyadic 6119361971034954 968, dyadic (-6119361971134708) 968);
    (dyadic (-6198804317702714) (-1074), dyadic 6198804318248010 (-1074));
    (dyadic 4859453111330955 (-50), dyadic 4859453111812070 (-50));
    (0, 0) ].

(** An entry of [filterCount]: a number, or [NaN] (also standing for a hole
    of the array, which [++] turns into [NaN]). *)
Inductive counter : Type :=
| Count (n : Z)
| NaN.

(** The module-level variables of the three files; [timer] tells whether the
    interval timer is still set, [rnd] how many draws have been made;
    [world_length] is [world.length] and [row0_length] is
    [world[0].length]. *)
Record State : Type := mkState {
  world : gmap Z (gmap Z Z);
  agents : list agent;
  mpm : gmap Z matrix;
  t : Z;
  filterPost : list Z;
  filterType : list Z;
  filterCount : list counter;
  tend : option Z;
  timer : bool;
  rnd : nat;
  world_length : Z;
  row0_length : Z
}.

Definition set_world (w : gmap Z (gmap Z Z)) (s : State) : State :=
  mkState w (agents s) (mpm s) (t s) (filterPost s) (filterType s)
          (filterCount s) (tend s) (timer s) (rnd s)
          (world_length s) (row0_length s).
Definition set_agents (b : list agent) (s : State) : State :=
  mkState (world s) b (mpm s) (t s) (filterPost s) (filterType s)
          (filterCount s) (tend s) (timer s) (rnd s)
          (world_length s) (row0_length s).
Definition set_t (n : Z) (s : State) : State :=
  mkState (world s) (agents s) (mpm s) n (filterPost s) (filterType s)
          (filterCount s) (tend s) (timer s) (rnd s)
          (world_length s) (row0_length s).
Definition set_filterCount (c : list counter) (s : State) : State :=
  mkState (world s) (agents s) (mpm s) (t s) (filterPost s) (filterType s)
          c (tend s) (timer s) (rnd s)
          (world_length s) (row0_length s).
Definition set_timer (r : bool) (s : State) : State :=
  mkState (world s) (agents s) (mpm s) (t s) (filterPost s) (filterType s)
          (filterCount s) (tend s) r (rnd s)
          (world_length s) (row0_length s).
Definition set_row0_length (n : Z) (s : State) : State :=
  mkState (world s) (agents s) (mpm s) (t s) (filterPost s) (filterType s)
          (filterCount s) (tend s) (timer s) (rnd s) (world_length s) n.
Definition set_rnd (k : nat) (s : State) : State :=
  mkState (world s) (agents s) (mpm s) (t s) (filterPost s) (filterType s)
          (filterCount s) (tend s) (timer s) k
          (world_length s) (row0_length s).

(** ** Grid access *)

(** [world[y][x]] when the row exists; [None] is [undefined]. *)
Definition getCell (w : gmap Z (gmap Z Z)) (x y : Z) : option Z :=
  match w !! y with
  | Some row => row !! x
  | None => None
  end.

(** [world[y][x] = v] on an existing row. *)
Definition setCell (w : gmap Z (gmap Z Z)) (x y : Z) (v : option Z)
  : gmap Z (gmap Z Z) :=
  match w !! y with
  | Some row =>
      <[y := match v with
             | Some z => <[x := z]> row
             | None => delete x row
             end]> w
  | None => w
  end.

(** The loose comparison [c == 0] on a cell read. *)
Definition is_zero (c : option Z) : bool :=
  match c with
  | Some z => bool_decide (z = 0)
  | None => false
  end.

(** ** The direction sampler *)

(** [y += p]: the exact sum of the two values, rounded, which for an entry
    that is a binary64 value is the addition of IEEE 754; [p] is [None] when
    the entry read is [undefined], and the sum is [NaN] from then on. *)
Definition acc_add (y : num) (p : option Q) : num :=
  match y, p with
  | Num n, Some q => round (inject_Z n + q * scale)
  | PosInf, Some _ => PosInf
  | NegInf, Some _ => NegInf
  | _, _ => NotANumber
  end.

(** [y > x]; false on [NaN]. *)
Definition acc_gt (y : num) (x : Q) : bool :=
  match y with
  | Num n => negb (Qle_bool (inject_Z n) (x * scale))
  | PosInf => true
  | _ => false
  end.

Inductive scan : Type :=
| Found (dx dy : Z)
| Continue (y : num).

(** The inner loop [for (c = 0; c < COLS; c++)] on row [r]. *)
Fixpoint scan_cols (mr : list Q) (x : Q) (r : nat) (cs : list nat)
  (y : num) : scan :=
  match cs with
  | [] => Continue y
  | c :: cs' =>
      let y' := acc_add y (mr !! c) in
      if acc_gt y' x then Found (Z.of_nat c - 1) (Z.of_nat r - 1)
      else scan_cols mr x r cs' y'
  end.

(** The outer loop [for (r = 0; r < ROWS; r++)]. *)
Fixpoint scan_rows (m : matrix) (x : Q) (COLS : nat) (rs : list nat)
  (y : num) : scan :=
  match rs with
  | [] => Continue y
  | r :: rs' =>
      match scan_cols (default [] (m !! r)) x r (seq 0 COLS) y with
      | Found dx dy => Found dx dy
      | Continue y' => scan_rows m x COLS rs' y'
      end
  end.

(** [generateDirection(m)] with the draw [x = Math.random()] made explicit.
    [m] is [None] when the caller passes [undefined]; the result is
    [Normal None] when the function falls off its end and so returns
    [undefined]. *)
Definition generateDirection (m : option matrix) (x : Q)
  : completion (option (Z * Z)) :=
  match m with
  | None => Throw
  | Some m =>
      match m !! 0%nat with
      | None => Throw
      | Some r0 =>
          match scan_rows m x (length r0) (seq 0 (length m)) (Num 0) with
          | Found dx dy => Normal (Some (dx, dy))
          | Continue _ => Normal None
          end
      end
  end.



(** ** State and exceptions *)

Definition M (A : Type) : Type := State → completion A * State.

Definition ret {A} (a : A) : M A := λ s, (Normal a, s).
Definition throw {A} : M A := λ s, (Throw, s).
Definition bind {A B} (m : M A) (k : A → M B) : M B :=
  λ s, match m s with
       | (Normal a, s') => k a s'
       | (Throw, s') => (Throw, s')
       end.
Definition gets {A} (f : State → A) : M A := λ s, (Normal (f s), s).
Definition modify (f : State → State) : M unit := λ s, (Normal tt, f s).
Definition lift {A} (c : completion A) : M A := λ s, (c, s).

Notation "x <- m ;; k" := (bind m (λ x, k))
  (at level 100, m at next level, right associativity).
Notation "m ;;; k" := (bind m (λ _, k))
  (at level 100, right associativity).

(** [[dx, dy] = d]: destructuring [undefined] throws a [TypeError]. *)
Definition destructure (d : option (Z * Z)) : M (Z * Z) :=
  match d with
  | Some p => ret p
  | None => throw
  end.

(** [world[y][x]] as an expression: throws when [world[y]] is [undefined]. *)
Definition read_cell (x y : Z) : M (option Z) :=
  λ s, match world s !! y with
       | Some row => (Normal (row !! x), s)
       | None => (Throw, s)
       end.

(** What an assignment to [world[y][x]] does to [world[0].length]: an array
    index (below [2^32 - 1]) at or past the end of row 0 extends it. *)
Definition grow (x y : Z) (s : State) : State :=
  set_row0_length
    (if bool_decide (y = 0 ∧ 0 ≤ x < 4294967295 ∧ row0_length s ≤ x)
     then x + 1 else row0_length s) s.

(** [world[y][x] = v] as a statement. *)
Definition write_cell (x y : Z) (v : option Z) : M unit :=
  λ s, match world s !! y with
       | Some _ => (Normal tt, set_world (setCell (world s) x y v) (grow x y s))
       | None => (Throw, s)
       end.

(** [filterCount[f]++]; past the end the array grows and the entry is [NaN]. *)
Definition incr (c : counter) : counter :=
  match c with
  | Count n => Count (n + 1)
  | NaN => NaN
  end.

Definition bump (f : nat) (cs : list counter) : list counter :=
  if decide (f < length cs)%nat then alter incr f cs
  else cs ++ replicate (f - length cs) NaN ++ [NaN].

(** [b.pop()]; on an empty array nothing happens. *)
Definition pop (b : list agent) : list agent := removelast b.

(** [for (a of agents) { ... }] with the local array [b] threaded through. *)
Fixpoint for_of (body : agent → list agent → M (list agent))
  (l : list agent) (b : list agent) : M (list agent) :=
  match l with
  | [] => ret b
  | a :: l' => b' <- body a b ;; for_of body l' b'
  end.

(** The loops of [drawMatrixOnCanvas]: [color(m[r][c])] for every [c] below
    [col], for every [r] below [row]. *)
Fixpoint paint_cells (r : Z) (cs : list Z) : M unit :=
  match cs with
  | [] => ret tt
  | c :: cs' => read_cell c r ;;; paint_cells r cs'
  end.

Fixpoint paint_rows (col : Z) (rs : list Z) : M unit :=
  match rs with
  | [] => ret tt
  | r :: rs' => paint_cells r (seqZ 0 col) ;;; paint_rows col rs'
  end.

(** What [drawMatrixOnCanvas(can, world, getColor)] of 25e41.js does with
    [world]: it takes [world.length] and [world[0].length], then reads
    [world[r][c]] for every [r] and [c] below them.  Reading a row that is
    [undefined] throws; colouring and painting do not. *)
Definition drawMatrixOnCanvas : M unit :=
  row <- gets world_length ;;
  r0 <- gets (λ s, world s !! 0) ;;
  match r0 with
  | None => throw
  | Some _ =>
      col <- gets row0_length ;;
      paint_rows col (seqZ 0 row)
  end.

Inductive engine : Type :=
| Simulate
| Simulate2
| Simulate_v0_2.

Section Engine.

(** The values [Math.random()] returns, in order. *)
Variable rand : nat → Q.

Definition Math_random : M Q :=
  λ s, (Normal (rand (rnd s)), set_rnd (S (rnd s)) s).

(** The body of the loop of [simulate] (and of [simulate_v0_2]). *)
Definition loop_body (a : agent) (b : list agent) : M (list agent) :=
  let '(x, y, t) := a in
  m <- gets (λ s, mpm s !! t) ;;
  u <- Math_random ;;
  d <- lift (generateDirection m u) ;;
  dxy <- destructure d ;;
  let x2 := x + dxy.1 in
  let y2 := y + dxy.2 in
  c <- read_cell x2 y2 ;;
  if is_zero c then
    v1 <- read_cell x y ;;
    v2 <- read_cell x2 y2 ;;
    write_cell x2 y2 v1 ;;;
    write_cell x y v2 ;;;
    ret (b ++ [(x2, y2, t)])
  else
    ret (b ++ [(x, y, t)]).

(** [simulate()] of 25f53.js. *)
Definition simulate : M unit :=
  l <- gets agents ;;
  b <- for_of loop_body l [] ;;
  modify (set_agents b) ;;;
  drawMatrixOnCanvas ;;;
  modify (λ s, set_t (t s + 1) s).

(** [simulate_v0_2()] of 25g32.js: the same loop, then the end-time test
    [t >= tend] (false when [tend] is [undefined]) stopping the timer. *)
Definition simulate_v0_2 : M unit :=
  l <- gets agents ;;
  b <- for_of loop_body l [] ;;
  modify (set_agents b) ;;;
  drawMatrixOnCanvas ;;;
  stop <- gets (λ s, match tend s with
                     | Some e => bool_decide (e ≤ t s)
                     | None => false
                     end) ;;
  (if stop : bool then modify (set_timer false) else ret tt) ;;;
  modify (λ s, set_t (t s + 1) s).

(** The filter loop [for (f = 0; f < nf; f++)] of [simulate2]. *)
Fixpoint filter_loop (x2 y2 t : Z) (fs : list nat) (b : list agent)
  : M (list agent) :=
  match fs with
  | [] => ret b
  | f :: fs' =>
      fp <- gets (λ s, filterPost s !! f) ;;
      if bool_decide (fp = Some x2) then
        modify (λ s, set_filterCount (bump f (filterCount s)) s) ;;;
        ft <- gets (λ s, filterType s !! f) ;;
        if bool_decide (ft = Some t) then
          write_cell x2 y2 (Some 0) ;;;
          filter_loop x2 y2 t fs' (pop b)
        else filter_loop x2 y2 t fs' b
      else filter_loop x2 y2 t fs' b
  end.

(** The body of the loop of [simulate2]. *)
Definition loop_body2 (a : agent) (b : list agent) : M (list agent) :=
  let '(x, y, t) := a in
  m <- gets (λ s, mpm s !! t) ;;
  u <- Math_random ;;
  d <- lift (generateDirection m u) ;;
  dxy <- destructure d ;;
  let x2 := x + dxy.1 in
  let y2 := y + dxy.2 in
  c <- read_cell x2 y2 ;;
  if is_zero c then
    v1 <- read_cell x y ;;
    v2 <- read_cell x2 y2 ;;
    write_cell x2 y2 v1 ;;;
    write_cell x y v2 ;;;
    nf <- gets (λ s, length (filterPost s)) ;;
    filter_loop x2 y2 t (seq 0 nf) (b ++ [(x2, y2, t)])
  else
    ret (b ++ [(x, y, t)]).

(** [simulate2()] of 25f63.js. *)
Definition simulate2 : M unit :=
  l <- gets agents ;;
  b <- for_of loop_body2 l [] ;;
  modify (set_agents b) ;;;
  drawMatrixOnCanvas ;;;
  modify (λ s, set_t (t s + 1) s).

Definition call (e : engine) : M unit :=
  match e with
  | Simulate => simulate
  | Simulate2 => simulate2
  | Simulate_v0_2 => simulate_v0_2
  end.

(** The state after a sequence of calls; a call that throws leaves the state
    it reached, and the next call starts from it. *)
Fixpoint run (es : list engine) (s : State) : State :=
  match es with
  | [] => s
  | e :: es' => run es' (call e s).2
  end.

End Engine.

(** A state with the three filter arrays set. *)
Definition with_filters (post type : list Z) (count : list counter)
  (s : State) : State :=
  mkState (world s) (agents s) (mpm s) (t s) post type count (tend s)
          (timer s) (rnd s) (world_length s) (row0_length s).

(** The assignments of [addFilters] of 25f63.js (the text it appends to the
    textarea is not part of the state). *)
Definition addFilters (s : State) : State :=
  with_filters [25; 35; 45; 55; 65; 75] [47; 48; 49; 43; 41; 40]
               [Count 0; Count 0; Count 0; Count 0; Count 0; Count 0] s.

(** ** Specification vocabulary *)

(** The probability mass met by the scan: the running sum [y] after the
    entries of [l], added one by one as the sampler adds them. *)
Definition mass (l : list Q) (y : num) : num :=
  foldl (λ y p, acc_add y (Some p)) y l.

(** [y >= x]; false on [NaN]. *)
Definition acc_ge (y : num) (x : Q) : bool :=
  match y with
  | Num n => Qle_bool (x * scale) (inject_Z n)
  | PosInf => true
  | _ => false
  end.

(** A matrix whose rows all have [n] entries. *)
Definition rows_of (n : nat) (m : matrix) : Prop :=
  Forall (λ row, length row = n) m.

(** Draws as [Math.random()] makes them. *)
Definition unit_draws (rand : nat → Q) : Prop :=
  ∀ n, (0 <= rand n)%Q ∧ (rand n < 1)%Q.

(** A matrix on which every draw of [[0,1)] selects the same direction. *)
Definition deterministic (m : matrix) : Prop :=
  ∀ u u', (0 <= u)%Q → (u < 1)%Q → (0 <= u')%Q → (u' < 1)%Q →
          generateDirection (Some m) u = generateDirection (Some m) u'.

(** Two random sources that make the sampler answer alike on every matrix of
    the table (and on a missing one). *)
Definition agree (rand rand' : nat → Q) (p : gmap Z matrix) : Prop :=
  ∀ n ty, generateDirection (p !! ty) (rand n)
          = generateDirection (p !! ty) (rand' n).

(** What the loops never assign: everything but [world] (and with it the
    length of row 0), [filterCount] and the position in the random stream. *)
Definition frame (s s' : State) : Prop :=
  agents s' = agents s ∧ mpm s' = mpm s ∧ t s' = t s ∧
  filterPost s' = filterPost s ∧ filterType s' = filterType s ∧
  tend s' = tend s ∧ timer s' = timer s ∧
  world_length s' = world_length s.

Definition keeps {A} (m : M A) : Prop := ∀ s, frame s (m s).2.

(** ** Well-formed configurations *)

(** The cells of a [W] by [H] grid that are not on its border. *)
Definition interior (W H x y : Z) : Prop := 0 < x < W - 1 ∧ 0 < y < H - 1.

(** A 3 by 3 matrix whose mass, as the sampler accumulates it, reaches 1. *)
Definition proper (m : matrix) : Prop :=
  length m = 3%nat ∧ Forall (λ row, length row = 3%nat) m ∧
  acc_ge (mass (concat m) (Num 0)) 1 = true.

Definition has_proper_matrix (p : gmap Z matrix) (ty : Z) : Prop :=
  match p !! ty with
  | Some m => proper m
  | None => False
  end.

(** A wall or filter cell holds a nonzero value. *)
Definition wall_ok (w : gmap Z (gmap Z Z)) (xy : Z * Z) : Prop :=
  is_Some (getCell w xy.1 xy.2) ∧ getCell w xy.1 xy.2 ≠ Some 0.

(** A nonzero cell off the walls is the cell of a registry entry. *)
Definition cell_ok (walls : gset (Z * Z)) (reg : list agent) (y x v : Z)
  : Prop :=
  v ≠ 0 → (x, y) ∉ walls → (x, y, v) ∈ reg.

(** An agent as the specification places it: on an interior cell off the
    walls that holds its type, its type in the table. *)
Definition agent_placed (W H : Z) (walls : gset (Z * Z))
  (w : gmap Z (gmap Z Z)) (p : gmap Z matrix) (a : agent) : Prop :=
  interior W H a.1.1 a.1.2 ∧ getCell w a.1.1 a.1.2 = Some a.2 ∧
  (pos a ∉ walls) ∧ is_Some (p !! a.2).

(** What the step needs on top: a nonzero type with a proper matrix. *)
Definition agent_ok (W H : Z) (walls : gset (Z * Z))
  (w : gmap Z (gmap Z Z)) (p : gmap Z matrix) (a : agent) : Prop :=
  agent_placed W H walls w p a ∧ a.2 ≠ 0 ∧ has_proper_matrix p a.2.

(** Grid of [H] rows; border cells (at least) among [walls]; walls nonzero;
    registry entries on distinct cells, each satisfying [ok]; every other
    nonzero cell accounted for by the registry. *)
Definition wf_with (ok : gmap Z (gmap Z Z) → agent → Prop) (W H : Z)
  (walls : gset (Z * Z)) (w : gmap Z (gmap Z Z)) (reg : list agent) : Prop :=
  Forall (λ y, is_Some (w !! y)) (seqZ 0 H) ∧
  Forall (λ y, Forall (λ x, interior W H x y ∨ (x, y) ∈ walls) (seqZ 0 W))
         (seqZ 0 H) ∧
  set_Forall (wall_ok w) walls ∧
  NoDup (pos <$> reg) ∧
  Forall (ok w) reg ∧
  map_Forall (λ y row, map_Forall (λ x v, cell_ok walls reg y x v) row) w.

(** The same conditions, with their quantifiers spelled out. *)
Record wf_facts (ok : gmap Z (gmap Z Z) → agent → Prop) (W H : Z)
  (walls : gset (Z * Z)) (w : gmap Z (gmap Z Z)) (reg : list agent)
  : Prop := mk_wf_facts {
  wf_rows : ∀ y, 0 ≤ y < H → is_Some (w !! y);
  wf_border : ∀ x y, 0 ≤ x < W → 0 ≤ y < H →
                     interior W H x y ∨ (x, y) ∈ walls;
  wf_walls : ∀ x y, (x, y) ∈ walls →
                    ∃ v, getCell w x y = Some v ∧ v ≠ 0;
  wf_distinct : NoDup (pos <$> reg);
  wf_agents : ∀ a, a ∈ reg → ok w a;
  wf_cells : ∀ x y v, getCell w x y = Some v → v ≠ 0 → (x, y) ∉ walls →
                      (x, y, v) ∈ reg
}.

(** The well-formed configurations as the specification lists them. *)
Definition configured (W H : Z) (walls : gset (Z * Z)) (s : State) : Prop :=
  wf_with (λ w, agent_placed W H walls w (mpm s)) W H walls
          (world s) (agents s).

(** The well-formed states the step functions preserve: the grid has its
    [H] rows, and at least one. *)
Definition well_formed (W H : Z) (walls : gset (Z * Z)) (s : State) : Prop :=
  wf_with (λ w, agent_ok W H walls w (mpm s)) W H walls
          (world s) (agents s) ∧
  NoDup (filterPost s) ∧
  0 < H ∧ world_length s = H.

(** Grid and registry in step. *)
Definition synced (walls : gset (Z * Z)) (s : State) : Prop :=
  (∀ x y ty, (x, y, ty) ∈ agents s → getCell (world s) x y = Some ty) ∧
  (∀ x y v, getCell (world s) x y = Some v → v ≠ 0 → (x, y) ∉ walls →
            length (filter (λ a, pos a = (x, y)) (agents s)) = 1%nat ∧
            (x, y, v) ∈ agents s).

#[global] Instance interior_dec W H x y : Decision (interior W H x y).
Proof. unfold interior. apply _. Defined.

#[global] Instance proper_dec m : Decision (proper m).
Proof. unfold proper. apply _. Defined.

#[global] Instance has_proper_matrix_dec p ty :
  Decision (has_proper_matrix p ty).
Proof. unfold has_proper_matrix. destruct (p !! ty); apply _. Defined.

#[global] Instance wall_ok_dec w xy : Decision (wall_ok w xy).
Proof. unfold wall_ok. apply _. Defined.

#[global] Instance cell_ok_dec walls reg y x v :
  Decision (cell_ok walls reg y x v).
Proof. unfold cell_ok. apply _. Defined.

#[global] Instance agent_placed_dec W H walls w p a :
  Decision (agent_placed W H walls w p a).
Proof. unfold agent_placed. apply _. Defined.

#[global] Instance agent_ok_dec W H walls w p a :
  Decision (agent_ok W H walls w p a).
Proof. unfold agent_ok. apply _. Defined.

#[global] Instance wf_with_dec ok W H walls w reg :
  (∀ w a, Decision (ok w a)) → Decision (wf_with ok W H walls w reg).
Proof. intros ?. unfold wf_with. apply _. Defined.

#[global] Instance configured_dec W H walls s :
  Decision (configured W H walls s).
Proof. unfold configured. apply _. Defined.

#[global] Instance well_formed_dec W H walls s :
  Decision (well_formed W H walls s).
Proof. unfold well_formed. apply _. Defined.

(** The invariant of the loops: the registry in the making, [reg], against
    the grid as it stands. *)
Definition loop_inv (W H : Z) (walls : gset (Z * Z)) (s : State)
  (reg : list agent) : Prop :=
  wf_facts (λ w, agent_ok W H walls w (mpm s)) W H walls (world s) reg ∧
  NoDup (filterPost s).

(** The border of a [W] by [H] grid. *)
Definition border (W H : Z) : gset (Z * Z) :=
  list_to_set (filter (λ xy, ¬ interior W H xy.1 xy.2)
                      (list_prod (seqZ 0 W) (seqZ 0 H))).

(** ** Concrete configurations *)

(** Always right, stay in place, nothing at all, up or down alike. *)
Definition right_matrix : matrix :=
  [[0; 0; 0]; [0; 0; 1]; [0; 0; 0]]%Q.

Definition stay_matrix : matrix :=
  [[0; 0; 0]; [0; 1; 0]; [0; 0; 0]]%Q.

Definition zero_matrix : matrix :=
  [[0; 0; 0]; [0; 0; 0]; [0; 0; 0]]%Q.

Definition vertical_matrix : matrix :=
  [[0; 1 # 2; 0]; [0; 0; 0]; [0; 1 # 2; 0]]%Q.

(** Draws: always one half; alternating between the lower and the upper
    half. *)
Definition half : nat → Q := λ _, (1 # 2)%Q.

Definition updown : nat → Q :=
  λ n, if Nat.even n then (1 # 4)%Q else (3 # 4)%Q.

(** A [w] by [h] grid of zeros with its border set to [v]
    ([createZeroMatrix] followed by the four enclosing [WALL]s). *)
Definition bordered_row (w : nat) (edge : bool) (v : Z) : gmap Z Z :=
  list_to_map
    (imap (λ i _, (Z.of_nat i,
                   if edge || bool_decide (i = 0%nat)
                      || bool_decide (i = pred w) then v else 0))
          (replicate w tt)).

Definition bordered (w h : nat) (v : Z) : gmap Z (gmap Z Z) :=
  list_to_map
    (imap (λ j _, (Z.of_nat j,
                   bordered_row w (bool_decide (j = 0%nat)
                                   || bool_decide (j = pred h)) v))
          (replicate h tt)).

(** The [AGENT] lines: each agent's type written into its cell; no filters,
    no end time, tick 0, timer running. *)
Definition place (a : agent) (w : gmap Z (gmap Z Z)) : gmap Z (gmap Z Z) :=
  setCell w a.1.1 a.1.2 (Some a.2).

(** The length of an array built by [push] and by assignments: one more
    than its last index. *)
Definition array_length {A} (m : gmap Z A) : Z :=
  foldr Z.max 0 ((λ k, k + 1) <$> elements (dom m)).

Definition init (w : gmap Z (gmap Z Z)) (l : list agent) (p : gmap Z matrix)
  : State :=
  let w' := foldr place w l in
  mkState w' l p 0 [] [] [] None true 0
          (array_length w') (array_length (default ∅ (w' !! 0))).

(** The end-to-end scenario of the specification. *)
Definition scenario : State :=
  init (bordered 5 5 10) [(2, 2, 48)] {[ 48 := right_matrix ]}.

(** Two agents in a row, the one in front first in the registry. *)
Definition convoy : State :=
  init (bordered 5 5 10) [(2, 1, 48); (1, 1, 48)] {[ 48 := right_matrix ]}.

(** The same two agents, the one behind first in the registry. *)
Definition convoy_reversed : State :=
  init (bordered 5 5 10) [(1, 1, 48); (2, 1, 48)] {[ 48 := right_matrix ]}.

(** One agent of type [ty] left of a filter column at [x = 2] for type 48. *)
Definition gate (ty : Z) : State :=
  with_filters [2] [48] [Count 0]
    (init (bordered 5 5 10) [(1, 1, ty)] {[ ty := right_matrix ]}).

(** One agent of type 49 standing on the filter column of type 48. *)
Definition patrol : State :=
  with_filters [2] [48] [Count 0]
    (init (bordered 5 5 10) [(2, 2, 49)] {[ 49 := vertical_matrix ]}).

(** Two agents; the second one's type has no matrix. *)
Definition stranded : State :=
  init (bordered 5 5 10) [(1, 1, 48); (1, 3, 49)] {[ 48 := right_matrix ]}.

(** Two agents; the second one's matrix is all zero. *)
Definition becalmed : State :=
  init (bordered 5 5 10) [(1, 1, 48); (1, 3, 49)]
       (<[ 49 := zero_matrix ]> {[ 48 := right_matrix ]}).

(** An agent of type 0 next to an agent of type 48: its cell reads as empty. *)
Definition ghost : State :=
  init (bordered 5 5 10) [(1, 1, 48); (2, 1, 0)]
       (<[ 0 := stay_matrix ]> {[ 48 := right_matrix ]}).

(** ** Further vocabulary for the sampler *)

(** The 3 by 3 matrix with a single [1], in row [r] and column [c]. *)
Definition one_hot (r c : nat) : matrix :=
  (λ i, (λ j, if bool_decide (i = r ∧ j = c) then 1%Q else 0%Q) <$> seq 0 3)
    <$> seq 0 3.

(** A matrix with an entry too small to move the running sum: 1/2 and
    [2^-55] add up to 1/2 again. *)
Definition absorbing_matrix : matrix :=
  [[1 # 2; 1 # 36028797018963968; 0]; [0; 0; 1 # 2]; [0; 0; 0]]%Q.

(** A ragged matrix: the second row lacks its last entry. *)
Definition ragged_matrix : matrix :=
  [[0; 0; 0]; [0; 0]; [0; 1; 0]]%Q.

(** The sum of the entries as rationals, without any rounding. *)
Definition exact_sum (l : list Q) : Q := foldr Qplus 0%Q l.

(** The matrix written [0.39 0.04 0.04 / 0.04 0.08 0.09 / 0.08 0.06 0.18]:
    its entries add up to more than 1 as rationals, and to less than 1 as
    the sampler adds them. *)
Definition shortfall_matrix : matrix :=
  map (map double)
      [[39 # 100; 4 # 100; 4 # 100]; [4 # 100; 8 # 100; 9 # 100];
       [8 # 100; 6 # 100; 18 # 100]]%Q.

(** Matrices the pages preset, each entry the number its decimal text
    denotes: those of [addMovementProbabilityMatrix3] (25f63.js) and of
    [addMovementProbabilityMatrix_v0_2] (25g32.js), and two of the earlier
    pages (25f51.js, 25f54.js). *)
Definition preset_matrices : list matrix :=
  map (map (map double))
      [ [[0; 0; 1 # 10]; [0; 0; 8 # 10]; [0; 0; 1 # 10]];
        [[0; 0; 0]; [5 # 100; 0; 5 # 100]; [4 # 10; 1 # 10; 4 # 10]];
        [[0; 0; 0]; [5 # 100; 0; 5 # 100]; [5 # 100; 8 # 10; 5 # 100]];
        [[12 # 100; 12 # 100; 12 # 100]; [12 # 100; 4 # 100; 12 # 100];
         [12 # 100; 12 # 100; 12 # 100]];
        [[0; 0; 0]; [5 # 100; 1 # 10; 5 # 100]; [25 # 100; 3 # 10; 25 # 100]]
      ]%Q.

(** The largest draw, [1 - 2^-53], and the one before it. *)
Definition last_draw : Q := (1 - (1 # 2 ^ 53))%Q.
Definition late_draw : Q := (1 - (1 # 2 ^ 52))%Q.

(** The matrix written [0.3 0.25 0.07 / 0.17 0.19 / 0 1 0], second row short,
    and the draw written [0.9800000000000001]. *)
Definition short_row_matrix : matrix :=
  [map double [3 # 10; 25 # 100; 7 # 100]; map double [17 # 100; 19 # 100];
   [0; 1; 0]]%Q.

Definition short_row_draw : Q := double (9800000000000001 # 10 ^ 16).

(** ** Further vocabulary for the step functions *)

(** An agent and its successor: same type, at most one cell away. *)
Definition near (a a' : agent) : Prop :=
  atype a' = atype a ∧
  -1 ≤ a'.1.1 - a.1.1 ≤ 1 ∧ -1 ≤ a'.1.2 - a.1.2 ≤ 1.

(** A table whose matrices have at most three rows, the first of at most
    three entries. *)
Definition small_matrices (p : gmap Z matrix) : Prop :=
  map_Forall (λ _ m, (length m ≤ 3)%nat ∧
                     (length (default [] (m !! 0%nat)) ≤ 3)%nat) p.

(** The end-time test of [simulate_v0_2]. *)
Definition past_end (s : State) : bool :=
  match tend s with
  | Some e => bool_decide (e ≤ t s)
  | None => false
  end.

(** The module as loaded, before any page has set it up: [world] and
    [agents] are empty arrays. *)
Definition blank : State := mkState ∅ [] ∅ 0 [] [] [] None true 0 0 0.

(** One agent with the matrix [shortfall_matrix]. *)
Definition shortfall : State :=
  init (bordered 5 5 10) [(2, 2, 48)] {[ 48 := shortfall_matrix ]}.

(** The scenario with an end time. *)
Definition timed (e : Z) : State :=
  mkState (world scenario) (agents scenario) (mpm scenario) 0 [] [] []
          (Some e) true 0 (world_length scenario) (row0_length scenario).

(** ** The grid builders: [createZeroMatrix] (25e41.js), [drawWall] (25f45.js)

    These functions consult [length], so here an array is a list; a hole of
    an array is [None].  Sizes and coordinates are integers. *)

Abbreviation grid := (list (list (option Z))).

(** [l[i] = v]: past the end the array grows, leaving holes. *)
Definition array_set (l : list (option Z)) (i : nat) (v : Z)
  : list (option Z) :=
  if decide (i < length l)%nat then <[i := Some v]> l
  else l ++ replicate (i - length l) None ++ [Some v].

(** [m[y][x] = w] for a row [y] that exists. *)
Definition grid_set (m : grid) (x y : nat) (w : Z) : grid :=
  alter (λ row, array_set row x w) y m.

(** [m[y][x]], [None] when undefined. *)
Definition grid_get (m : grid) (x y : nat) : option Z :=
  match m !! y with
  | Some row => match row !! x with
                | Some c => c
                | None => None
                end
  | None => None
  end.

(** [createZeroMatrix(row, col)]: both loops push; a loop [for (i = 0; i < n;
    i++)] runs once for each integer of [seqZ 0 n]. *)
Definition zero_row (col : Z) : list (option Z) :=
  foldl (λ rs _, rs ++ [Some 0]) [] (seqZ 0 col).

Definition createZeroMatrix (row col : Z) : grid :=
  foldl (λ mat _, mat ++ [zero_row col]) [] (seqZ 0 row).

Section DrawWall.

(** The constants of one call of [drawWall]. *)
Variables (rows cols x2 y2 dx dy sx sy w : Z).

(** The guarded write at the top of the loop. *)
Definition plot (m : grid) (xy : Z * Z) : grid :=
  if bool_decide (0 ≤ xy.1 ∧ xy.1 < cols ∧ 0 ≤ xy.2 ∧ xy.2 < rows)
  then grid_set m (Z.to_nat xy.1) (Z.to_nat xy.2) w
  else m.

(** The loop [while (true)]; [None] when it has not reached its [break]
    within [fuel] iterations. *)
Fixpoint drawWall_loop (fuel : nat) (m : grid) (x y err : Z) : option grid :=
  match fuel with
  | O => None
  | S fuel' =>
      let m1 := plot m (x, y) in
      if bool_decide (x = x2 ∧ y = y2) then Some m1
      else
        let e2 := 2 * err in
        let err1 := if bool_decide (dy ≤ e2) then err + dy else err in
        let x' := if bool_decide (dy ≤ e2) then x + sx else x in
        let err2 := if bool_decide (e2 ≤ dx) then err1 + dx else err1 in
        let y' := if bool_decide (e2 ≤ dx) then y + sy else y in
        drawWall_loop fuel' m1 x' y' err2
  end.

(** The cells the loop visits, in order. *)
Fixpoint line_cells (fuel : nat) (x y err : Z) : option (list (Z * Z)) :=
  match fuel with
  | O => None
  | S fuel' =>
      if bool_decide (x = x2 ∧ y = y2) then Some [(x, y)]
      else
        let e2 := 2 * err in
        let err1 := if bool_decide (dy ≤ e2) then err + dy else err in
        let x' := if bool_decide (dy ≤ e2) then x + sx else x in
        let err2 := if bool_decide (e2 ≤ dx) then err1 + dx else err1 in
        let y' := if bool_decide (e2 ≤ dx) then y + sy else y in
        cons (x, y) <$> line_cells fuel' x' y' err2
  end.

End DrawWall.

(** [drawWall(m, p1, p2, w)]: [Some Throw] when [m] is empty ([m[0].length]
    on [undefined]). *)
Definition drawWall (fuel : nat) (m : grid) (p1 p2 : Z * Z) (w : Z)
  : option (completion grid) :=
  let '(x1, y1) := p1 in
  let '(x2, y2) := p2 in
  match m !! 0%nat with
  | None => Some Throw
  | Some r0 =>
      let rows := Z.of_nat (length m) in
      let cols := Z.of_nat (length r0) in
      let dx := Z.abs (x2 - x1) in
      let dy := - Z.abs (y2 - y1) in
      let sx := if bool_decide (x1 < x2) then 1 else -1 in
      let sy := if bool_decide (y1 < y2) then 1 else -1 in
      Normal <$> drawWall_loop rows cols x2 y2 dx dy sx sy w fuel m x1 y1
                               (dx + dy)
  end.

(** The cells [drawWall] visits between [p1] and [p2]. *)
Definition wall_cells (fuel : nat) (p1 p2 : Z * Z) : option (list (Z * Z)) :=
  let '(x1, y1) := p1 in
  let '(x2, y2) := p2 in
  let dx := Z.abs (x2 - x1) in
  let dy := - Z.abs (y2 - y1) in
  let sx := if bool_decide (x1 < x2) then 1 else -1 in
  let sy := if bool_decide (y1 < y2) then 1 else -1 in
  line_cells x2 y2 dx dy sx sy fuel x1 y1 (dx + dy).

(** Iterations that suffice for any wall from [p1] to [p2]. *)
Definition wall_fuel (p1 p2 : Z * Z) : nat :=
  S (Z.to_nat (Z.abs (p2.1 - p1.1) + Z.abs (p2.2 - p1.2))).

(** Two cells a king's move apart, or equal. *)
Definition adjacent (p q : Z * Z) : Prop :=
  -1 ≤ q.1 - p.1 ≤ 1 ∧ -1 ≤ q.2 - p.2 ≤ 1.

(** A cell within the rectangle spanned by two corners. *)
Definition in_box (p1 p2 q : Z * Z) : Prop :=
  Z.min p1.1 p2.1 ≤ q.1 ≤ Z.max p1.1 p2.1 ∧
  Z.min p1.2 p2.2 ≤ q.2 ≤ Z.max p1.2 p2.2.

(** The four enclosing walls of a [W] by [H] world, as the [WALL] lines of
    the pages list them, drawn on [createZeroMatrix(H, W)]. *)
Definition enclose (W H v : Z) : option (completion grid) :=
  let walls := [((0, 0), (0, H - 1)); ((0, H - 1), (W - 1, H - 1));
                ((W - 1, H - 1), (W - 1, 0)); ((W - 1, 0), (0, 0))] in
  foldl (λ r pq, match r with
                 | Some (Normal m) =>
                     drawWall (wall_fuel pq.1 pq.2) m pq.1 pq.2 v
                 | other => other
                 end)
        (Some (Normal (createZeroMatrix H W))) walls.

(** A list of cells in which each is adjacent to the next. *)
Definition linked (pts : list (Z * Z)) : Prop :=
  ∀ k p q, pts !! k = Some p → pts !! S k = Some q → adjacent p q.

(** A cell of the grid given by natural indices, as a point. *)
Definition cell (cx cy : nat) : Z * Z := (Z.of_nat cx, Z.of_nat cy).

(** The width [drawWall] reads: the length of the first row. *)
Definition width (m : grid) : nat := length (default [] (m !! 0%nat)).

(** A point inside the grid, as the guard of [drawWall] tests it. *)
Definition in_grid (m : grid) (q : Z * Z) : Prop :=
  0 ≤ q.1 < Z.of_nat (width m) ∧ 0 ≤ q.2 < Z.of_nat (length m).

(** The matrix a call left behind, for the examples. *)
Definition drawn (r : option (completion grid)) : grid :=
  match r with
  | Some (Normal g) => g
  | _ => []
  end.

(** A sloped wall on a 5 by 5 matrix, and a vertical wall that starts above
    a 4 by 4 matrix and ends below it. *)
Definition sloped_wall : grid :=
  drawn (drawWall 100 (createZeroMatrix 5 5) (0, 0) (4, 2) 10).

Definition clipped_wall : grid :=
  drawn (drawWall 100 (createZeroMatrix 4 4) (1, 5) (1, -2) 16).

(** ** The input text (src/25e41.js, src/25f45.js, src/25f49.js)

    A textarea is its [value], a string; lines are separated by the line
    feed character. *)

Definition LF : Strings.Ascii.ascii := Strings.Ascii.ascii_of_nat 10.

(** [str.split("\n")]: the pieces between the line feeds; the empty string
    has one piece, itself. *)
Fixpoint split (str : string) : list string :=
  match str with
  | EmptyString => [EmptyString]
  | String c str' =>
      if decide (c = LF) then EmptyString :: split str'
      else match split str' with
           | l :: ls => String c l :: ls
           | [] => [String c EmptyString]
           end
  end.

(** [l.indexOf(s)]: the first position at which [s] occurs in [l], or -1. *)
Fixpoint indexOf_from (i : Z) (l s : string) : Z :=
  if String.prefix s l then i
  else match l with
       | EmptyString => -1
       | String _ l' => indexOf_from (i + 1) l' s
       end.

Definition indexOf (l s : string) : Z := indexOf_from 0 l s.

(** [addTextToTextarea(txa, str)], on the value of [txa]. *)
Definition addTextToTextarea (txa str : string) : string :=
  if decide (txa = EmptyString) then txa +:+ str
  else txa +:+ (String LF EmptyString +:+ str).

(** [getLinesFromTextarea(el, keyword)]. *)
Definition getLinesFromTextarea (el keyword : string) : list string :=
  let lines := split el in
  filter (λ l, indexOf l (keyword +:+ " ") = 0) lines.

(** [getBlocksFromTextarea(el, key, rows)]: [lines[j + k]] is undefined past
    the last line, and is pushed all the same. *)
Definition getBlocksFromTextarea (el key : string) (rows : Z)
  : list (list (option string)) :=
  let lines := split el in
  (foldl (λ '(blocks, j) l,
            (if decide (indexOf l (key +:+ " ") = 0)
             then blocks ++ [(λ k, lines !! Z.to_nat (j + k))
                               <$> seqZ 0 (rows + 1)]
             else blocks,
             j + 1))
         ([], 0) lines).1.

(** A string without a line feed. *)
Fixpoint has_LF (s : string) : bool :=
  match s with
  | EmptyString => false
  | String c s' => bool_decide (c = LF) || has_LF s'
  end.

(** A list of lines without its leading empty lines. *)
Fixpoint drop_blank (ls : list string) : list string :=
  match ls with
  | EmptyString :: ls' => drop_blank ls'
  | _ => ls
  end.

(** Some lines of an input, as the pages write them. *)
Definition sample_lines : list string :=
  [EmptyString; "# World dimensions"; "WORLD 80 50"; EmptyString;
   "WALL 0 0 0 49 10"; "WALLS"; "MPMAT 48"; "0.00 0.00 0.10"; "WALL 1 19 79 19 16"].

(** A movement matrix block followed by the start of another. *)
Definition sample_blocks : string :=
  foldl addTextToTextarea EmptyString
        ["# Movement probability matrix"; "MPMAT 48"; "0.00 0.00 0.10";
         "0.00 0.00 0.80"; "0.00 0.00 0.10"; EmptyString; "MPMAT 41";
         "0.00 0.00 0.00"].

(** ** Colours (src/25e41.js) *)

(** The object [palette] of [getColor]: a row of ten colours for each of the
    categories 1 to 4 and 9. *)
Definition palette : gmap Z (list string) :=
  <[1 := ["#000000"; "#110c00"; "#221800"; "#332400"; "#443000";
          "#553c00"; "#664800"; "#775400"; "#886000"; "#884400"]]>
  (<[2 := ["#ffffff"; "#f8f8f8"; "#f0f0f0"; "#e8e8e8"; "#e0e0e0";
           "#d8d8d8"; "#d0d0d0"; "#c8c8c8"; "#c0c0c0"; "#b8b8b8"]]>
  (<[3 := ["#e3f2fd"; "#d1e9fc"; "#bfe0fb"; "#add7f9"; "#9bcef8";
           "#89c5f6"; "#77bcf5"; "#65b3f3"; "#53aaf2"; "#419fe9"]]>
  (<[4 := ["#005f60"; "#2a9d8f"; "#6a8532"; "#e9c46a"; "#f4a261";
           "#e76f51"; "#6b1650"; "#9c1057"; "#e63946"; "#ff99b6"]]>
  (<[9 := ["#c0c0c0"; "#c0c0c0"; "#c0c0c0"; "#c0c0c0"; "#c0c0c0";
           "#c0c0c0"; "#c0c0c0"; "#c0c0c0"; "#c0c0c0"; "#c0c0c0"]]>
   ∅)))).

(** [getColor(num)] for an integer [num]: [Math.floor(num / 10)] is the
    floored quotient, [num % 10] the remainder with the sign of [num]; a
    negative index reads no element. *)
Definition getColor (num : Z) : string :=
  let type := num / 10 in
  let variant := Z.rem num 10 in
  match palette !! type with
  | Some row =>
      match (if bool_decide (0 ≤ variant) then row !! Z.to_nat variant
             else None) with
      | Some colour => colour
      | None => "#fff"
      end
  | None => "#fff"
  end.

#[local] Set Warnings "-clear-no-such-hyp".

(** ** Rounding *)

Lemma RNE_range (a : Q) : Qfloor a ≤ RNE a ≤ Qfloor a + 1.
Proof.
  unfold RNE. cbv zeta.
  destruct (Qcompare _ _); [destruct (Z.even _) | |]; lia.
Qed.

Lemma RNE_comp (a b : Q) : (a == b)%Q → RNE a = RNE b.
Proof.
  intros Hab. unfold RNE. rewrite (Qfloor_comp a b Hab).
  assert ((a - inject_Z (Qfloor b) ?= 1 # 2)%Q
          = (b - inject_Z (Qfloor b) ?= 1 # 2)%Q) as ->; [| done].
  apply Qcompare_comp; [by rewrite Hab | reflexivity].
Qed.

Lemma RNE_inject (n : Z) : RNE (inject_Z n) = n.
Proof.
  unfold RNE. rewrite Qfloor_Z.
  assert ((inject_Z n - inject_Z n ?= 1 # 2)%Q = Lt) as ->; [| done].
  apply (proj1 (Qlt_alt _ _)). generalize (inject_Z n). intros q. lra.
Qed.

Lemma RNE_mono (a b : Q) : (a <= b)%Q → RNE a ≤ RNE b.
Proof.
  intros Hab. pose proof (Qfloor_resp_le a b Hab) as Hfl.
  pose proof (RNE_range a). pose proof (RNE_range b).
  destruct (decide (Qfloor a = Qfloor b)) as [Heq | Hne]; [| lia].
  unfold RNE. rewrite Heq.
  destruct (Qcompare_spec (a - inject_Z (Qfloor b)) (1 # 2)) as [Ha|Ha|Ha],
    (Qcompare_spec (b - inject_Z (Qfloor b)) (1 # 2)) as [Hb|Hb|Hb];
    try (destruct (Z.even (Qfloor b))); try lia; exfalso; lra.
Qed.

Lemma pow2_pos (k : Z) : 0 ≤ k → (0 < pow2 k)%Q.
Proof.
  intros Hk. unfold pow2. change 0%Q with (inject_Z 0). rewrite <- Zlt_Qlt.
  by apply Z.pow_pos_nonneg.
Qed.

Lemma pow2_add (j k : Z) : 0 ≤ j → 0 ≤ k → (pow2 (j + k) == pow2 j * pow2 k)%Q.
Proof.
  intros Hj Hk. unfold pow2. rewrite Z.pow_add_r by done.
  by rewrite inject_Z_mult.
Qed.

Lemma div_pow2_le (a : Q) (n k : Z) :
  0 ≤ k → (a <= inject_Z (n * 2 ^ k))%Q → (a / pow2 k <= inject_Z n)%Q.
Proof.
  intros Hk Ha. apply Qle_shift_div_r; [by apply pow2_pos |].
  unfold pow2. by rewrite <- inject_Z_mult.
Qed.

Lemma div_pow2_ge (a : Q) (n k : Z) :
  0 ≤ k → (inject_Z (n * 2 ^ k) <= a)%Q → (inject_Z n <= a / pow2 k)%Q.
Proof.
  intros Hk Ha. apply Qle_shift_div_l; [by apply pow2_pos |].
  unfold pow2. by rewrite <- inject_Z_mult.
Qed.

Lemma div_pow2_exact (n k : Z) :
  0 ≤ k → (inject_Z (n * 2 ^ k) / pow2 k == inject_Z n)%Q.
Proof.
  intros Hk. pose proof (pow2_pos k Hk). unfold pow2 in *.
  rewrite inject_Z_mult. field. lra.
Qed.

Lemma binade_nonneg (a : Q) : 0 ≤ binade a.
Proof. unfold binade. lia. Qed.

Lemma binade_mono (a b : Q) : (a <= b)%Q → binade a ≤ binade b.
Proof.
  intros Hab. unfold binade.
  pose proof (Z.log2_le_mono _ _ (Qfloor_resp_le a b Hab)). lia.
Qed.

Lemma binade_above (a : Q) : (a < inject_Z (2 ^ 53 * 2 ^ binade a))%Q.
Proof.
  eapply Qlt_le_trans; [apply Qlt_floor |].
  rewrite <- Zle_Qle. rewrite <- Z.pow_add_r by (pose proof (binade_nonneg a); lia).
  destruct (decide (0 < Qfloor a)) as [Hpos | Hnpos].
  - pose proof (Z.log2_spec _ Hpos) as [_ Hlt].
    assert (2 ^ Z.succ (Z.log2 (Qfloor a)) ≤ 2 ^ (53 + binade a)); [| lia].
    apply Z.pow_le_mono_r; [lia |]. unfold binade. lia.
  - assert (2 ^ 0 ≤ 2 ^ (53 + binade a)).
    { apply Z.pow_le_mono_r; [lia |]. pose proof (binade_nonneg a). lia. }
    change (2 ^ 0) with 1 in *. lia.
Qed.

Lemma binade_below (a : Q) : 1 ≤ binade a → (inject_Z (2 ^ 52 * 2 ^ binade a) <= a)%Q.
Proof.
  intros Hk. eapply Qle_trans; [| apply Qfloor_le].
  rewrite <- Zle_Qle. rewrite <- Z.pow_add_r by lia.
  unfold binade in *.
  assert (0 < Qfloor a) as Hpos.
  { destruct (decide (0 < Qfloor a)); [done |].
    rewrite Z.log2_nonpos in Hk by lia. lia. }
  pose proof (Z.log2_spec _ Hpos) as [Hle _].
  replace (52 + Z.max 0 (Z.log2 (Qfloor a) - 52)) with (Z.log2 (Qfloor a))
    by lia.
  done.
Qed.

Lemma round53_unfold (a : Q) :
  round53 a = RNE (a / pow2 (binade a)) * 2 ^ binade a.
Proof. reflexivity. Qed.

Lemma round53_comp (a b : Q) : (a == b)%Q → round53 a = round53 b.
Proof.
  intros Hab. rewrite !round53_unfold. unfold binade.
  rewrite (Qfloor_comp a b Hab). f_equal. apply RNE_comp. by rewrite Hab.
Qed.

(** The significand: at most [2^53], and at least [2^52] off the finest
    binade. *)
Lemma significand_le (a : Q) : RNE (a / pow2 (binade a)) ≤ 2 ^ 53.
Proof.
  rewrite <- (RNE_inject (2 ^ 53)). apply RNE_mono.
  apply div_pow2_le; [apply binade_nonneg |].
  apply Qlt_le_weak, binade_above.
Qed.

Lemma significand_ge (a : Q) :
  1 ≤ binade a → 2 ^ 52 ≤ RNE (a / pow2 (binade a)).
Proof.
  intros Hk. rewrite <- (RNE_inject (2 ^ 52)). apply RNE_mono.
  apply div_pow2_ge; [lia |]. by apply binade_below.
Qed.

Lemma significand_nonneg (a : Q) : (0 <= a)%Q → 0 ≤ RNE (a / pow2 (binade a)).
Proof.
  intros Ha. rewrite <- (RNE_inject 0). apply RNE_mono.
  apply Qle_shift_div_l; [apply pow2_pos, binade_nonneg |].
  change (inject_Z 0) with 0%Q. lra.
Qed.

Lemma round53_nonneg (a : Q) : (0 <= a)%Q → 0 ≤ round53 a.
Proof.
  intros Ha. rewrite round53_unfold.
  pose proof (significand_nonneg a Ha).
  pose proof (Z.pow_pos_nonneg 2 (binade a) ltac:(lia) (binade_nonneg a)). nia.
Qed.

Lemma round53_mono (a b : Q) : (a <= b)%Q → round53 a ≤ round53 b.
Proof.
  intros Hab. rewrite !round53_unfold.
  pose proof (binade_mono a b Hab) as Hk.
  pose proof (binade_nonneg a) as Hka.
  destruct (decide (binade a = binade b)) as [Heq | Hne].
  - rewrite Heq. apply Z.mul_le_mono_nonneg_r.
    + apply Z.pow_nonneg. lia.
    + apply RNE_mono. apply Qmult_le_compat_r; [done |].
      apply Qinv_le_0_compat, Qlt_le_weak, pow2_pos. lia.
  - pose proof (significand_le a) as Hle.
    pose proof (significand_ge b ltac:(lia)) as Hge.
    assert (2 ^ 53 * 2 ^ binade a ≤ 2 ^ 52 * 2 ^ binade b) as Hpow.
    { rewrite <- !Z.pow_add_r by lia. apply Z.pow_le_mono_r; lia. }
    pose proof (Z.pow_pos_nonneg 2 (binade a) ltac:(lia) Hka).
    pose proof (Z.pow_pos_nonneg 2 (binade b) ltac:(lia) ltac:(lia)).
    nia.
Qed.

Lemma round53_exact (m k : Z) :
  0 ≤ k → binade (inject_Z (m * 2 ^ k)) = k →
  round53 (inject_Z (m * 2 ^ k)) = m * 2 ^ k.
Proof.
  intros Hk Hg. rewrite round53_unfold, Hg.
  by rewrite (RNE_comp _ _ (div_pow2_exact m k Hk)), RNE_inject.
Qed.

Lemma round53_idem (a : Q) :
  (0 <= a)%Q → round53 (inject_Z (round53 a)) = round53 a.
Proof.
  intros Ha. rewrite (round53_unfold a).
  pose proof (significand_le a) as Hle.
  pose proof (significand_nonneg a Ha) as Hnn.
  pose proof (binade_nonneg a) as Hk.
  pose proof (significand_ge a) as Hge.
  set (m := RNE (a / pow2 (binade a))) in *. set (k := binade a) in *.
  destruct (decide (m = 0)) as [-> | Hm0].
  { rewrite Z.mul_0_l. reflexivity. }
  destruct (decide (m = 2 ^ 53)) as [Hm | Hm].
  - rewrite Hm. rewrite <- Z.pow_add_r by lia.
    replace (2 ^ (53 + k)) with (2 ^ 52 * 2 ^ (k + 1))
      by (rewrite <- Z.pow_add_r by lia; f_equal; lia).
    apply round53_exact; [lia |]. unfold binade. rewrite Qfloor_Z.
    rewrite Z.log2_mul_pow2 by lia. change (Z.log2 (2 ^ 52)) with 52. lia.
  - assert (k = 0 ∨ 1 ≤ k) as [Hk0 | Hk1] by lia.
    + apply round53_exact; [lia |]. unfold binade. rewrite Qfloor_Z, Hk0.
      rewrite Z.mul_1_r.
      assert (Z.log2 m < 53); [| lia].
      apply Z.log2_lt_pow2; lia.
    + specialize (Hge Hk1).
      apply round53_exact; [lia |]. unfold binade. rewrite Qfloor_Z.
      rewrite Z.log2_mul_pow2 by lia.
      assert (Z.log2 m = 52); [| lia].
      apply Z.log2_unique; [lia |]. change (Z.succ 52) with 53. lia.
Qed.

Lemma round_units_comp (a b : Q) : (a == b)%Q → round_units a = round_units b.
Proof.
  intros Hab. unfold round_units.
  assert (Qle_bool 0 a = Qle_bool 0 b) as ->.
  { apply eq_true_iff_eq. rewrite !Qle_bool_iff. by rewrite Hab. }
  destruct (Qle_bool 0 b); [by apply round53_comp |].
  f_equal. apply round53_comp. by rewrite Hab.
Qed.

Lemma round_units_pos (a : Q) : (0 <= a)%Q → round_units a = round53 a.
Proof.
  intros Ha. unfold round_units.
  by rewrite (proj2 (Qle_bool_iff 0 a) Ha).
Qed.

Lemma round_units_neg (a : Q) : (a < 0)%Q → round_units a = - round53 (- a).
Proof.
  intros Ha. unfold round_units. destruct (Qle_bool 0 a) eqn:E; [| done].
  apply Qle_bool_iff in E. lra.
Qed.

Lemma round_units_mono (a b : Q) : (a <= b)%Q → round_units a ≤ round_units b.
Proof.
  intros Hab. destruct (Qlt_le_dec a 0) as [Ha | Ha],
    (Qlt_le_dec b 0) as [Hb | Hb].
  - rewrite !round_units_neg by done.
    pose proof (round53_mono (- b) (- a) ltac:(lra)). lia.
  - rewrite round_units_neg, round_units_pos by done.
    pose proof (round53_nonneg (- a) ltac:(lra)).
    pose proof (round53_nonneg b Hb). lia.
  - lra.
  - rewrite !round_units_pos by done. by apply round53_mono.
Qed.

Lemma round_units_idem (a : Q) :
  round_units (inject_Z (round_units a)) = round_units a.
Proof.
  destruct (Qlt_le_dec a 0) as [Ha | Ha].
  - rewrite (round_units_neg a Ha).
    pose proof (round53_nonneg (- a) ltac:(lra)) as Hnn.
    pose proof (round53_idem (- a) ltac:(lra)) as Hid.
    destruct (decide (round53 (- a) = 0)) as [H0 | H0].
    { rewrite H0. reflexivity. }
    rewrite round_units_neg.
    + f_equal. rewrite <- Hid at 2. apply round53_comp.
      rewrite inject_Z_opp. lra.
    + change 0%Q with (inject_Z 0). rewrite <- Zlt_Qlt. lia.
  - rewrite (round_units_pos a Ha).
    rewrite round_units_pos; [by apply round53_idem |].
    change 0%Q with (inject_Z 0). rewrite <- Zle_Qle.
    by apply round53_nonneg.
Qed.

Lemma round_comp (a b : Q) : (a == b)%Q → round a = round b.
Proof. intros Hab. unfold round. by rewrite (round_units_comp a b Hab). Qed.

Lemma is_double_units (n : Z) :
  is_double (Num n) ↔ round_units (inject_Z n) = n ∧ - huge < n < huge.
Proof.
  unfold is_double, round. split.
  - intros H. repeat case_bool_decide; try discriminate.
    injection H as H. lia.
  - intros [-> ?]. by rewrite !bool_decide_eq_false_2 by lia.
Qed.

Lemma round_double (x : Q) : is_double (round x).
Proof.
  unfold round. repeat case_bool_decide; try done.
  apply is_double_units. split; [apply round_units_idem | lia].
Qed.

Lemma is_double_0 : is_double (Num 0).
Proof. reflexivity. Qed.

Lemma round_le (x : Q) (n : Z) :
  is_double (Num n) → (x <= inject_Z n)%Q →
  round x = NegInf ∨ ∃ n', round x = Num n' ∧ n' ≤ n.
Proof.
  intros [Hn Hr]%is_double_units Hx.
  pose proof (round_units_mono _ _ Hx) as Hle. rewrite Hn in Hle.
  unfold round. rewrite bool_decide_eq_false_2 by lia.
  case_bool_decide; [by left | right; eauto].
Qed.

Lemma round_ge (x : Q) (n : Z) :
  is_double (Num n) → (inject_Z n <= x)%Q →
  round x = PosInf ∨ ∃ n', round x = Num n' ∧ n ≤ n'.
Proof.
  intros [Hn Hr]%is_double_units Hx.
  pose proof (round_units_mono _ _ Hx) as Hle. rewrite Hn in Hle.
  unfold round. case_bool_decide; [by left |].
  rewrite bool_decide_eq_false_2 by lia. right; eauto.
Qed.

Lemma round_fix (n : Z) (x : Q) :
  is_double (Num n) → (x == inject_Z n)%Q → round x = Num n.
Proof. intros Hn Hx. by rewrite (round_comp _ _ Hx). Qed.

(** On [sample_sums] the addition of the sampler is the addition of the
    library's binary64, and the samples are numbers of that format. *)
Example acc_add_is_library_add :
  Forall (λ p, is_double (Num p.1) ∧ is_double (Num p.2) ∧
               acc_add (Num p.1) (Some (value p.2))
               = library_add (Num p.1) (Num p.2))
         sample_sums.
Proof. apply (bool_decide_unpack _). vm_compute. exact I. Qed.

(** Overflow and absorption among them: the largest number added to
    itself is infinite, and [2^-55] added to 1/2 leaves 1/2. *)
Example acc_add_samples :
  acc_add (Num (dyadic 9007199254740991 971))
          (Some (value (dyadic 9007199254740991 971))) = PosInf ∧
  acc_add (Num (dyadic 1 (-1))) (Some (1 # 2 ^ 55)%Q) = Num (dyadic 1 (-1)) ∧
  acc_add (number (1 # 10)) (Some (double (2 # 10)))
  = Num (dyadic 1351079888211149 (-52)).
Proof.
  split; [vm_compute; reflexivity |].
  split; vm_compute; reflexivity.
Qed.

(** ** The sampler *)

Example generateDirection_right :
  generateDirection (Some right_matrix) (1 # 2) = Normal (Some (1, 0)).
Proof. vm_compute. reflexivity. Qed.

Lemma scale_pos : (0 < scale)%Q.
Proof. reflexivity. Qed.

Lemma acc_gt_false (n : Z) (x : Q) :
  acc_gt (Num n) x = false ↔ (inject_Z n <= x * scale)%Q.
Proof.
  unfold acc_gt. rewrite negb_false_iff. apply Qle_bool_iff.
Qed.

Lemma acc_gt_true (n : Z) (x : Q) :
  acc_gt (Num n) x = true ↔ (x * scale < inject_Z n)%Q.
Proof.
  unfold acc_gt. rewrite negb_true_iff.
  destruct (Qle_bool (inject_Z n) (x * scale)) eqn:E.
  - apply Qle_bool_iff in E. split; [discriminate |].
    intros H. exfalso. revert E H. apply Qle_not_lt.
  - split; [intros _ | reflexivity].
    destruct (Qlt_le_dec (x * scale) (inject_Z n)) as [?|Hle]; [assumption |].
    apply Qle_bool_iff in Hle. congruence.
Qed.

Lemma acc_gt_mono (y : num) (x x' : Q) :
  (x' <= x)%Q → acc_gt y x = true → acc_gt y x' = true.
Proof.
  intros Hx. destruct y as [n| | |]; try done.
  rewrite !acc_gt_true. intros H. eapply Qle_lt_trans; [| exact H].
  apply Qmult_le_compat_r; [done | apply Qlt_le_weak, scale_pos].
Qed.

Lemma acc_ge_gt (y : num) (x u : Q) :
  acc_ge y x = true → (u < x)%Q → acc_gt y u = true.
Proof.
  intros Hy Hu. destruct y as [n| | |]; try done.
  apply acc_gt_true. apply Qle_bool_iff in Hy.
  eapply Qlt_le_trans; [| exact Hy].
  apply Qmult_lt_compat_r; [apply scale_pos | done].
Qed.

Lemma acc_gt_zero (u : Q) : (0 <= u)%Q → acc_gt (Num 0) u = false.
Proof.
  intros Hu. apply acc_gt_false. change (inject_Z 0) with 0%Q.
  apply Qmult_le_0_compat; [done | apply Qlt_le_weak, scale_pos].
Qed.

Lemma acc_gt_one (u : Q) : (u < 1)%Q → acc_gt (number 1) u = true.
Proof.
  intros Hu. apply (acc_ge_gt _ 1); [| done]. vm_compute. reflexivity.
Qed.

Lemma acc_add_one : acc_add (Num 0) (Some 1%Q) = number 1.
Proof. vm_compute. reflexivity. Qed.

Lemma acc_add_undefined (y : num) : acc_add y None = NotANumber.
Proof. by destruct y. Qed.

Lemma acc_add_double (y : num) (p : option Q) : is_double (acc_add y p).
Proof. destruct y, p; try done. apply round_double. Qed.

Lemma acc_add_zero (y : num) : is_double y → acc_add y (Some 0%Q) = y.
Proof.
  intros Hy. destruct y as [n| | |]; try done.
  cbn [acc_add]. apply round_fix; [done |]. ring.
Qed.

Lemma acc_add_nonpos (y : num) (p u : Q) :
  is_double y → (p <= 0)%Q →
  acc_gt y u = false → acc_gt (acc_add y (Some p)) u = false.
Proof.
  intros Hy Hp Hgt. destruct y as [n| | |]; try done.
  cbn [acc_add]. apply acc_gt_false in Hgt.
  destruct (round_le (inject_Z n + p * scale) n Hy) as [-> | (n' & -> & Hn')];
    [| done |].
  - pose proof (Qmult_le_compat_r p 0 scale Hp (Qlt_le_weak _ _ scale_pos))
      as Hps.
    rewrite Qmult_0_l in Hps. generalize dependent (p * scale)%Q.
    generalize (inject_Z n). intros a ps Hps. lra.
  - apply acc_gt_false. eapply Qle_trans; [| exact Hgt].
    by rewrite <- Zle_Qle.
Qed.

Lemma acc_add_nonneg (y : num) (p u : Q) :
  is_double y → (0 <= p)%Q →
  acc_gt y u = true → acc_gt (acc_add y (Some p)) u = true.
Proof.
  intros Hy Hp Hgt. destruct y as [n| | |]; try done.
  cbn [acc_add]. apply acc_gt_true in Hgt.
  destruct (round_ge (inject_Z n + p * scale) n Hy) as [-> | (n' & -> & Hn')];
    [| done |].
  - pose proof (Qmult_le_0_compat p scale Hp (Qlt_le_weak _ _ scale_pos))
      as Hps.
    generalize dependent (p * scale)%Q.
    generalize (inject_Z n). intros a ps Hps. lra.
  - apply acc_gt_true. eapply Qlt_le_trans; [exact Hgt |].
    by rewrite <- Zle_Qle.
Qed.

Lemma mass_app (l1 l2 : list Q) (y : num) :
  mass (l1 ++ l2) y = mass l2 (mass l1 y).
Proof. unfold mass. apply foldl_app. Qed.

Lemma mass_snoc (l : list Q) (p : Q) (y : num) :
  mass (l ++ [p]) y = acc_add (mass l y) (Some p).
Proof. by rewrite mass_app. Qed.

Lemma mass_double (l : list Q) (y : num) : is_double y → is_double (mass l y).
Proof.
  revert y. induction l as [|p l IH]; intros y Hy; [done |].
  cbn. apply IH, acc_add_double.
Qed.

Lemma mass_zeros (l : list Q) (y : num) :
  Forall (λ p, p = 0%Q) l → is_double y → mass l y = y.
Proof.
  revert y. induction l as [|p l IH]; intros y Hl Hy; [reflexivity |].
  inversion Hl; subst. cbn [mass foldl]. rewrite acc_add_zero by done.
  by apply IH.
Qed.

(** The running sum never comes back below a draw it has passed, as long as
    the entries are not negative. *)
Lemma mass_take_mono (l : list Q) (y : num) (u : Q) (i j : nat) :
  Forall (λ p, (0 <= p)%Q) l → is_double y → (i ≤ j)%nat →
  acc_gt (mass (take i l) y) u = true →
  acc_gt (mass (take j l) y) u = true.
Proof.
  intros Hl Hy Hij Hi. induction Hij as [|j Hij IH]; [done |].
  destruct (decide (j < length l)%nat) as [Hlt | Hge].
  - destruct (lookup_lt_is_Some_2 l j Hlt) as [p Hp].
    rewrite (take_S_r l j p Hp), mass_snoc.
    apply acc_add_nonneg; [by apply mass_double | | done].
    rewrite Forall_forall in Hl. apply Hl. by eapply list_elem_of_lookup_2.
  - rewrite take_ge by lia. by rewrite take_ge in IH by lia.
Qed.

Lemma scan_cols_below (pre suf : list Q) (x : Q) (r : nat) (y : num) :
  (∀ k, acc_gt (mass (take k suf) y) x = false) →
  scan_cols (pre ++ suf) x r (seq (length pre) (length suf)) y
  = Continue (mass suf y).
Proof.
  revert pre y. induction suf as [|p suf IH]; intros pre y Hle; [reflexivity |].
  cbn [length seq scan_cols].
  rewrite lookup_app_r, Nat.sub_diag by lia. cbn [lookup list_lookup].
  pose proof (Hle 1%nat) as H1.
  change (acc_gt (acc_add y (Some p)) x = false) in H1. rewrite H1.
  replace (pre ++ p :: suf) with ((pre ++ [p]) ++ suf)
    by (rewrite <- app_assoc; reflexivity).
  replace (S (length pre)) with (length (pre ++ [p]))
    by (rewrite length_app; simpl; lia).
  rewrite IH; [reflexivity |].
  intros k. apply (Hle (S k)).
Qed.

Lemma scan_rows_below (pre suf : matrix) (x : Q) (n : nat) (y : num) :
  rows_of n suf →
  (∀ k, acc_gt (mass (take k (concat suf)) y) x = false) →
  scan_rows (pre ++ suf) x n (seq (length pre) (length suf)) y
  = Continue (mass (concat suf) y).
Proof.
  revert pre y. induction suf as [|row suf IH]; intros pre y Hn Hle;
    [reflexivity |].
  inversion Hn as [|? ? Hrow Hn']; subst.
  cbn [length seq scan_rows concat]. cbn [concat] in Hle.
  rewrite lookup_app_r, Nat.sub_diag by lia. cbn [lookup list_lookup default].
  pose proof (scan_cols_below [] row x (length pre) y) as Hrow.
  cbn [app length] in Hrow. unfold id. rewrite Hrow.
  - replace (pre ++ row :: suf) with ((pre ++ [row]) ++ suf)
      by (rewrite <- app_assoc; reflexivity).
    replace (S (length pre)) with (length (pre ++ [row]))
      by (rewrite length_app; simpl; lia).
    rewrite IH; [by rewrite mass_app | assumption |].
    intros k. specialize (Hle (length row + k)%nat).
    rewrite take_app_add, mass_app in Hle. exact Hle.
  - intros k. specialize (Hle (min k (length row))).
    rewrite take_app_le in Hle by lia.
    replace (take k row) with (take (min k (length row)) row); [exact Hle |].
    destruct (Nat.min_spec k (length row)) as [[? ->]|[? ->]]; [done |].
    by rewrite !take_ge by lia.
Qed.

(** A scan that goes on has added every entry and stands at or below the
    draw. *)
Lemma scan_cols_continue (pre suf : list Q) (x : Q) (r : nat) (y y' : num) :
  scan_cols (pre ++ suf) x r (seq (length pre) (length suf)) y = Continue y' →
  y' = mass suf y ∧ (suf ≠ [] → acc_gt y' x = false).
Proof.
  revert pre y. induction suf as [|p suf IH]; intros pre y.
  { cbn. intros [= <-]. done. }
  cbn [length seq scan_cols].
  rewrite lookup_app_r, Nat.sub_diag by lia. cbn [lookup list_lookup].
  destruct (acc_gt (acc_add y (Some p)) x) eqn:E; [discriminate |].
  replace (pre ++ p :: suf) with ((pre ++ [p]) ++ suf)
    by (rewrite <- app_assoc; reflexivity).
  replace (S (length pre)) with (length (pre ++ [p]))
    by (rewrite length_app; simpl; lia).
  intros H. apply IH in H as [-> Hgt]. split; [done |]. intros _.
  destruct suf; [exact E | by apply Hgt].
Qed.

Lemma scan_rows_continue (pre suf : matrix) (x : Q) (n : nat) (y y' : num) :
  rows_of n suf →
  scan_rows (pre ++ suf) x n (seq (length pre) (length suf)) y = Continue y' →
  y' = mass (concat suf) y ∧ (concat suf ≠ [] → acc_gt y' x = false).
Proof.
  revert pre y. induction suf as [|row suf IH]; intros pre y Hn.
  { cbn. intros [= <-]. done. }
  inversion Hn as [|? ? Hrow Hn']; subst.
  cbn [length seq scan_rows concat].
  rewrite lookup_app_r, Nat.sub_diag by lia. cbn [lookup list_lookup default].
  unfold id.
  pose proof (scan_cols_continue [] row x (length pre) y) as Hc.
  cbn [app length] in Hc.
  destruct (scan_cols row x (length pre) (seq 0 (length row)) y) as [|y1];
    [discriminate |].
  destruct (Hc y1 eq_refl) as [-> Hrow].
  replace (pre ++ row :: suf) with ((pre ++ [row]) ++ suf)
    by (rewrite <- app_assoc; reflexivity).
  replace (S (length pre)) with (length (pre ++ [row]))
    by (rewrite length_app; simpl; lia).
  intros H. apply IH in H as [-> Hgt]; [| done].
  rewrite mass_app. split; [done |]. intros Hne.
  destruct (concat suf) as [|q qs] eqn:Es.
  - cbn. apply Hrow. intros ->. by apply Hne.
  - by apply Hgt.
Qed.

Lemma sampler_below_draw (m : matrix) (n : nat) (u : Q) :
  m ≠ [] →
  rows_of n m →
  (∀ k, acc_gt (mass (take k (concat m)) (Num 0)) u = false) →
  generateDirection (Some m) u = Normal None.
Proof.
  intros Hm Hn Hle. unfold generateDirection.
  destruct m as [|r0 m']; [done |]. cbn [lookup list_lookup].
  assert (length r0 = n) as -> by (by inversion Hn).
  pose proof (scan_rows_below [] (r0 :: m') u n (Num 0) Hn Hle) as H.
  cbn [app] in H. change (length []) with 0%nat in H. by rewrite H.
Qed.

(** C3: on a matrix whose accumulated mass never exceeds the draw, the
    sampler reaches the end of both loops and returns [undefined]; it does
    not return the "stay" direction [(0, 0)].  The mass is the running sum as
    the sampler computes it, rounded after every addition. *)
Theorem generateDirection_falls_through (m : matrix) (n : nat) (u : Q) :
  m ≠ [] →
  rows_of n m →
  (∀ k, acc_gt (mass (take k (concat m)) (Num 0)) u = false) →
  generateDirection (Some m) u = Normal None ∧
  generateDirection (Some m) u ≠ Normal (Some (0, 0)).
Proof.
  intros Hm Hn Hle. rewrite (sampler_below_draw m n u Hm Hn Hle). done.
Qed.

Lemma generateDirection_falls_through_witness :
  generateDirection (Some zero_matrix) (1 # 2) = Normal None ∧
  generateDirection (Some zero_matrix) (1 # 2) ≠ Normal (Some (0, 0)).
Proof.
  apply (generateDirection_falls_through zero_matrix 3 (1 # 2)).
  - discriminate.
  - repeat constructor.
  - intros k. do 10 (destruct k as [|k]; [vm_compute; reflexivity |]).
    vm_compute; reflexivity.
Defined.

(** On the all-zero matrix no draw of [[0,1)] yields a direction. *)
Lemma generateDirection_zero_matrix (u : Q) :
  (0 <= u)%Q → generateDirection (Some zero_matrix) u = Normal None.
Proof.
  intros Hu. apply (sampler_below_draw zero_matrix 3 u).
  - discriminate.
  - repeat constructor.
  - intros k. rewrite mass_zeros; [by apply acc_gt_zero | | done].
    apply Forall_take. repeat constructor.
Qed.

Lemma scan_cols_inv (mr : list Q) (u : Q) (r : nat) (cs : list nat)
  (y : num) :
  is_double y → acc_gt y u = false →
  match scan_cols mr u r cs y with
  | Found dx dy =>
      dy = Z.of_nat r - 1 ∧
      ∃ c p, dx = Z.of_nat c - 1 ∧ mr !! c = Some p ∧ (0 < p)%Q
  | Continue y' => is_double y' ∧ acc_gt y' u = false
  end.
Proof.
  revert y. induction cs as [|c cs IH]; intros y Hd Hy; [done |].
  cbn [scan_cols].
  destruct (acc_gt (acc_add y (mr !! c)) u) eqn:E.
  - split; [reflexivity |]. exists c.
    destruct (mr !! c) as [p|]; [| by rewrite acc_add_undefined in E].
    exists p. split; [reflexivity |]. split; [reflexivity |].
    destruct (Qlt_le_dec 0 p) as [Hp | Hp]; [done |].
    by rewrite (acc_add_nonpos y p u Hd Hp Hy) in E.
  - apply IH; [apply acc_add_double | done].
Qed.

Lemma scan_rows_inv (m : matrix) (u : Q) (n : nat) (rs : list nat)
  (y : num) :
  is_double y → acc_gt y u = false →
  match scan_rows m u n rs y with
  | Found dx dy =>
      ∃ r c row p, dy = Z.of_nat r - 1 ∧ dx = Z.of_nat c - 1 ∧
                   m !! r = Some row ∧ row !! c = Some p ∧ (0 < p)%Q
  | Continue y' => is_double y' ∧ acc_gt y' u = false
  end.
Proof.
  revert y. induction rs as [|r rs IH]; intros y Hd Hy; [done |].
  cbn [scan_rows].
  pose proof (scan_cols_inv (default [] (m !! r)) u r (seq 0 n) y Hd Hy) as Hc.
  destruct (scan_cols (default [] (m !! r)) u r (seq 0 n) y) as [dx dy|y'].
  - destruct Hc as (-> & c & p & -> & Hp & Hpos).
    destruct (m !! r) as [row|] eqn:Hr; [| done].
    exists r, c, row, p. done.
  - destruct Hc as [Hd' Hy']. by apply IH.
Qed.

(** C9: a direction returned by the sampler on a non-negative draw points at
    a matrix entry that is strictly positive. *)
Theorem generateDirection_positive_entry (m : matrix) (u : Q) (dx dy : Z) :
  (0 <= u)%Q →
  generateDirection (Some m) u = Normal (Some (dx, dy)) →
  ∃ row p, m !! Z.to_nat (dy + 1) = Some row ∧
           row !! Z.to_nat (dx + 1) = Some p ∧ (0 < p)%Q.
Proof.
  intros Hu. unfold generateDirection.
  destruct (m !! 0%nat) as [r0|]; [| discriminate].
  pose proof (scan_rows_inv m u (length r0) (seq 0 (length m)) (Num 0)
                is_double_0 (acc_gt_zero u Hu)) as H.
  destruct (scan_rows m u (length r0) (seq 0 (length m)) (Num 0))
    as [dx' dy'|]; [| discriminate].
  intros [= <- <-].
  destruct H as (r & c & row & p & -> & -> & Hr & Hc & Hp).
  exists row, p.
  replace (Z.to_nat (Z.of_nat r - 1 + 1)) with r by lia.
  replace (Z.to_nat (Z.of_nat c - 1 + 1)) with c by lia.
  done.
Qed.

Lemma generateDirection_positive_entry_witness :
  ∃ row p, right_matrix !! Z.to_nat (0 + 1) = Some row ∧
           row !! Z.to_nat (1 + 1) = Some p ∧ (0 < p)%Q.
Proof.
  apply (generateDirection_positive_entry right_matrix (1 # 2) 1 0).
  - vm_compute. discriminate.
  - vm_compute. reflexivity.
Defined.

Lemma scan_cols_range (mr : list Q) (x : Q) (r : nat) (cs : list nat)
  (y : num) (dx dy : Z) :
  scan_cols mr x r cs y = Found dx dy →
  dy = Z.of_nat r - 1 ∧ ∃ c, c ∈ cs ∧ dx = Z.of_nat c - 1.
Proof.
  revert y. induction cs as [|c cs IH]; intros y; cbn [scan_cols];
    [discriminate |].
  destruct (acc_gt _ _).
  - intros [= <- <-]. split; [done |]. exists c. split; [by left | done].
  - intros H. destruct (IH _ H) as (-> & c' & Hc' & ->).
    split; [done |]. exists c'. split; [by right | done].
Qed.

Lemma scan_rows_range (m : matrix) (x : Q) (n : nat) (rs : list nat)
  (y : num) (dx dy : Z) :
  scan_rows m x n rs y = Found dx dy →
  ∃ r c, r ∈ rs ∧ (c < n)%nat ∧ dx = Z.of_nat c - 1 ∧ dy = Z.of_nat r - 1.
Proof.
  revert y. induction rs as [|r rs IH]; intros y; cbn [scan_rows];
    [discriminate |].
  destruct (scan_cols _ x r (seq 0 n) y) as [dx' dy'|y'] eqn:E.
  - intros [= <- <-]. apply scan_cols_range in E as (-> & c & Hc & ->).
    apply elem_of_seq in Hc. exists r, c.
    split; [by left |]. split; [lia | done].
  - intros H. destruct (IH _ H) as (r' & c & Hr' & Hc & -> & ->).
    exists r', c. split; [by right | done].
Qed.

Lemma sampler_range (m : matrix) (u : Q) (dx dy : Z) :
  generateDirection (Some m) u = Normal (Some (dx, dy)) →
  -1 ≤ dx < Z.of_nat (length (default [] (m !! 0%nat))) - 1 ∧
  -1 ≤ dy < Z.of_nat (length m) - 1.
Proof.
  unfold generateDirection. destruct (m !! 0%nat) as [r0|]; [| discriminate].
  destruct (scan_rows m u (length r0) (seq 0 (length m)) (Num 0))
    as [dx' dy'|] eqn:E; [| discriminate].
  intros [= <- <-].
  apply scan_rows_range in E as (r & c & Hr & Hc & -> & ->).
  apply elem_of_seq in Hr. cbn [default from_option id]. lia.
Qed.

(** ** What the loops leave alone *)

Lemma frame_refl (s : State) : frame s s.
Proof. by repeat split. Qed.

Lemma frame_trans (s1 s2 s3 : State) : frame s1 s2 → frame s2 s3 → frame s1 s3.
Proof. unfold frame. intros H1 H2. destruct_and!. repeat split; congruence. Qed.

Lemma keeps_ret {A} (a : A) : keeps (ret a).
Proof. intros s. apply frame_refl. Qed.

Lemma keeps_throw {A} : keeps (@throw A).
Proof. intros s. apply frame_refl. Qed.

Lemma keeps_lift {A} (c : completion A) : keeps (lift c).
Proof. intros s. apply frame_refl. Qed.

Lemma keeps_gets {A} (f : State → A) : keeps (gets f).
Proof. intros s. apply frame_refl. Qed.

Lemma keeps_bind {A B} (m : M A) (k : A → M B) :
  keeps m → (∀ a, keeps (k a)) → keeps (bind m k).
Proof.
  intros Hm Hk s. unfold bind. specialize (Hm s).
  destruct (m s) as [[a|] s']; [| exact Hm].
  eapply frame_trans; [exact Hm | apply Hk].
Qed.

Lemma keeps_destructure (d : option (Z * Z)) : keeps (destructure d).
Proof. destruct d; [apply keeps_ret | apply keeps_throw]. Qed.

Lemma keeps_read_cell (x y : Z) : keeps (read_cell x y).
Proof. intros s. unfold read_cell. destruct (world s !! y); apply frame_refl. Qed.

Lemma keeps_write_cell (x y : Z) (v : option Z) : keeps (write_cell x y v).
Proof.
  intros s. unfold write_cell.
  destruct (world s !! y); [| apply frame_refl].
  by repeat split.
Qed.

Lemma keeps_Math_random (rand : nat → Q) : keeps (Math_random rand).
Proof. intros s. by repeat split. Qed.

Lemma keeps_bump (f : nat) :
  keeps (modify (λ s, set_filterCount (bump f (filterCount s)) s)).
Proof. intros s. by repeat split. Qed.

Create HintDb keeps.
#[local] Hint Resolve keeps_ret keeps_throw keeps_lift keeps_gets
  keeps_destructure keeps_read_cell keeps_write_cell keeps_Math_random
  keeps_bump : keeps.

Ltac keeps_steps :=
  repeat first
    [ apply keeps_bind; [ | intros ? ]
    | match goal with |- keeps (if ?c then _ else _) => destruct c end
    | solve [ auto with keeps ] ].

Lemma keeps_loop_body (rand : nat → Q) (a : agent) (b : list agent) :
  keeps (loop_body rand a b).
Proof. destruct a as [[x y] ty]. unfold loop_body. keeps_steps. Qed.

Lemma keeps_filter_loop (x2 y2 ty : Z) (fs : list nat) (b : list agent) :
  keeps (filter_loop x2 y2 ty fs b).
Proof.
  revert b. induction fs as [|f fs IH]; intros b; cbn [filter_loop];
    keeps_steps.
Qed.
#[local] Hint Resolve keeps_filter_loop : keeps.

Lemma keeps_loop_body2 (rand : nat → Q) (a : agent) (b : list agent) :
  keeps (loop_body2 rand a b).
Proof. destruct a as [[x y] ty]. unfold loop_body2. keeps_steps. Qed.

Lemma keeps_for_of (body : agent → list agent → M (list agent))
  (l : list agent) (b : list agent) :
  (∀ a b, keeps (body a b)) → keeps (for_of body l b).
Proof.
  intros Hb. revert b. induction l as [|a l IH]; intros b; cbn [for_of];
    keeps_steps.
Qed.

(** ** The canvas *)

Lemma paint_cells_state (r : Z) (cs : list Z) (s : State) :
  (paint_cells r cs s).2 = s.
Proof.
  induction cs as [|c cs IH]; [done |].
  cbn [paint_cells]. unfold bind, read_cell.
  by destruct (world s !! r).
Qed.

Lemma paint_rows_state (col : Z) (rs : list Z) (s : State) :
  (paint_rows col rs s).2 = s.
Proof.
  induction rs as [|r rs IH]; [done |].
  cbn [paint_rows]. unfold bind.
  pose proof (paint_cells_state r (seqZ 0 col) s) as Hc.
  destruct (paint_cells r (seqZ 0 col) s) as [[[]|] s1]; cbn in Hc; by subst.
Qed.

(** The canvas is drawn from the state and changes nothing of it. *)
Lemma drawMatrixOnCanvas_state (s : State) : (drawMatrixOnCanvas s).2 = s.
Proof.
  unfold drawMatrixOnCanvas, bind, gets, throw.
  destruct (world s !! 0); [apply paint_rows_state | done].
Qed.

Lemma paint_cells_ok (r : Z) (cs : list Z) (s : State) :
  is_Some (world s !! r) → (paint_cells r cs s).1 = Normal tt.
Proof.
  intros [row Hr]. induction cs as [|c cs IH]; [done |].
  cbn [paint_cells]. unfold bind, read_cell. by rewrite Hr.
Qed.

Lemma paint_rows_ok (col : Z) (rs : list Z) (s : State) :
  (∀ r, r ∈ rs → is_Some (world s !! r)) →
  (paint_rows col rs s).1 = Normal tt.
Proof.
  induction rs as [|r rs IH]; intros Hrs; [done |].
  cbn [paint_rows]. unfold bind.
  pose proof (paint_cells_state r (seqZ 0 col) s) as Hc.
  pose proof (paint_cells_ok r (seqZ 0 col) s (Hrs r ltac:(by left))) as Ho.
  destruct (paint_cells r (seqZ 0 col) s) as [[[]|] s1]; [| done].
  cbn in Hc. subst s1. apply IH. intros r' Hr'. apply Hrs. by right.
Qed.

(** With every row below [world.length] in place, and one at least, the
    canvas is drawn without an exception. *)
Lemma drawMatrixOnCanvas_ok (s : State) :
  0 < world_length s →
  (∀ r, 0 ≤ r < world_length s → is_Some (world s !! r)) →
  (drawMatrixOnCanvas s).1 = Normal tt.
Proof.
  intros Hpos Hrows. unfold drawMatrixOnCanvas, bind, gets, throw.
  destruct (Hrows 0 ltac:(lia)) as [r0 ->].
  apply paint_rows_ok. intros r Hr%elem_of_seqZ. apply Hrows. lia.
Qed.

Lemma keeps_drawMatrixOnCanvas : keeps drawMatrixOnCanvas.
Proof. intros s. rewrite drawMatrixOnCanvas_state. apply frame_refl. Qed.

(** The step functions, flattened: the loop, the registry, the canvas, the
    tick. *)
Lemma simulate_eq (rand : nat → Q) (s : State) :
  simulate rand s
  = match for_of (loop_body rand) (agents s) [] s with
    | (Normal b, s1) =>
        match (drawMatrixOnCanvas (set_agents b s1)).1 with
        | Normal _ => (Normal tt, set_t (t s1 + 1) (set_agents b s1))
        | Throw => (Throw, set_agents b s1)
        end
    | (Throw, s1) => (Throw, s1)
    end.
Proof.
  unfold simulate, bind, gets, modify.
  destruct (for_of _ _ _ s) as [[b|] s1]; [| done].
  pose proof (drawMatrixOnCanvas_state (set_agents b s1)) as Hc.
  destruct (drawMatrixOnCanvas (set_agents b s1)) as [[[]|] s2];
    cbn in Hc; by subst.
Qed.

Lemma simulate2_eq (rand : nat → Q) (s : State) :
  simulate2 rand s
  = match for_of (loop_body2 rand) (agents s) [] s with
    | (Normal b, s1) =>
        match (drawMatrixOnCanvas (set_agents b s1)).1 with
        | Normal _ => (Normal tt, set_t (t s1 + 1) (set_agents b s1))
        | Throw => (Throw, set_agents b s1)
        end
    | (Throw, s1) => (Throw, s1)
    end.
Proof.
  unfold simulate2, bind, gets, modify.
  destruct (for_of _ _ _ s) as [[b|] s1]; [| done].
  pose proof (drawMatrixOnCanvas_state (set_agents b s1)) as Hc.
  destruct (drawMatrixOnCanvas (set_agents b s1)) as [[[]|] s2];
    cbn in Hc; by subst.
Qed.

Lemma simulate_v0_2_eq (rand : nat → Q) (s : State) :
  simulate_v0_2 rand s
  = match for_of (loop_body rand) (agents s) [] s with
    | (Normal b, s1) =>
        match (drawMatrixOnCanvas (set_agents b s1)).1 with
        | Normal _ =>
            (Normal tt,
             set_t (t s1 + 1)
               (if match tend s1 with
                   | Some e => bool_decide (e ≤ t s1)
                   | None => false
                   end
                then set_timer false (set_agents b s1)
                else set_agents b s1))
        | Throw => (Throw, set_agents b s1)
        end
    | (Throw, s1) => (Throw, s1)
    end.
Proof.
  unfold simulate_v0_2, bind, gets, modify, ret.
  destruct (for_of _ _ _ s) as [[b|] s1]; [| done].
  pose proof (drawMatrixOnCanvas_state (set_agents b s1)) as Hc.
  destruct (drawMatrixOnCanvas (set_agents b s1)) as [[[]|] s2];
    cbn in Hc; subst; [| done].
  cbn [tend t set_agents].
  by destruct (match tend s1 with Some _ => _ | None => _ end).
Qed.

(** ** Grid access *)

Lemma setCell_row (w : gmap Z (gmap Z Z)) (x y : Z) (v : option Z) (y' : Z) :
  is_Some (setCell w x y v !! y') ↔ is_Some (w !! y').
Proof.
  unfold setCell. destruct (w !! y) as [row|] eqn:E; [| done].
  destruct (decide (y = y')) as [<-|Hne].
  - rewrite lookup_insert_eq, E. split; eauto.
  - by rewrite lookup_insert_ne.
Qed.

Lemma getCell_setCell (w : gmap Z (gmap Z Z)) (x y : Z) (v : option Z)
  (x' y' : Z) :
  is_Some (w !! y) →
  getCell (setCell w x y v) x' y'
  = if decide (x = x' ∧ y = y') then v else getCell w x' y'.
Proof.
  intros [row E]. unfold getCell, setCell. rewrite E.
  destruct (decide (y = y')) as [<-|Hy].
  - rewrite lookup_insert_eq.
    destruct (decide (x = x')) as [<-|Hx].
    + rewrite decide_True by done.
      destruct v; [apply lookup_insert_eq | apply lookup_delete_eq].
    + rewrite decide_False by (intros [? ?]; done). rewrite E.
      destruct v; [by apply lookup_insert_ne | by apply lookup_delete_ne].
  - rewrite lookup_insert_ne by done.
    by rewrite decide_False by (intros [? ?]; done).
Qed.

Lemma getCell_Some_row (w : gmap Z (gmap Z Z)) (x y v : Z) :
  getCell w x y = Some v → is_Some (w !! y).
Proof. unfold getCell. destruct (w !! y); [eauto | discriminate]. Qed.

(** ** The loop bodies, flattened *)

Lemma loop_body_eq (rand : nat → Q) (x y ty : Z) (b : list agent) (s : State) :
  loop_body rand (x, y, ty) b s =
  let s1 := set_rnd (S (rnd s)) s in
  match generateDirection (mpm s !! ty) (rand (rnd s)) with
  | Normal (Some (dx, dy)) =>
      match world s !! (y + dy) with
      | Some _ =>
          if is_zero (getCell (world s) (x + dx) (y + dy)) then
            match world s !! y with
            | Some _ =>
                (Normal (b ++ [(x + dx, y + dy, ty)]),
                 set_world
                   (setCell
                      (setCell (world s) (x + dx) (y + dy)
                               (getCell (world s) x y))
                      x y (getCell (world s) (x + dx) (y + dy)))
                   (grow x y (grow (x + dx) (y + dy) s1)))
            | None => (Throw, s1)
            end
          else (Normal (b ++ [(x, y, ty)]), s1)
      | None => (Throw, s1)
      end
  | _ => (Throw, s1)
  end.
Proof.
  unfold loop_body, bind, gets, Math_random, lift, destructure, ret, throw.
  cbn zeta.
  destruct (generateDirection (mpm s !! ty) (rand (rnd s))) as [[[dx dy]|]|];
    try reflexivity.
  cbn [fst snd]. unfold read_cell, write_cell, getCell. cbn [world set_rnd grow
       set_row0_length].
  destruct (world s !! (y + dy)) as [row2|] eqn:E2; [| reflexivity].
  destruct (is_zero (row2 !! (x + dx))); [| reflexivity].
  cbn [world set_rnd grow
       set_row0_length].
  destruct (world s !! y) as [row|] eqn:E; [| reflexivity].
  cbn [world set_rnd grow
       set_row0_length]. rewrite E2. cbn [world set_world set_rnd grow
       set_row0_length]. rewrite E2.
  cbn [world set_world set_rnd grow
       set_row0_length].
  destruct (setCell_row (world s) (x + dx) (y + dy) (row !! x) y) as [_ H].
  destruct H as [row' E']; [eauto |]. rewrite E'. reflexivity.
Qed.

Lemma loop_body2_eq (rand : nat → Q) (x y ty : Z) (b : list agent) (s : State) :
  loop_body2 rand (x, y, ty) b s =
  let s1 := set_rnd (S (rnd s)) s in
  match generateDirection (mpm s !! ty) (rand (rnd s)) with
  | Normal (Some (dx, dy)) =>
      match world s !! (y + dy) with
      | Some _ =>
          if is_zero (getCell (world s) (x + dx) (y + dy)) then
            match world s !! y with
            | Some _ =>
                filter_loop (x + dx) (y + dy) ty
                  (seq 0 (length (filterPost s)))
                  (b ++ [(x + dx, y + dy, ty)])
                  (set_world
                     (setCell
                        (setCell (world s) (x + dx) (y + dy)
                                 (getCell (world s) x y))
                        x y (getCell (world s) (x + dx) (y + dy)))
                   (grow x y (grow (x + dx) (y + dy) s1)))
            | None => (Throw, s1)
            end
          else (Normal (b ++ [(x, y, ty)]), s1)
      | None => (Throw, s1)
      end
  | _ => (Throw, s1)
  end.
Proof.
  unfold loop_body2, bind, gets, Math_random, lift, destructure, ret, throw.
  cbn zeta.
  destruct (generateDirection (mpm s !! ty) (rand (rnd s))) as [[[dx dy]|]|];
    try reflexivity.
  cbn [fst snd]. unfold read_cell, write_cell, getCell. cbn [world set_rnd grow
       set_row0_length].
  destruct (world s !! (y + dy)) as [row2|] eqn:E2; [| reflexivity].
  destruct (is_zero (row2 !! (x + dx))); [| reflexivity].
  cbn [world set_rnd grow
       set_row0_length].
  destruct (world s !! y) as [row|] eqn:E; [| reflexivity].
  cbn [world set_rnd grow
       set_row0_length]. rewrite E2. cbn [world set_world set_rnd grow
       set_row0_length]. rewrite E2.
  cbn [world set_world set_rnd grow
       set_row0_length].
  destruct (setCell_row (world s) (x + dx) (y + dy) (row !! x) y) as [_ H].
  destruct H as [row' E']; [eauto |]. rewrite E'. reflexivity.
Qed.

(** The caller destructures the sampler's result: [undefined] there is a
    [TypeError], raised after the draw has been consumed. *)
Lemma loop_body_undefined (rand : nat → Q) (x y ty : Z) (b : list agent)
  (s : State) :
  generateDirection (mpm s !! ty) (rand (rnd s)) = Normal None →
  loop_body rand (x, y, ty) b s = (Throw, set_rnd (S (rnd s)) s).
Proof. intros H. by rewrite loop_body_eq, H. Qed.

(** ** Mass conservation *)

Lemma loop_body_length (rand : nat → Q) (a : agent) (b b' : list agent)
  (s s' : State) :
  loop_body rand a b s = (Normal b', s') → length b' = S (length b).
Proof.
  destruct a as [[x y] ty]. rewrite loop_body_eq. cbn zeta.
  destruct (generateDirection _ _) as [[[dx dy]|]|]; try discriminate.
  destruct (world s !! (y + dy)); [| discriminate].
  destruct (is_zero _).
  - destruct (world s !! y); [| discriminate].
    intros [= <- _]. rewrite length_app. simpl. lia.
  - intros [= <- _]. rewrite length_app. simpl. lia.
Qed.

Lemma for_of_loop_body_length (rand : nat → Q) (l b b' : list agent)
  (s s' : State) :
  for_of (loop_body rand) l b s = (Normal b', s') →
  length b' = (length b + length l)%nat.
Proof.
  revert b s. induction l as [|a l IH]; intros b s; cbn [for_of].
  - intros [= <- _]. simpl. lia.
  - unfold bind. destruct (loop_body rand a b s) as [[b1|] s1] eqn:E;
      [| discriminate].
    intros H. apply IH in H. apply loop_body_length in E. simpl. lia.
Qed.

Lemma simulate_length (rand : nat → Q) (s : State) :
  length (agents (simulate rand s).2) = length (agents s).
Proof.
  rewrite simulate_eq.
  pose proof (keeps_for_of (loop_body rand) (agents s) []
                (keeps_loop_body rand) s) as Hk.
  destruct (for_of (loop_body rand) (agents s) [] s) as [[b|] s1] eqn:E.
  - apply for_of_loop_body_length in E.
    by destruct (drawMatrixOnCanvas _).1.
  - cbn in *. by destruct Hk as [-> _].
Qed.

Lemma simulate_v0_2_length (rand : nat → Q) (s : State) :
  length (agents (simulate_v0_2 rand s).2) = length (agents s).
Proof.
  rewrite simulate_v0_2_eq.
  pose proof (keeps_for_of (loop_body rand) (agents s) []
                (keeps_loop_body rand) s) as Hk.
  destruct (for_of (loop_body rand) (agents s) [] s) as [[b|] s1] eqn:E.
  - apply for_of_loop_body_length in E.
    destruct (drawMatrixOnCanvas _).1; [| done].
    destruct (match tend _ with Some _ => _ | None => _ end); cbn; exact E.
  - cbn in *. by destruct Hk as [-> _].
Qed.

(** C7: without the filter engine, any sequence of step calls (whether they
    complete or throw) leaves the number of registry entries as it was. *)
Theorem mass_conservation (rand : nat → Q) (es : list engine) (s : State) :
  Simulate2 ∉ es →
  length (agents (run rand es s)) = length (agents s).
Proof.
  revert s. induction es as [|e es IH]; intros s Hes; [reflexivity |].
  cbn [run]. rewrite IH by (intros ?; apply Hes; by right).
  destruct e; cbn [call].
  - apply simulate_length.
  - exfalso. apply Hes. by left.
  - apply simulate_v0_2_length.
Qed.

(** ** Independence from the draws *)

Lemma loop_body_agree (rand rand' : nat → Q) (a : agent) (b : list agent)
  (s : State) :
  agree rand rand' (mpm s) → loop_body rand a b s = loop_body rand' a b s.
Proof.
  intros H. destruct a as [[x y] ty]. rewrite !loop_body_eq. cbn zeta.
  by rewrite (H (rnd s) ty).
Qed.

Lemma loop_body2_agree (rand rand' : nat → Q) (a : agent) (b : list agent)
  (s : State) :
  agree rand rand' (mpm s) → loop_body2 rand a b s = loop_body2 rand' a b s.
Proof.
  intros H. destruct a as [[x y] ty]. rewrite !loop_body2_eq. cbn zeta.
  by rewrite (H (rnd s) ty).
Qed.

Lemma for_of_agree (rand rand' : nat → Q)
  (body body' : agent → list agent → M (list agent)) (l b : list agent)
  (s : State) :
  (∀ a b s, agree rand rand' (mpm s) → body a b s = body' a b s) →
  (∀ a b, keeps (body a b)) →
  agree rand rand' (mpm s) →
  for_of body l b s = for_of body' l b s.
Proof.
  intros Hb Hk. revert b s. induction l as [|a l IH]; intros b s Hs;
    [reflexivity |].
  cbn [for_of]. unfold bind. rewrite <- (Hb a b s Hs).
  pose proof (Hk a b s) as Hf.
  destruct (body a b s) as [[b1|] s1]; [| reflexivity].
  apply IH. destruct Hf as (_ & Hm & _). cbn in Hm. by rewrite Hm.
Qed.

Lemma call_agree (rand rand' : nat → Q) (e : engine) (s : State) :
  agree rand rand' (mpm s) → call rand e s = call rand' e s.
Proof.
  intros H. destruct e; cbn [call];
    unfold simulate, simulate2, simulate_v0_2, bind, gets.
  - by rewrite (for_of_agree rand rand' _ (loop_body rand') _ _ _
                  (loop_body_agree rand rand') (keeps_loop_body rand) H).
  - by rewrite (for_of_agree rand rand' _ (loop_body2 rand') _ _ _
                  (loop_body2_agree rand rand') (keeps_loop_body2 rand) H).
  - by rewrite (for_of_agree rand rand' _ (loop_body rand') _ _ _
                  (loop_body_agree rand rand') (keeps_loop_body rand) H).
Qed.

Lemma call_mpm (rand : nat → Q) (e : engine) (s : State) :
  mpm (call rand e s).2 = mpm s.
Proof.
  destruct e; cbn [call];
    rewrite ?simulate_eq, ?simulate2_eq, ?simulate_v0_2_eq.
  - pose proof (keeps_for_of (loop_body rand) (agents s) []
                  (keeps_loop_body rand) s) as (_ & Hk & _).
    destruct (for_of _ _ _ s) as [[b|] s1]; [| done].
    by destruct (drawMatrixOnCanvas _).1.
  - pose proof (keeps_for_of (loop_body2 rand) (agents s) []
                  (keeps_loop_body2 rand) s) as (_ & Hk & _).
    destruct (for_of _ _ _ s) as [[b|] s1]; [| done].
    by destruct (drawMatrixOnCanvas _).1.
  - pose proof (keeps_for_of (loop_body rand) (agents s) []
                  (keeps_loop_body rand) s) as (_ & Hk & _).
    destruct (for_of _ _ _ s) as [[b|] s1]; [| done].
    destruct (drawMatrixOnCanvas _).1; [| done].
    by destruct (match tend _ with Some _ => _ | None => _ end).
Qed.

Lemma run_agree (rand rand' : nat → Q) (es : list engine) (s : State) :
  agree rand rand' (mpm s) → run rand es s = run rand' es s.
Proof.
  revert s. induction es as [|e es IH]; intros s H; [reflexivity |].
  cbn [run]. rewrite <- (call_agree rand rand' e s H).
  apply IH. by rewrite call_mpm.
Qed.

Lemma agree_deterministic (rand rand' : nat → Q) (p : gmap Z matrix) :
  unit_draws rand → unit_draws rand' →
  map_Forall (λ _ m, deterministic m) p →
  agree rand rand' p.
Proof.
  intros Hr Hr' Hp n ty. destruct (p !! ty) as [m|] eqn:E; [| reflexivity].
  apply (Hp ty m E); by first [apply Hr | apply Hr'].
Qed.

Lemma right_matrix_draw (u : Q) :
  (0 <= u)%Q → (u < 1)%Q →
  generateDirection (Some right_matrix) u = Normal (Some (1, 0)).
Proof.
  intros H0 H1. unfold generateDirection, right_matrix.
  cbn [lookup list_lookup length seq scan_rows scan_cols default
       from_option id].
  repeat (rewrite (acc_add_zero (Num 0)) by exact is_double_0;
          rewrite (acc_gt_zero u) by done).
  rewrite acc_add_one, acc_gt_one by done. reflexivity.
Qed.

Lemma right_matrix_deterministic : deterministic right_matrix.
Proof. intros u u' ????. by rewrite !right_matrix_draw. Qed.

(** ** The end-to-end scenario *)

Lemma scenario_agree (rand : nat → Q) :
  unit_draws rand → agree rand half (mpm scenario).
Proof.
  intros Hr. apply agree_deterministic; [exact Hr | |].
  - intros n. unfold half. split; lra.
  - apply map_Forall_singleton. exact right_matrix_deterministic.
Qed.

(** C2, as the code has it: on the 5 by 5 grid bordered by wall code 10 the
    cells are indexed 0 to 4, so [(4,2)] is the border wall.  The agent of type
    48 at [(2,2)] moves to [(3,2)] in the first step, leaving [0] behind, and
    stays at [(3,2)] in the second and the third step. *)
Theorem scenario_trajectory (rand : nat → Q) :
  unit_draws rand →
  let s1 := run rand [Simulate] scenario in
  let s2 := run rand [Simulate; Simulate] scenario in
  let s3 := run rand [Simulate; Simulate; Simulate] scenario in
  agents s1 = [(3, 2, 48)] ∧
  getCell (world s1) 2 2 = Some 0 ∧
  getCell (world s1) 3 2 = Some 48 ∧
  getCell (world s1) 4 2 = Some 10 ∧
  agents s2 = [(3, 2, 48)] ∧
  agents s3 = [(3, 2, 48)].
Proof.
  intros Hr. cbn zeta.
  pose proof (λ es, run_agree rand half es scenario (scenario_agree rand Hr))
    as E.
  rewrite (E [Simulate]), (E [Simulate; Simulate]),
    (E [Simulate; Simulate; Simulate]).
  vm_compute. done.
Qed.

Lemma scenario_trajectory_witness :
  agents (run half [Simulate] scenario) = [(3, 2, 48)] ∧
  getCell (world (run half [Simulate] scenario)) 2 2 = Some 0 ∧
  getCell (world (run half [Simulate] scenario)) 3 2 = Some 48 ∧
  getCell (world (run half [Simulate] scenario)) 4 2 = Some 10 ∧
  agents (run half [Simulate; Simulate] scenario) = [(3, 2, 48)] ∧
  agents (run half [Simulate; Simulate; Simulate] scenario) = [(3, 2, 48)].
Proof.
  apply (scenario_trajectory half).
  intros n. unfold half. split; lra.
Defined.

(** C2 as stated fails: both calls complete, and after the second one the
    agent is not at [(4,2)], which still holds the wall code; [(5,2)] is not
    a cell of the grid. *)
Lemma scenario_second_step_blocked :
  (call half Simulate scenario).1 = Normal tt ∧
  (call half Simulate (run half [Simulate] scenario)).1 = Normal tt ∧
  agents (run half [Simulate; Simulate] scenario) ≠ [(4, 2, 48)] ∧
  getCell (world (run half [Simulate; Simulate] scenario)) 4 2 = Some 10 ∧
  getCell (world scenario) 5 2 = None.
Proof. vm_compute. repeat split; discriminate. Qed.

(** On a grid six cells wide, where [(5,2)] is the border, the agent
    does reach [(4,2)] in two steps and stays there in the third. *)
Example scenario_six_wide :
  let s := init (bordered 6 5 10) [(2, 2, 48)] {[ 48 := right_matrix ]} in
  agents (run half [Simulate; Simulate] s) = [(4, 2, 48)] ∧
  agents (run half [Simulate; Simulate; Simulate] s) = [(4, 2, 48)] ∧
  getCell (world s) 5 2 = Some 10.
Proof. vm_compute. done. Qed.

(** ** Sequential update within a tick *)

(** C8: in [convoy] the second agent of the registry stands behind the first;
    its destination cell is occupied when the step starts, and yet the step
    moves it there, because the first agent has left the cell earlier in the
    same call.  With the registry reversed the same agent is blocked. *)
Theorem sequential_update :
  ∃ (s : State) (rand : nat → Q),
    agents s = [(2, 1, 48); (1, 1, 48)] ∧
    getCell (world s) 2 1 = Some 48 ∧
    (simulate rand s).1 = Normal tt ∧
    agents (simulate rand s).2 = [(3, 1, 48); (2, 1, 48)] ∧
    getCell (world (simulate rand s).2) 2 1 = Some 48 ∧
    getCell (world (simulate rand s).2) 1 1 = Some 0 ∧
    agents (simulate rand convoy_reversed).2 = [(1, 1, 48); (3, 1, 48)].
Proof. exists convoy, half. vm_compute. done. Qed.

(** ** Blocked moves *)

(** C6: an agent whose sampled destination holds a nonzero value is appended
    to the next registry at its own position, and the state after its turn is
    the state before it but for the consumed draw: the grid, and with it the
    destination cell, is untouched. *)
Theorem blocked_agent_stays (rand : nat → Q) (x y ty : Z) (b : list agent)
  (s : State) (dx dy v : Z) :
  generateDirection (mpm s !! ty) (rand (rnd s)) = Normal (Some (dx, dy)) →
  getCell (world s) (x + dx) (y + dy) = Some v →
  v ≠ 0 →
  loop_body rand (x, y, ty) b s
  = (Normal (b ++ [(x, y, ty)]), set_rnd (S (rnd s)) s) ∧
  world (loop_body rand (x, y, ty) b s).2 = world s ∧
  getCell (world (loop_body rand (x, y, ty) b s).2) (x + dx) (y + dy) = Some v.
Proof.
  intros Hgen Hdest Hv.
  assert (loop_body rand (x, y, ty) b s
          = (Normal (b ++ [(x, y, ty)]), set_rnd (S (rnd s)) s)) as ->.
  { rewrite loop_body_eq, Hgen. cbn zeta.
    destruct (getCell_Some_row _ _ _ _ Hdest) as [row ->].
    rewrite Hdest. cbn [is_zero]. by rewrite bool_decide_eq_false_2. }
  done.
Qed.

Lemma blocked_agent_stays_witness :
  loop_body half (3, 2, 48) [] (run half [Simulate] scenario)
  = (Normal ([] ++ [(3, 2, 48)]),
     set_rnd (S (rnd (run half [Simulate] scenario)))
             (run half [Simulate] scenario)) ∧
  world (loop_body half (3, 2, 48) [] (run half [Simulate] scenario)).2
  = world (run half [Simulate] scenario) ∧
  getCell (world (loop_body half (3, 2, 48) []
                    (run half [Simulate] scenario)).2) (3 + 1) (2 + 0)
  = Some 10.
Proof.
  apply (blocked_agent_stays half 3 2 48 [] (run half [Simulate] scenario)
           1 0 10).
  - vm_compute. reflexivity.
  - vm_compute. reflexivity.
  - discriminate.
Defined.

Lemma loop_body2_blocked (rand : nat → Q) (x y ty : Z) (b : list agent)
  (s : State) (dx dy : Z) :
  generateDirection (mpm s !! ty) (rand (rnd s)) = Normal (Some (dx, dy)) →
  is_Some (world s !! (y + dy)) →
  is_zero (getCell (world s) (x + dx) (y + dy)) = false →
  loop_body2 rand (x, y, ty) b s
  = (Normal (b ++ [(x, y, ty)]), set_rnd (S (rnd s)) s).
Proof.
  intros Hgen [row Hrow] Hz. rewrite loop_body2_eq, Hgen. cbn zeta.
  by rewrite Hrow, Hz.
Qed.

(** ** The filter loop *)

Lemma bump_lookup_eq (f : nat) (cs : list counter) (c : counter) :
  cs !! f = Some c → bump f cs !! f = Some (incr c).
Proof.
  intros H. unfold bump. pose proof (lookup_lt_Some _ _ _ H).
  rewrite decide_True by done. by rewrite list_lookup_alter_eq, H.
Qed.

Lemma bump_lookup_ne (f g : nat) (cs : list counter) (c : counter) :
  f ≠ g → cs !! g = Some c → bump f cs !! g = Some c.
Proof.
  intros Hne H. unfold bump. destruct (decide (f < length cs)%nat).
  - by rewrite list_lookup_alter_ne.
  - by apply lookup_app_l_Some.
Qed.

Lemma filter_loop_unique (x2 y2 ty : Z) (f : nat) (fs : list nat)
  (b : list agent) (s : State) :
  NoDup fs →
  filterPost s !! f = Some x2 →
  (∀ g, g ∈ fs → g ≠ f → filterPost s !! g ≠ Some x2) →
  is_Some (world s !! y2) →
  filter_loop x2 y2 ty fs b s =
  if decide (f ∈ fs) then
    let s1 := set_filterCount (bump f (filterCount s)) s in
    if bool_decide (filterType s !! f = Some ty) then
      (Normal (pop b),
       set_world (setCell (world s) x2 y2 (Some 0)) (grow x2 y2 s1))
    else (Normal b, s1)
  else (Normal b, s).
Proof.
  revert b s. induction fs as [|g fs IH]; intros b s Hnd Hf Hother Hrow.
  { by rewrite decide_False by set_solver. }
  apply NoDup_cons in Hnd as [Hg Hnd].
  cbn [filter_loop]. unfold bind, gets, modify. cbn zeta.
  destruct (decide (g = f)) as [->|Hne].
  - rewrite Hf, bool_decide_eq_true_2 by done.
    rewrite decide_True by set_solver. cbn [filterType set_filterCount].
    destruct (bool_decide (filterType s !! f = Some ty)).
    + unfold write_cell. cbn [world set_filterCount].
      destruct Hrow as [row Hrow]. rewrite Hrow.
      rewrite IH; cbn [filterPost set_world set_filterCount world grow
       set_row0_length];
        [ by rewrite decide_False by done | done | done
        | intros g' Hg' _; apply Hother; set_solver
        | apply setCell_row; eauto ].
    + rewrite IH; cbn [filterPost set_world set_filterCount world grow
       set_row0_length];
        [ by rewrite decide_False by done | done | done
        | intros g' Hg' _; apply Hother; set_solver
        | done ].
  - rewrite bool_decide_eq_false_2 by (apply Hother; set_solver).
    rewrite IH; [| done | done | intros; apply Hother; set_solver | done].
    destruct (decide (f ∈ fs)).
    + by rewrite decide_True by set_solver.
    + by rewrite decide_False by set_solver.
Qed.

Lemma filter_loop_count (x2 y2 ty : Z) (f : nat) (c : Z) (fs : list nat)
  (b : list agent) (s : State) :
  NoDup fs →
  is_Some (world s !! y2) →
  filterCount s !! f = Some (Count c) →
  ∃ b' s',
    filter_loop x2 y2 ty fs b s = (Normal b', s') ∧
    filterCount s' !! f
    = Some (Count (if bool_decide (f ∈ fs ∧ filterPost s !! f = Some x2)
                   then c + 1 else c)).
Proof.
  revert b s c. induction fs as [|g fs IH]; intros b s c Hnd Hrow Hc.
  { exists b, s. split; [done |].
    by rewrite bool_decide_eq_false_2 by set_solver. }
  apply NoDup_cons in Hnd as [Hg Hnd].
  cbn [filter_loop]. unfold bind, gets, modify. cbn zeta.
  destruct (bool_decide (filterPost s !! g = Some x2)) eqn:Eg.
  - apply bool_decide_eq_true_1 in Eg.
    cbn [filterType set_filterCount].
    set (s1 := set_filterCount (bump g (filterCount s)) s).
    assert (∃ c1, filterCount s1 !! f = Some (Count c1) ∧
                  c1 = if decide (g = f) then c + 1 else c) as (c1 & Hc1 & Ec1).
    { destruct (decide (g = f)) as [->|Hne]; eexists; (split; [| done]).
      - subst s1. cbn [filterCount set_filterCount].
        by rewrite (bump_lookup_eq _ _ _ Hc).
      - subst s1. cbn [filterCount set_filterCount].
        by apply bump_lookup_ne. }
    assert (∀ s2, filterCount s2 = filterCount s1 →
                  filterPost s2 = filterPost s →
                  is_Some (world s2 !! y2) →
                  ∀ b2, ∃ b' s',
                    filter_loop x2 y2 ty fs b2 s2 = (Normal b', s') ∧
                    filterCount s' !! f
                    = Some (Count (if bool_decide
                                        (f ∈ g :: fs ∧
                                         filterPost s !! f = Some x2)
                                   then c + 1 else c))) as Hrest.
    { intros s2 Hcnt Hpost Hrow2 b2.
      destruct (IH b2 s2 c1 Hnd Hrow2) as (b' & s' & -> & Hc').
      { by rewrite Hcnt. }
      exists b', s'. split; [done |]. rewrite Hc', Hpost. do 2 f_equal.
      destruct (decide (g = f)) as [->|Hne].
      - rewrite bool_decide_eq_false_2 by (intros [? _]; done).
        by rewrite bool_decide_eq_true_2 by (split; [set_solver | done]).
      - subst c1.
        rewrite (bool_decide_ext (f ∈ fs ∧ filterPost s !! f = Some x2)
                   (f ∈ g :: fs ∧ filterPost s !! f = Some x2)); [done |].
        set_solver. }
    destruct (bool_decide (filterType s !! g = Some ty)).
    + unfold write_cell. destruct Hrow as [row Hrow].
      subst s1. cbn [world set_filterCount]. rewrite Hrow.
      apply Hrest; [done | done |].
      cbn [world set_world grow
       set_row0_length]. apply setCell_row. eauto.
    + apply Hrest; done.
  - apply bool_decide_eq_false_1 in Eg.
    destruct (IH b s c Hnd Hrow Hc) as (b' & s' & -> & Hc').
    exists b', s'. split; [done |]. rewrite Hc'. do 2 f_equal.
    rewrite (bool_decide_ext (f ∈ fs ∧ filterPost s !! f = Some x2)
               (f ∈ g :: fs ∧ filterPost s !! f = Some x2)); [done |].
    split; [set_solver |].
    intros [Hin Hp]. split; [| done].
    apply elem_of_cons in Hin as [->|]; done.
Qed.

(** ** Filters *)

(** The filters the page defines stand on pairwise distinct columns. *)
Lemma addFilters_distinct (s : State) : NoDup (filterPost (addFilters s)).
Proof. cbn. apply (bool_decide_unpack _). vm_compute. exact I. Qed.

(** C4: with filter positions pairwise distinct, an agent that occupies its
    cell and moves onto the column of filter [f] bumps counter [f] by one;
    when its type is the filter's, its record is not in the next registry and
    the destination cell is [0] again; otherwise its record is appended and
    the destination cell holds its type. *)
Theorem filter_crossing (rand : nat → Q) (x y ty : Z) (b : list agent)
  (s : State) (dx dy : Z) (f : nat) (ft c : Z) :
  generateDirection (mpm s !! ty) (rand (rnd s)) = Normal (Some (dx, dy)) →
  getCell (world s) (x + dx) (y + dy) = Some 0 →
  getCell (world s) x y = Some ty →
  NoDup (filterPost s) →
  filterPost s !! f = Some (x + dx) →
  filterType s !! f = Some ft →
  filterCount s !! f = Some (Count c) →
  let r := loop_body2 rand (x, y, ty) b s in
  filterCount r.2 !! f = Some (Count (c + 1)) ∧
  (ty = ft →
   r.1 = Normal b ∧ getCell (world r.2) (x + dx) (y + dy) = Some 0) ∧
  (ty ≠ ft →
   r.1 = Normal (b ++ [(x + dx, y + dy, ty)]) ∧
   getCell (world r.2) (x + dx) (y + dy) = Some ty).
Proof.
  intros Hgen Hdest Hown Hnd Hpos Hty Hcnt. cbn zeta.
  rewrite loop_body2_eq, Hgen. cbn zeta.
  destruct (getCell_Some_row _ _ _ _ Hdest) as [row2 Hrow2].
  destruct (getCell_Some_row _ _ _ _ Hown) as [row Hrow].
  rewrite Hrow2, Hdest, Hrow, Hown. cbn [is_zero].
  rewrite bool_decide_eq_true_2 by done.
  assert (is_Some (setCell (world s) (x + dx) (y + dy) (Some ty) !! y)) as Hr1
    by (apply setCell_row; eauto).
  assert (is_Some (setCell (setCell (world s) (x + dx) (y + dy) (Some ty))
                     x y (Some 0) !! (y + dy))) as Hr2
    by (apply setCell_row, setCell_row; eauto).
  rewrite (filter_loop_unique _ _ _ f);
    cbn [filterPost filterType filterCount world set_world set_rnd
         set_filterCount grow
       set_row0_length]; [| apply NoDup_seq | done | | done ].
  - rewrite decide_True
      by (apply elem_of_seq; apply lookup_lt_Some in Hpos; lia).
    cbn zeta. rewrite Hty.
    destruct (decide (ty = ft)) as [->|Hne].
    + rewrite bool_decide_eq_true_2 by done.
      cbn [fst snd filterCount world set_world set_filterCount set_rnd grow
       set_row0_length].
      split; [by rewrite (bump_lookup_eq _ _ _ Hcnt) |].
      split; [| done]. intros _. unfold pop. rewrite removelast_last.
      split; [done |]. rewrite getCell_setCell by done.
      by rewrite decide_True.
    + rewrite bool_decide_eq_false_2 by congruence.
      cbn [fst snd filterCount world set_world set_filterCount set_rnd grow
       set_row0_length].
      split; [by rewrite (bump_lookup_eq _ _ _ Hcnt) |].
      split; [done |]. intros _. split; [done |].
      rewrite getCell_setCell by done.
      destruct (decide (x = x + dx ∧ y = y + dy)) as [[Hx Hy]|Hxy].
      * rewrite <- Hx, <- Hy in Hdest. congruence.
      * rewrite getCell_setCell by eauto. by rewrite decide_True.
  - intros g Hg Hgf Hpg. apply Hgf.
    eapply NoDup_lookup; eauto.
Qed.

Lemma filter_crossing_witness :
  filterCount (loop_body2 half (1, 1, 48) [] (gate 48)).2 !! 0%nat
  = Some (Count (0 + 1)) ∧
  (48 = 48 →
   (loop_body2 half (1, 1, 48) [] (gate 48)).1 = Normal [] ∧
   getCell (world (loop_body2 half (1, 1, 48) [] (gate 48)).2) (1 + 1) (1 + 0)
   = Some 0) ∧
  (48 ≠ 48 →
   (loop_body2 half (1, 1, 48) [] (gate 48)).1
   = Normal ([] ++ [(1 + 1, 1 + 0, 48)]) ∧
   getCell (world (loop_body2 half (1, 1, 48) [] (gate 48)).2) (1 + 1) (1 + 0)
   = Some 48).
Proof.
  apply (filter_crossing half 1 1 48 [] (gate 48) 1 0 0%nat 48 0).
  - vm_compute. reflexivity.
  - vm_compute. reflexivity.
  - vm_compute. reflexivity.
  - apply NoDup_singleton.
  - reflexivity.
  - reflexivity.
  - reflexivity.
Defined.

(** An agent of another type passes the same filter: it is counted and kept. *)
Example gate_other_type :
  simulate2 half (gate 49)
  = (Normal tt,
     set_rnd 1 (set_t 1
       (set_filterCount [Count 1]
          (set_agents [(2, 1, 49)]
             (set_world (setCell (setCell (world (gate 49)) 2 1 (Some 49))
                                 1 1 (Some 0))
                (gate 49)))))).
Proof. vm_compute. reflexivity. Qed.

(** C10: a move that succeeds bumps the counter of every filter whose
    position is the destination column, whatever the direction: the test
    reads [x2] only, so a move along the column ([dx = 0]) counts as well. *)
Theorem filter_counts_entries (rand : nat → Q) (x y ty : Z) (b : list agent)
  (s : State) (dx dy : Z) (f : nat) (c : Z) :
  generateDirection (mpm s !! ty) (rand (rnd s)) = Normal (Some (dx, dy)) →
  getCell (world s) (x + dx) (y + dy) = Some 0 →
  is_Some (world s !! y) →
  filterPost s !! f = Some (x + dx) →
  filterCount s !! f = Some (Count c) →
  ∃ b' s', loop_body2 rand (x, y, ty) b s = (Normal b', s') ∧
           filterCount s' !! f = Some (Count (c + 1)).
Proof.
  intros Hgen Hdest [row Hrow] Hpos Hcnt.
  rewrite loop_body2_eq, Hgen. cbn zeta.
  destruct (getCell_Some_row _ _ _ _ Hdest) as [row2 Hrow2].
  rewrite Hrow2, Hdest, Hrow. cbn [is_zero].
  rewrite bool_decide_eq_true_2 by done.
  edestruct (filter_loop_count (x + dx) (y + dy) ty f c
               (seq 0 (length (filterPost s))))
    as (b' & s' & -> & Hc'); [apply NoDup_seq | | | ].
  3: { exists b', s'. split; [done |]. rewrite Hc'.
       cbn [filterPost set_world set_rnd grow
       set_row0_length].
       rewrite bool_decide_eq_true_2; [done |].
       split; [| done]. apply elem_of_seq. apply lookup_lt_Some in Hpos. lia. }
  - cbn [world set_world grow
       set_row0_length]. apply setCell_row, setCell_row. eauto.
  - exact Hcnt.
Qed.

Lemma filter_counts_entries_witness :
  ∃ b' s', loop_body2 updown (2, 2, 49) [] patrol = (Normal b', s') ∧
           filterCount s' !! 0%nat = Some (Count (0 + 1)).
Proof.
  apply (filter_counts_entries updown 2 2 49 [] patrol 0 (-1) 0%nat 0).
  - vm_compute. reflexivity.
  - vm_compute. reflexivity.
  - vm_compute. eauto.
  - reflexivity.
  - reflexivity.
Defined.

(** The agent of [patrol] goes up and comes back down the filter column:
    it never leaves [x = 2], it is kept, and the counter reads 2. *)
Example patrol_two_steps :
  agents (run updown [Simulate2] patrol) = [(2, 1, 49)] ∧
  filterCount (run updown [Simulate2] patrol) = [Count 1] ∧
  agents (run updown [Simulate2; Simulate2] patrol) = [(2, 2, 49)] ∧
  filterCount (run updown [Simulate2; Simulate2] patrol) = [Count 2].
Proof. vm_compute. done. Qed.

(** ** A type without a matrix *)







Lemma mass_conservation_witness :
  length (agents (run half [Simulate; Simulate_v0_2; Simulate] stranded))
  = length (agents stranded).
Proof.
  apply (mass_conservation half [Simulate; Simulate_v0_2; Simulate] stranded).
  intros H. repeat (apply elem_of_cons in H as [H|H]; [discriminate |]).
  by apply elem_of_nil in H.
Defined.

(** ** Well-formed configurations *)

Lemma wf_with_facts ok W H walls w reg :
  wf_with ok W H walls w reg ↔ wf_facts ok W H walls w reg.
Proof.
  unfold wf_with. split.
  - intros (Hrows & Hborder & Hwalls & Hnd & Hag & Hcells). split.
    + intros y Hy. rewrite Forall_forall in Hrows. apply Hrows.
      apply elem_of_seqZ. lia.
    + intros x y Hx Hy. rewrite Forall_forall in Hborder.
      specialize (Hborder y). rewrite Forall_forall in Hborder.
      apply Hborder; apply elem_of_seqZ; lia.
    + intros x y Hxy. destruct (Hwalls _ Hxy) as [[v Hv] Hnz].
      cbn in Hv, Hnz. exists v. split; [done | congruence].
    + done.
    + by apply Forall_forall.
    + intros x y v Hv Hnz Hxy. unfold getCell in Hv.
      destruct (w !! y) as [row|] eqn:Hrow; [| done].
      by apply (Hcells y row Hrow x v Hv).
  - intros [Hrows Hborder Hwalls Hnd Hag Hcells].
    split; [| split; [| split; [| split; [| split]]]].
    + apply Forall_forall. intros y Hy. apply elem_of_seqZ in Hy.
      apply Hrows. lia.
    + apply Forall_forall. intros y Hy. apply Forall_forall. intros x Hx.
      apply elem_of_seqZ in Hy, Hx. apply Hborder; lia.
    + intros [x y] Hxy. destruct (Hwalls x y Hxy) as (v & Hv & Hnz).
      unfold wall_ok. cbn. rewrite Hv. split; [eauto | congruence].
    + done.
    + by apply Forall_forall.
    + intros y row Hrow x v Hv Hnz Hxy. apply Hcells; [| done | done].
      unfold getCell. by rewrite Hrow.
Qed.

Lemma wf_facts_perm ok W H walls w reg reg' :
  reg ≡ₚ reg' → wf_facts ok W H walls w reg → wf_facts ok W H walls w reg'.
Proof.
  intros Hp [Hrows Hborder Hwalls Hnd Hag Hcells]. split; try done.
  - by rewrite <- Hp.
  - intros a Ha. apply Hag. by rewrite Hp.
  - intros x y v Hv Hnz Hxy. rewrite <- Hp. by apply Hcells.
Qed.

Lemma setCell_other (w : gmap Z (gmap Z Z)) (x y : Z) (v : option Z)
  (x' y' : Z) :
  (x, y) ≠ (x', y') → getCell (setCell w x y v) x' y' = getCell w x' y'.
Proof.
  intros Hne. destruct (w !! y) as [row|] eqn:E.
  - rewrite getCell_setCell by eauto.
    rewrite decide_False; [done |]. intros [-> ->]. done.
  - unfold setCell. by rewrite E.
Qed.

Lemma setCell_same (w : gmap Z (gmap Z Z)) (x y : Z) (v : option Z) :
  is_Some (w !! y) → getCell (setCell w x y v) x y = v.
Proof. intros H. rewrite getCell_setCell by done. by rewrite decide_True. Qed.

Section Moves.

Variables (W H : Z) (walls : gset (Z * Z)) (p : gmap Z matrix).

Let ok := λ w : gmap Z (gmap Z Z), agent_ok W H walls w p.

Lemma others_apart (w : gmap Z (gmap Z Z)) (a : agent) (others : list agent) :
  wf_facts ok W H walls w (a :: others) →
  ∀ a', a' ∈ others → pos a' ≠ pos a ∧ ok w a'.
Proof.
  intros [_ _ _ Hnd Hag _] a' Ha'. split.
  - cbn in Hnd. apply NoDup_cons in Hnd as [Hnotin _].
    intros E. apply Hnotin. rewrite <- E. by apply list_elem_of_fmap_2.
  - apply Hag. by right.
Qed.

(** Moving the first entry of the registry onto an empty cell. *)
Lemma wf_move_head (w : gmap Z (gmap Z Z)) (others : list agent)
  (x y ty x2 y2 : Z) :
  wf_facts ok W H walls w ((x, y, ty) :: others) →
  getCell w x2 y2 = Some 0 →
  0 ≤ x2 < W → 0 ≤ y2 < H →
  wf_facts ok W H walls
    (setCell (setCell w x2 y2 (Some ty)) x y (Some 0))
    ((x2, y2, ty) :: others).
Proof.
  intros Hwf Hdest Hx2 Hy2.
  pose proof (others_apart w _ _ Hwf) as Hothers.
  destruct Hwf as [Hrows Hborder Hwalls Hnd Hag Hcells].
  destruct (Hag (x, y, ty)) as ((Hint & Hcell & Hnw & Hm) & Hnz & Hpm);
    [by left |]. cbn in Hint, Hcell, Hnw, Hm, Hnz, Hpm.
  assert ((x, y) ≠ (x2, y2)) as Hne by (intros [= <- <-]; congruence).
  assert ((x2, y2) ∉ walls) as Hnw2.
  { intros Hw. destruct (Hwalls _ _ Hw) as (v & Hv & Hvz). congruence. }
  assert (interior W H x2 y2) as Hint2 by (by destruct (Hborder x2 y2)).
  pose proof (getCell_Some_row _ _ _ _ Hdest) as Hrow2.
  pose proof (getCell_Some_row _ _ _ _ Hcell) as Hrow.
  assert (∀ x' y',
            getCell (setCell (setCell w x2 y2 (Some ty)) x y (Some 0)) x' y'
            = if decide ((x, y) = (x', y')) then Some 0
              else if decide ((x2, y2) = (x', y')) then Some ty
                   else getCell w x' y') as Hget.
  { intros x' y'. destruct (decide ((x, y) = (x', y'))) as [[= <- <-]|].
    - apply setCell_same. by apply setCell_row.
    - rewrite setCell_other by done.
      destruct (decide ((x2, y2) = (x', y'))) as [[= <- <-]|].
      + by apply setCell_same.
      + by apply setCell_other. }
  assert (∀ a, a ∈ others → pos a ≠ (x2, y2)) as Hfree.
  { intros [[ax ay] aty] Ha [= -> ->].
    destruct (Hothers _ Ha) as (_ & (_ & Hc & _) & Hz & _). cbn in Hc, Hz.
    congruence. }
  split.
  - intros y' Hy'. by apply setCell_row, setCell_row, Hrows.
  - done.
  - intros x' y' Hw. rewrite Hget.
    rewrite decide_False by (intros [= <- <-]; done).
    rewrite decide_False by (intros [= <- <-]; done). by apply Hwalls.
  - cbn. cbn in Hnd. apply NoDup_cons in Hnd as [_ Hnd].
    apply NoDup_cons. split; [| done].
    intros Hin. apply list_elem_of_fmap in Hin as (a & Ea & Ha).
    by apply (Hfree a Ha).
  - intros a Ha. apply elem_of_cons in Ha as [->|Ha].
    + unfold ok, agent_ok, agent_placed. cbn. rewrite Hget.
      rewrite decide_False by done. rewrite decide_True by done. done.
    + destruct (Hothers a Ha) as (H1 & (Hi & Hc & Hw & Hm') & Hz & Hp).
      pose proof (Hfree a Ha) as H2.
      unfold ok, agent_ok, agent_placed. rewrite Hget.
      destruct a as [[ax ay] aty]. unfold pos in H1, H2. cbn in *.
      rewrite decide_False by congruence. rewrite decide_False by congruence.
      done.
  - intros x' y' v Hv Hvz Hw. rewrite Hget in Hv.
    destruct (decide ((x, y) = (x', y'))); [congruence |].
    destruct (decide ((x2, y2) = (x', y'))) as [[= <- <-]|].
    + injection Hv as <-. by left.
    + right. specialize (Hcells x' y' v Hv Hvz Hw).
      apply elem_of_cons in Hcells as [[= -> -> ->]|]; done.
Qed.

(** Taking the first entry out of the registry and clearing its cell. *)
Lemma wf_remove_head (w : gmap Z (gmap Z Z)) (others : list agent)
  (x y ty : Z) :
  wf_facts ok W H walls w ((x, y, ty) :: others) →
  wf_facts ok W H walls (setCell w x y (Some 0)) others.
Proof.
  intros Hwf.
  pose proof (others_apart w _ _ Hwf) as Hothers.
  destruct Hwf as [Hrows Hborder Hwalls Hnd Hag Hcells].
  destruct (Hag (x, y, ty)) as ((Hint & Hcell & Hnw & Hm) & Hnz & Hpm);
    [by left |]. cbn in Hint, Hcell, Hnw, Hm, Hnz, Hpm.
  pose proof (getCell_Some_row _ _ _ _ Hcell) as Hrow.
  split.
  - intros y' Hy'. by apply setCell_row, Hrows.
  - done.
  - intros x' y' Hw. rewrite setCell_other by (intros [= <- <-]; done).
    by apply Hwalls.
  - cbn in Hnd. by apply NoDup_cons in Hnd as [_ Hnd].
  - intros a Ha.
    destruct (Hothers a Ha) as (H1 & (Hi & Hc & Hw & Hm') & Hz & Hp).
    unfold ok, agent_ok, agent_placed.
    destruct a as [[ax ay] aty]. unfold pos in H1. cbn in *.
    rewrite setCell_other by congruence. done.
  - intros x' y' v Hv Hvz Hw.
    destruct (decide ((x, y) = (x', y'))) as [[= <- <-]|Hne].
    + rewrite setCell_same in Hv by done. congruence.
    + rewrite setCell_other in Hv by done.
      specialize (Hcells x' y' v Hv Hvz Hw).
      apply elem_of_cons in Hcells as [[= -> -> ->]|]; done.
Qed.

End Moves.

(** ** A proper matrix always yields a direction *)

Lemma proper_samples (m : matrix) (u : Q) :
  proper m → (u < 1)%Q →
  ∃ dx dy, generateDirection (Some m) u = Normal (Some (dx, dy)) ∧
           -1 ≤ dx ≤ 1 ∧ -1 ≤ dy ≤ 1.
Proof.
  intros (Hlen & Hrows & Hmass) Hu.
  pose proof (sampler_range m u) as Hrange.
  unfold generateDirection in *.
  destruct m as [|r0 m']; [discriminate |]. cbn [lookup list_lookup] in *.
  assert (length r0 = 3%nat) as Hr0 by (by inversion Hrows).
  pose proof (scan_rows_continue [] (r0 :: m') u 3 (Num 0)) as Hc.
  cbn [app] in Hc. change (length []) with 0%nat in Hc.
  rewrite Hr0 in *.
  destruct (scan_rows (r0 :: m') u 3 (seq 0 (length (r0 :: m'))) (Num 0))
    as [dx dy | y'].
  - exists dx, dy. split; [done |].
    specialize (Hrange dx dy eq_refl). cbn [default from_option id] in Hrange.
    rewrite Hr0, Hlen in Hrange. lia.
  - destruct (Hc y' Hrows eq_refl) as [-> Hgt].
    rewrite (acc_ge_gt _ 1 u Hmass Hu) in Hgt.
    exfalso. assert (true = false); [| done]. apply Hgt.
    destruct r0; [discriminate | done].
Qed.

(** ** One turn of the loop preserves the invariant *)

Section Preservation.

Variables (W H : Z) (walls : gset (Z * Z)) (rand : nat → Q).
Hypothesis draws : unit_draws rand.

Lemma loop_inv_frame (s s' : State) (reg : list agent) :
  frame s s' → world s' = world s → loop_inv W H walls s reg →
  loop_inv W H walls s' reg.
Proof.
  intros (_ & Hm & _ & Hp & _) Hw [Hwf Hnd]. unfold loop_inv.
  by rewrite Hm, Hp, Hw.
Qed.

Lemma turn_sampled (s : State) (b rest : list agent) (x y ty : Z) :
  loop_inv W H walls s (b ++ (x, y, ty) :: rest) →
  ∃ dx dy,
    generateDirection (mpm s !! ty) (rand (rnd s)) = Normal (Some (dx, dy)) ∧
    0 ≤ x + dx < W ∧ 0 ≤ y + dy < H ∧
    is_Some (world s !! (y + dy)) ∧ is_Some (world s !! y).
Proof.
  intros [[Hrows _ _ _ Hag _] _].
  destruct (Hag (x, y, ty)) as ((Hint & Hcell & _) & _ & Hpm).
  { apply elem_of_app. right. by left. }
  cbn in Hint, Hcell, Hpm. unfold has_proper_matrix in Hpm.
  destruct (mpm s !! ty) as [m|]; [| done].
  destruct (proper_samples m (rand (rnd s)) Hpm) as (dx & dy & Hgen & Hdx & Hdy).
  { apply draws. }
  destruct Hint as [Hx Hy].
  exists dx, dy. split; [done |]. split; [lia |]. split; [lia |].
  split; apply Hrows; lia.
Qed.

Lemma turn_moved (s : State) (b rest : list agent) (x y ty x2 y2 : Z) :
  loop_inv W H walls s (b ++ (x, y, ty) :: rest) →
  getCell (world s) x2 y2 = Some 0 →
  0 ≤ x2 < W → 0 ≤ y2 < H →
  wf_facts (λ w, agent_ok W H walls w (mpm s)) W H walls
    (setCell (setCell (world s) x2 y2 (getCell (world s) x y))
             x y (getCell (world s) x2 y2))
    ((x2, y2, ty) :: b ++ rest).
Proof.
  intros [Hwf _] Hdest Hx2 Hy2.
  assert (getCell (world s) x y = Some ty) as ->.
  { destruct Hwf as [_ _ _ _ Hag _].
    destruct (Hag (x, y, ty)) as ((_ & Hcell & _) & _); [| done].
    apply elem_of_app. right. by left. }
  rewrite Hdest. apply wf_move_head; [| done | done | done].
  eapply wf_facts_perm; [| exact Hwf].
  symmetry. apply Permutation_middle.
Qed.

Lemma loop_body_inv (s : State) (b rest : list agent) (a : agent) :
  loop_inv W H walls s (b ++ a :: rest) →
  ∃ b' s', loop_body rand a b s = (Normal b', s') ∧
           loop_inv W H walls s' (b' ++ rest).
Proof.
  destruct a as [[x y] ty]. intros Hinv.
  destruct (turn_sampled s b rest x y ty Hinv)
    as (dx & dy & Hgen & Hx2 & Hy2 & [row2 Hrow2] & [row Hrow]).
  rewrite loop_body_eq, Hgen. cbn zeta. rewrite Hrow2.
  destruct (is_zero (getCell (world s) (x + dx) (y + dy))) eqn:Hz.
  - rewrite Hrow. eexists _, _. split; [reflexivity |].
    assert (getCell (world s) (x + dx) (y + dy) = Some 0) as Hdest.
    { destruct (getCell (world s) (x + dx) (y + dy)) as [v|]; [| done].
      cbn in Hz. by apply bool_decide_eq_true_1 in Hz as ->. }
    pose proof (turn_moved s b rest x y ty _ _ Hinv Hdest Hx2 Hy2) as Hwf.
    split; [| apply Hinv].
    cbn [world mpm set_world set_rnd grow
       set_row0_length].
    eapply wf_facts_perm; [| exact Hwf].
    rewrite <- app_assoc. cbn [app]. apply Permutation_middle.
  - eexists _, _. split; [reflexivity |].
    rewrite <- app_assoc. cbn [app].
    eapply loop_inv_frame; [| | exact Hinv]; [by repeat split | done].
Qed.

Lemma filter_loop_none (x2 y2 ty : Z) (fs : list nat) (b : list agent)
  (s : State) :
  x2 ∉ filterPost s →
  filter_loop x2 y2 ty fs b s = (Normal b, s).
Proof.
  intros Hx. induction fs as [|f fs IH]; [reflexivity |].
  cbn [filter_loop]. unfold bind, gets. cbn zeta.
  rewrite bool_decide_eq_false_2; [exact IH |].
  intros Hf. apply Hx. by eapply list_elem_of_lookup_2.
Qed.

Lemma loop_body2_inv (s : State) (b rest : list agent) (a : agent) :
  loop_inv W H walls s (b ++ a :: rest) →
  ∃ b' s', loop_body2 rand a b s = (Normal b', s') ∧
           loop_inv W H walls s' (b' ++ rest).
Proof.
  destruct a as [[x y] ty]. intros Hinv.
  destruct (turn_sampled s b rest x y ty Hinv)
    as (dx & dy & Hgen & Hx2 & Hy2 & [row2 Hrow2] & [row Hrow]).
  rewrite loop_body2_eq, Hgen. cbn zeta. rewrite Hrow2.
  destruct (is_zero (getCell (world s) (x + dx) (y + dy))) eqn:Hz.
  - rewrite Hrow.
    assert (getCell (world s) (x + dx) (y + dy) = Some 0) as Hdest.
    { destruct (getCell (world s) (x + dx) (y + dy)) as [v|]; [| done].
      cbn in Hz. by apply bool_decide_eq_true_1 in Hz as ->. }
    pose proof (turn_moved s b rest x y ty _ _ Hinv Hdest Hx2 Hy2) as Hwf.
    destruct Hinv as [_ Hnd].
    set (w' := setCell _ x y _) in *.
    assert (is_Some (w' !! (y + dy))) as Hrow'.
    { subst w'. apply setCell_row, setCell_row. eauto. }
    destruct (decide (x + dx ∈ filterPost s)) as [Hin|Hout].
    + apply list_elem_of_lookup in Hin as [f Hf].
      rewrite (filter_loop_unique _ _ _ f);
        cbn [filterPost filterType filterCount world set_world set_rnd grow
       set_row0_length];
        [| apply NoDup_seq | done | | done ].
      2: { intros g _ Hgf Hg. apply Hgf. eapply NoDup_lookup; eauto. }
      rewrite decide_True
        by (apply elem_of_seq; apply lookup_lt_Some in Hf; lia).
      cbn zeta. destruct (bool_decide (filterType s !! f = Some ty)).
      * eexists _, _. split; [reflexivity |]. split; [| done].
        cbn [world mpm set_world set_rnd set_filterCount grow
       set_row0_length].
        unfold pop. rewrite removelast_last.
        by apply wf_remove_head in Hwf.
      * eexists _, _. split; [reflexivity |]. split; [| done].
        cbn [world mpm set_world set_rnd set_filterCount grow
       set_row0_length].
        eapply wf_facts_perm; [| exact Hwf].
        rewrite <- app_assoc. cbn [app]. apply Permutation_middle.
    + rewrite filter_loop_none by done.
      eexists _, _. split; [reflexivity |]. split; [| done].
      cbn [world mpm set_world set_rnd grow
       set_row0_length].
      eapply wf_facts_perm; [| exact Hwf].
      rewrite <- app_assoc. cbn [app]. apply Permutation_middle.
  - eexists _, _. split; [reflexivity |].
    rewrite <- app_assoc. cbn [app].
    eapply loop_inv_frame; [| | exact Hinv]; [by repeat split | done].
Qed.

Lemma for_of_inv (body : agent → list agent → M (list agent)) :
  (∀ s b rest a, loop_inv W H walls s (b ++ a :: rest) →
                 ∃ b' s', body a b s = (Normal b', s') ∧
                          loop_inv W H walls s' (b' ++ rest)) →
  ∀ l b s, loop_inv W H walls s (b ++ l) →
           ∃ b' s', for_of body l b s = (Normal b', s') ∧
                    loop_inv W H walls s' b'.
Proof.
  intros Hbody. induction l as [|a l IH]; intros b s Hinv.
  - rewrite app_nil_r in Hinv. by exists b, s.
  - cbn [for_of]. unfold bind.
    destruct (Hbody s b l a Hinv) as (b1 & s1 & -> & Hinv1).
    by apply IH.
Qed.

End Preservation.

(** ** Calls preserve well-formedness *)

Lemma well_formed_loop_inv W H walls (s : State) :
  well_formed W H walls s ↔
  loop_inv W H walls s (agents s) ∧ 0 < H ∧ world_length s = H.
Proof. unfold well_formed, loop_inv. rewrite wf_with_facts. tauto. Qed.

(** In a state the loop has left well-formed the canvas is drawn. *)
Lemma loop_inv_canvas W H walls (s : State) (b : list agent) :
  loop_inv W H walls s b → 0 < H → world_length s = H →
  (drawMatrixOnCanvas (set_agents b s)).1 = Normal tt.
Proof.
  intros [[Hrows _ _ _ _ _] _] Hpos Hlen.
  apply drawMatrixOnCanvas_ok; cbn [world_length world set_agents]; [lia |].
  intros r Hr. apply Hrows. lia.
Qed.

Lemma call_well_formed W H walls (rand : nat → Q) (e : engine) (s : State) :
  unit_draws rand →
  well_formed W H walls s →
  (call rand e s).1 = Normal tt ∧ well_formed W H walls (call rand e s).2.
Proof.
  intros Hr Hwf. apply well_formed_loop_inv in Hwf as (Hwf & Hpos & Hlen).
  destruct e; cbn [call];
    rewrite ?simulate_eq, ?simulate2_eq, ?simulate_v0_2_eq.
  - pose proof (keeps_for_of (loop_body rand) (agents s) []
                  (keeps_loop_body rand) s) as Hk.
    destruct (for_of_inv W H walls (loop_body rand)
                (loop_body_inv W H walls rand Hr) (agents s) [] s Hwf)
      as (b & s' & E & Hinv).
    rewrite E in *. cbn [snd] in Hk.
    destruct Hk as (_ & _ & _ & _ & _ & _ & _ & Hl).
    rewrite Hlen in Hl.
    rewrite (loop_inv_canvas W H walls s' b Hinv Hpos Hl).
    split; [done |]. apply well_formed_loop_inv.
    cbn [world_length set_t set_agents].
    split; [exact Hinv | split; [done | exact Hl]].
  - pose proof (keeps_for_of (loop_body2 rand) (agents s) []
                  (keeps_loop_body2 rand) s) as Hk.
    destruct (for_of_inv W H walls (loop_body2 rand)
                (loop_body2_inv W H walls rand Hr) (agents s) [] s Hwf)
      as (b & s' & E & Hinv).
    rewrite E in *. cbn [snd] in Hk.
    destruct Hk as (_ & _ & _ & _ & _ & _ & _ & Hl).
    rewrite Hlen in Hl.
    rewrite (loop_inv_canvas W H walls s' b Hinv Hpos Hl).
    split; [done |]. apply well_formed_loop_inv.
    cbn [world_length set_t set_agents].
    split; [exact Hinv | split; [done | exact Hl]].
  - pose proof (keeps_for_of (loop_body rand) (agents s) []
                  (keeps_loop_body rand) s) as Hk.
    destruct (for_of_inv W H walls (loop_body rand)
                (loop_body_inv W H walls rand Hr) (agents s) [] s Hwf)
      as (b & s' & E & Hinv).
    rewrite E in *. cbn [snd] in Hk.
    destruct Hk as (_ & _ & _ & _ & _ & _ & _ & Hl).
    rewrite Hlen in Hl.
    rewrite (loop_inv_canvas W H walls s' b Hinv Hpos Hl).
    split; [done |]. apply well_formed_loop_inv.
    destruct (match tend _ with Some _ => _ | None => _ end);
      cbn [world_length set_t set_agents set_timer];
      (split; [exact Hinv | split; [done | exact Hl]]).
Qed.

Lemma run_well_formed W H walls (rand : nat → Q) (es : list engine)
  (s : State) :
  unit_draws rand →
  well_formed W H walls s → well_formed W H walls (run rand es s).
Proof.
  intros Hr. revert s. induction es as [|e es IH]; intros s Hwf; [done |].
  cbn [run]. apply IH. by apply call_well_formed.
Qed.

Lemma filter_pos_absent (l : list agent) (q : Z * Z) :
  q ∉ pos <$> l → filter (λ a, pos a = q) l = [].
Proof.
  induction l as [|a l IH]; intros Hq; [reflexivity |].
  cbn in Hq. apply not_elem_of_cons in Hq as [Hne Hq].
  rewrite filter_cons_False by done. by apply IH.
Qed.

Lemma filter_pos_unique (l : list agent) (a : agent) :
  NoDup (pos <$> l) → a ∈ l →
  length (filter (λ a', pos a' = pos a) l) = 1%nat.
Proof.
  induction l as [|a0 l IH]; intros Hnd Ha.
  { by apply elem_of_nil in Ha. }
  cbn in Hnd. apply NoDup_cons in Hnd as [Hnotin Hnd].
  apply elem_of_cons in Ha as [<-|Ha].
  - rewrite filter_cons_True by done.
    by rewrite filter_pos_absent.
  - rewrite filter_cons_False; [by apply IH |].
    intros E. apply Hnotin. rewrite E. by apply list_elem_of_fmap_2.
Qed.

Lemma well_formed_synced W H walls (s : State) :
  well_formed W H walls s → synced walls s.
Proof.
  intros [Hwf _]. apply wf_with_facts in Hwf.
  destruct Hwf as [_ _ _ Hnd Hag Hcells]. split.
  - intros x y ty Ha. by destruct (Hag _ Ha) as ((_ & Hc & _) & _).
  - intros x y v Hv Hnz Hw. pose proof (Hcells x y v Hv Hnz Hw) as Ha.
    split; [| done].
    by apply (filter_pos_unique (agents s) (x, y, v)).
Qed.

Lemma half_unit : unit_draws half.
Proof. intros n. unfold half. split; lra. Qed.

(** ** Grid and registry stay in step *)

(** C1, as the code has it: from a well-formed state (a grid of [H] rows,
    at least one, all present, [H] being [world.length]; border among the
    walls, walls nonzero, filter positions distinct, agents on distinct
    interior cells off the walls that hold their type, the type nonzero and
    with a 3 by 3 matrix whose entries, added in binary64 in the order in
    which the sampler adds them, reach 1; every other nonzero cell the cell
    of an agent), after any sequence of calls of the three step functions
    every registry entry finds its type in its cell, and every nonzero cell
    off the walls is the cell of exactly one registry entry, of that type;
    and the next call, whichever it is, completes, its canvas update
    included.  That the entries sum to 1 as rationals is not enough: see
    [rounding_shortfall]. *)
Theorem grid_registry_sync W H walls (rand : nat → Q) (es : list engine)
  (s : State) :
  unit_draws rand →
  well_formed W H walls s →
  synced walls (run rand es s) ∧
  ∀ e, (call rand e (run rand es s)).1 = Normal tt.
Proof.
  intros Hr Hwf. pose proof (run_well_formed W H walls rand es s Hr Hwf) as H'.
  split.
  - by eapply well_formed_synced.
  - intros e. by apply (call_well_formed W H walls).
Qed.

Lemma grid_registry_sync_witness :
  synced (border 5 5)
         (run half [Simulate2; Simulate; Simulate_v0_2; Simulate2] (gate 49)) ∧
  ∀ e, (call half e
          (run half [Simulate2; Simulate; Simulate_v0_2; Simulate2]
               (gate 49))).1 = Normal tt.
Proof.
  apply (grid_registry_sync 5 5 (border 5 5) half
           [Simulate2; Simulate; Simulate_v0_2; Simulate2] (gate 49)).
  - intros n. unfold half. split; lra.
  - apply (bool_decide_unpack _). vm_compute. exact I.
Defined.

(** C1 as stated fails on configurations its list of conditions admits.
    In [becalmed] the call throws at the agent whose matrix is all zero,
    after the first agent has moved: the registry keeps the first agent at a
    cell that now holds [0].  In [ghost] every call completes, and the cell of
    the agent of type 0 is taken by its neighbour. *)
Lemma sync_needs_more :
  (configured 5 5 (border 5 5) becalmed ∧
   (call half Simulate becalmed).1 = Throw ∧
   ¬ synced (border 5 5) (run half [Simulate] becalmed)) ∧
  (configured 5 5 (border 5 5) ghost ∧
   (call half Simulate ghost).1 = Normal tt ∧
   ¬ synced (border 5 5) (run half [Simulate] ghost)).
Proof.
  split.
  - split; [apply (bool_decide_unpack _); vm_compute; exact I |].
    split; [vm_compute; reflexivity |].
    intros [Hs _].
    assert (getCell (world (run half [Simulate] becalmed)) 1 1 = Some 48) as E
      by (apply Hs; vm_compute; left).
    vm_compute in E. discriminate.
  - split; [apply (bool_decide_unpack _); vm_compute; exact I |].
    split; [vm_compute; reflexivity |].
    intros [Hs _].
    assert (getCell (world (run half [Simulate] ghost)) 2 1 = Some 0) as E
      by (apply Hs; vm_compute; right; left).
    vm_compute in E. discriminate.
Qed.

(** * Further properties of the sampler *)

(** X1: a direction the sampler returns lies within the matrix it scanned:
    [dx + 1] is a column index of the first row and [dy + 1] a row index; for
    a matrix of three rows whose first row has three entries, [dx] and [dy]
    are among -1, 0 and 1. *)
Theorem generateDirection_range (m : matrix) (u : Q) (dx dy : Z) :
  generateDirection (Some m) u = Normal (Some (dx, dy)) →
  -1 ≤ dx < Z.of_nat (length (default [] (m !! 0%nat))) - 1 ∧
  -1 ≤ dy < Z.of_nat (length m) - 1.
Proof. apply sampler_range. Qed.

Lemma generateDirection_range_witness :
  -1 ≤ 1 < Z.of_nat (length (default [] (right_matrix !! 0%nat))) - 1 ∧
  -1 ≤ 0 < Z.of_nat (length right_matrix) - 1.
Proof.
  apply (generateDirection_range right_matrix (1 # 2) 1 0). reflexivity.
Defined.

Lemma scan_cols_hit (pre suf : list Q) (x : Q) (r : nat) (y : num) (j : nat) :
  (j < length suf)%nat →
  (∀ i, (i ≤ j)%nat → acc_gt (mass (take i suf) y) x = false) →
  acc_gt (mass (take (S j) suf) y) x = true →
  scan_cols (pre ++ suf) x r (seq (length pre) (length suf)) y
  = Found (Z.of_nat (length pre + j) - 1) (Z.of_nat r - 1).
Proof.
  revert pre y j. induction suf as [|p suf IH]; intros pre y j Hj Hle Hgt.
  { cbn in Hj. lia. }
  cbn [length seq scan_cols].
  rewrite lookup_app_r, Nat.sub_diag by lia. cbn [lookup list_lookup].
  destruct j as [|j].
  - change (acc_gt (acc_add y (Some p)) x = true) in Hgt. rewrite Hgt.
    by rewrite Nat.add_0_r.
  - pose proof (Hle 1%nat ltac:(lia)) as H1.
    change (acc_gt (acc_add y (Some p)) x = false) in H1. rewrite H1.
    replace (pre ++ p :: suf) with ((pre ++ [p]) ++ suf)
      by (rewrite <- app_assoc; reflexivity).
    replace (S (length pre)) with (length (pre ++ [p]))
      by (rewrite length_app; simpl; lia).
    rewrite (IH _ _ j).
    + rewrite length_app. cbn. do 2 f_equal. lia.
    + cbn in Hj. lia.
    + intros i Hi. apply (Hle (S i)). lia.
    + exact Hgt.
Qed.

Lemma scan_rows_hit (pre suf : matrix) (x : Q) (n : nat) (y : num) (k : nat) :
  rows_of n suf → (0 < n)%nat →
  (k < length (concat suf))%nat →
  (∀ i, (i ≤ k)%nat → acc_gt (mass (take i (concat suf)) y) x = false) →
  acc_gt (mass (take (S k) (concat suf)) y) x = true →
  scan_rows (pre ++ suf) x n (seq (length pre) (length suf)) y
  = Found (Z.of_nat (k mod n) - 1) (Z.of_nat (length pre + k / n) - 1).
Proof.
  intros Hn Hpos. revert pre y k Hn.
  induction suf as [|row suf IH]; intros pre y k Hn Hk Hle Hgt.
  { cbn in Hk. lia. }
  apply Forall_cons in Hn as [Hrow Hn].
  cbn [length seq scan_rows concat]. cbn [concat] in Hk, Hle, Hgt.
  rewrite lookup_app_r, Nat.sub_diag by lia.
  cbn [lookup list_lookup default from_option id].
  destruct (decide (k < n)%nat) as [Hkn|Hkn].
  - pose proof (scan_cols_hit [] row x (length pre) y k) as Hhit.
    cbn [app length] in Hhit. rewrite Hrow in Hhit. rewrite Hhit.
    + rewrite Nat.mod_small, Nat.div_small by lia.
      cbn [Nat.add]. by rewrite Nat.add_0_r.
    + lia.
    + intros i Hi. specialize (Hle i Hi).
      by rewrite take_app_le in Hle by lia.
    + by rewrite take_app_le in Hgt by lia.
  - pose proof (scan_cols_below [] row x (length pre) y) as Hrw.
    cbn [app length] in Hrw. rewrite Hrow in Hrw. rewrite Hrw.
    2: { intros i. specialize (Hle (min i n)).
         rewrite take_app_le in Hle by lia.
         replace (take i row) with (take (min i n) row);
           [apply Hle; lia |].
         destruct (Nat.min_spec i n) as [[? ->]|[? ->]]; [done |].
         by rewrite !take_ge by lia. }
    replace (pre ++ row :: suf) with ((pre ++ [row]) ++ suf)
      by (rewrite <- app_assoc; reflexivity).
    replace (S (length pre)) with (length (pre ++ [row]))
      by (rewrite length_app; simpl; lia).
    rewrite length_app in Hk.
    rewrite (IH _ _ (k - n)%nat Hn).
    + rewrite length_app. cbn [length].
      replace k with ((k - n) + 1 * n)%nat at 3 4 by lia.
      rewrite Nat.Div0.mod_add, Nat.div_add by lia.
      do 2 f_equal. lia.
    + lia.
    + intros i Hi. specialize (Hle (length row + i)%nat).
      rewrite take_app_add, mass_app in Hle. apply Hle. lia.
    + replace (S k) with (length row + S (k - n))%nat in Hgt by lia.
      by rewrite take_app_add, mass_app in Hgt.
Qed.

(** X2: inverse-CDF sampling on the sums the sampler computes.  On a matrix
    of [n > 0] columns with non-negative entries, a draw that the running sum
    has not passed after the first [k] cells (in row-major order) and has
    passed after the first [k + 1] selects cell [k]: column [k mod n], row
    [k / n].  The running sum is rounded after every addition, so a small
    entry may leave it where it was. *)
Theorem generateDirection_inverse_cdf (m : matrix) (n k : nat) (u : Q) :
  rows_of n m → (0 < n)%nat →
  Forall (Forall (λ p, (0 <= p)%Q)) m →
  (k < length (concat m))%nat →
  acc_gt (mass (take k (concat m)) (Num 0)) u = false →
  acc_gt (mass (take (S k) (concat m)) (Num 0)) u = true →
  generateDirection (Some m) u
  = Normal (Some (Z.of_nat (k mod n) - 1, Z.of_nat (k / n) - 1)).
Proof.
  intros Hn Hpos Hnn Hk Hle Hgt. unfold generateDirection.
  destruct m as [|r0 m']; [cbn in Hk; lia |]. cbn [lookup list_lookup].
  assert (length r0 = n) as -> by (by inversion Hn).
  pose proof (scan_rows_hit [] (r0 :: m') u n (Num 0) k Hn Hpos Hk) as H.
  cbn [app] in H. change (length []) with 0%nat in H. rewrite H; [done | |done].
  intros i Hi.
  destruct (acc_gt (mass (take i (concat (r0 :: m'))) (Num 0)) u) eqn:E;
    [| done].
  rewrite (mass_take_mono _ _ u i k) in Hle;
    [done | by apply Forall_concat | exact is_double_0 | done | done].
Qed.

Lemma generateDirection_inverse_cdf_witness :
  generateDirection (Some absorbing_matrix) (1 # 2)
  = Normal (Some (Z.of_nat (5 mod 3) - 1, Z.of_nat (5 / 3) - 1)).
Proof.
  apply (generateDirection_inverse_cdf absorbing_matrix 3 5 (1 # 2)).
  - repeat constructor.
  - lia.
  - repeat constructor; vm_compute; discriminate.
  - cbn. lia.
  - vm_compute. reflexivity.
  - vm_compute. reflexivity.
Defined.

(** X3: a matrix with a single entry 1 and zeros elsewhere yields the
    direction of that entry for every draw of [[0,1)]. *)
Theorem one_hot_direction (r c : nat) (u : Q) :
  (r < 3)%nat → (c < 3)%nat →
  (0 <= u)%Q → (u < 1)%Q →
  generateDirection (Some (one_hot r c)) u
  = Normal (Some (Z.of_nat c - 1, Z.of_nat r - 1)).
Proof.
  intros Hr Hc H0 H1.
  destruct r as [|[|[|r]]]; [| | | lia];
    (destruct c as [|[|[|c]]]; [| | | lia]);
    match goal with
    | |- context [one_hot ?i ?j] =>
        let m := eval vm_compute in (one_hot i j) in
        change (one_hot i j) with m
    end;
    unfold generateDirection;
    cbn [lookup list_lookup length seq scan_rows scan_cols default
         from_option id];
    repeat (rewrite (acc_add_zero (Num 0)) by exact is_double_0;
            rewrite (acc_gt_zero u) by done);
    rewrite acc_add_one, acc_gt_one by done; reflexivity.
Qed.

Lemma one_hot_direction_witness :
  generateDirection (Some (one_hot 2 0)) (1 # 3)
  = Normal (Some (Z.of_nat 0 - 1, Z.of_nat 2 - 1)).
Proof.
  apply (one_hot_direction 2 0 (1 # 3)); [lia | lia | |].
  - vm_compute. discriminate.
  - vm_compute. reflexivity.
Defined.

Lemma scan_cols_nan (mr : list Q) (x : Q) (r : nat) (cs : list nat) :
  scan_cols mr x r cs NotANumber = Continue NotANumber.
Proof.
  induction cs as [|c cs IH]; [reflexivity |].
  cbn [scan_cols]. by destruct (mr !! c).
Qed.

Lemma scan_rows_nan (m : matrix) (x : Q) (n : nat) (rs : list nat) :
  scan_rows m x n rs NotANumber = Continue NotANumber.
Proof.
  induction rs as [|r rs IH]; [reflexivity |].
  cbn [scan_rows]. by rewrite scan_cols_nan.
Qed.

Lemma scan_cols_app (mr : list Q) (x : Q) (r : nat) (cs1 cs2 : list nat)
  (y : num) :
  scan_cols mr x r (cs1 ++ cs2) y
  = match scan_cols mr x r cs1 y with
    | Found dx dy => Found dx dy
    | Continue y' => scan_cols mr x r cs2 y'
    end.
Proof.
  revert y. induction cs1 as [|c cs1 IH]; intros y; [reflexivity |].
  cbn [app scan_cols]. destruct (acc_gt _ _); [reflexivity | apply IH].
Qed.

Lemma scan_rows_app (m : matrix) (x : Q) (n : nat) (rs1 rs2 : list nat)
  (y : num) :
  scan_rows m x n (rs1 ++ rs2) y
  = match scan_rows m x n rs1 y with
    | Found dx dy => Found dx dy
    | Continue y' => scan_rows m x n rs2 y'
    end.
Proof.
  revert y. induction rs1 as [|r rs1 IH]; intros y; [reflexivity |].
  cbn [app scan_rows]. destruct (scan_cols _ _ _ _ _); [reflexivity | apply IH].
Qed.

Lemma scan_rows_ext (m m' : matrix) (x : Q) (n : nat) (rs : list nat)
  (y : num) :
  (∀ r, r ∈ rs → m !! r = m' !! r) →
  scan_rows m x n rs y = scan_rows m' x n rs y.
Proof.
  revert y. induction rs as [|r rs IH]; intros y H; [reflexivity |].
  cbn [scan_rows]. rewrite (H r) by (by left).
  destruct (scan_cols _ _ _ _ _); [reflexivity |].
  apply IH. intros r' Hr'. apply H. by right.
Qed.

Lemma scan_cols_short (row : list Q) (x : Q) (r n : nat) (y : num) :
  (length row < n)%nat →
  (∀ k, acc_gt (mass (take k row) y) x = false) →
  scan_cols row x r (seq 0 n) y = Continue NotANumber.
Proof.
  intros Hlen Hle.
  replace n with (length row + S (n - S (length row)))%nat by lia.
  rewrite seq_app, scan_cols_app.
  pose proof (scan_cols_below [] row x r y Hle) as H.
  cbn [app length] in H. rewrite H.
  cbn [seq scan_cols Nat.add].
  rewrite (lookup_ge_None_2 row (length row)) by lia.
  rewrite acc_add_undefined. cbn [acc_gt]. apply scan_cols_nan.
Qed.

(** X4: a row with fewer entries than the first one turns the running sum
    into [NaN].  If the running sum has not passed the draw by the end of
    such a row, no direction is found at all, whatever the later entries:
    the sampler returns [undefined]. *)
Theorem generateDirection_short_row (m : matrix) (r0 row : list Q) (r : nat)
  (u : Q) :
  m !! 0%nat = Some r0 →
  rows_of (length r0) (take r m) →
  m !! r = Some row →
  (length row < length r0)%nat →
  (∀ k, acc_gt (mass (take k (concat (take r m) ++ row)) (Num 0)) u = false) →
  generateDirection (Some m) u = Normal None.
Proof.
  intros H0 Hrows Hr Hlen Hle. unfold generateDirection. rewrite H0.
  pose proof (lookup_lt_Some _ _ _ Hr) as Hrlt.
  replace (length m) with (r + S (length m - S r))%nat by lia.
  rewrite seq_app, scan_rows_app.
  rewrite (scan_rows_ext m (take r m)).
  2: { intros i Hi. apply elem_of_seq in Hi.
       symmetry. apply lookup_take_lt. lia. }
  pose proof (scan_rows_below [] (take r m) u (length r0) (Num 0) Hrows) as Hb.
  cbn [app] in Hb. change (length []) with 0%nat in Hb.
  rewrite length_take, Nat.min_l in Hb by lia. rewrite Hb.
  2: { intros k. specialize (Hle (min k (length (concat (take r m))))).
       rewrite take_app_le in Hle by lia.
       replace (take k (concat (take r m)))
         with (take (min k (length (concat (take r m))))
                    (concat (take r m))); [exact Hle |].
       destruct (Nat.min_spec k (length (concat (take r m))))
         as [[? ->]|[? ->]]; [done |].
       rewrite !(take_ge (concat (take r m))) by lia. done. }
  cbn [seq scan_rows Nat.add]. rewrite Hr. cbn [default from_option id].
  rewrite scan_cols_short; [by rewrite scan_rows_nan | done |].
  intros k. specialize (Hle (length (concat (take r m)) + k)%nat).
  by rewrite take_app_add, mass_app in Hle.
Qed.

Lemma generateDirection_short_row_witness :
  generateDirection (Some ragged_matrix) (1 # 2) = Normal None.
Proof.
  apply (generateDirection_short_row ragged_matrix [0; 0; 0]%Q [0; 0]%Q 1
           (1 # 2)).
  - reflexivity.
  - repeat constructor.
  - reflexivity.
  - cbn. lia.
  - intros k. do 6 (destruct k as [|k]; [vm_compute; reflexivity |]).
    vm_compute; reflexivity.
Defined.

(** Rounding at work.  The entries of [shortfall_matrix] add up to at least
    1 as rationals, yet the running sum of the sampler ends at [1 - 2^-52]:
    the matrix is not [proper], and on the draw [1 - 2^-52] (or the last one,
    [1 - 2^-53]) the sampler falls off its end.  In [short_row_matrix] the
    running sum passes the draw [0.9800000000000001] at the centre entry,
    before the missing entry of the second row is read, although the exact
    sum, 0.98, does not. *)
Example rounding_shortfall :
  (1 <= exact_sum (concat shortfall_matrix))%Q ∧
  mass (concat shortfall_matrix) (Num 0) = number late_draw ∧
  ¬ proper shortfall_matrix ∧
  generateDirection (Some shortfall_matrix) late_draw = Normal None ∧
  generateDirection (Some shortfall_matrix) last_draw = Normal None.
Proof.
  split; [vm_compute; discriminate |].
  split; [vm_compute; reflexivity |].
  split; [| split; vm_compute; reflexivity].
  apply (bool_decide_eq_false_1 (proper shortfall_matrix)).
  vm_compute. reflexivity.
Qed.

(** The preset matrices do reach 1 as the sampler adds them. *)
Example presets_proper : Forall proper preset_matrices.
Proof. apply (bool_decide_unpack _). vm_compute. exact I. Qed.

Example short_row_rounding :
  generateDirection (Some short_row_matrix) short_row_draw
  = Normal (Some (0, 0)) ∧
  (exact_sum (take 5 (concat short_row_matrix)) <= short_row_draw)%Q.
Proof. split; [vm_compute; reflexivity | vm_compute; discriminate]. Qed.

(** * Further properties of the step functions *)

(** What one turn of the loop of [simulate] can do. *)
Lemma loop_body_cases (rand : nat → Q) (x y ty : Z) (b : list agent)
  (s : State) :
  loop_body rand (x, y, ty) b s = (Throw, set_rnd (S (rnd s)) s) ∨
  loop_body rand (x, y, ty) b s
  = (Normal (b ++ [(x, y, ty)]), set_rnd (S (rnd s)) s) ∨
  ∃ dx dy,
    generateDirection (mpm s !! ty) (rand (rnd s)) = Normal (Some (dx, dy)) ∧
    getCell (world s) (x + dx) (y + dy) = Some 0 ∧
    is_Some (world s !! (y + dy)) ∧ is_Some (world s !! y) ∧
    loop_body rand (x, y, ty) b s
    = (Normal (b ++ [(x + dx, y + dy, ty)]),
       set_world
         (setCell (setCell (world s) (x + dx) (y + dy) (getCell (world s) x y))
                  x y (Some 0))
         (grow x y (grow (x + dx) (y + dy) (set_rnd (S (rnd s)) s)))).
Proof.
  rewrite loop_body_eq. cbn zeta.
  destruct (generateDirection _ _) as [[[dx dy]|]|] eqn:Hgen; try by left.
  destruct (world s !! (y + dy)) as [row2|] eqn:Hrow2; [| by left].
  destruct (is_zero _) eqn:Hz; [| right; by left].
  destruct (world s !! y) as [row|] eqn:Hrow; [| by left].
  right; right. exists dx, dy.
  assert (getCell (world s) (x + dx) (y + dy) = Some 0) as Hdest.
  { destruct (getCell (world s) (x + dx) (y + dy)) as [v|]; [| done].
    cbn in Hz. by apply bool_decide_eq_true_1 in Hz as ->. }
  rewrite Hdest. by eauto 10.
Qed.

(** What one turn of the loop of [simulate2] can do. *)
Lemma loop_body2_cases (rand : nat → Q) (x y ty : Z) (b : list agent)
  (s : State) :
  loop_body2 rand (x, y, ty) b s = (Throw, set_rnd (S (rnd s)) s) ∨
  loop_body2 rand (x, y, ty) b s
  = (Normal (b ++ [(x, y, ty)]), set_rnd (S (rnd s)) s) ∨
  ∃ dx dy,
    generateDirection (mpm s !! ty) (rand (rnd s)) = Normal (Some (dx, dy)) ∧
    getCell (world s) (x + dx) (y + dy) = Some 0 ∧
    is_Some (world s !! (y + dy)) ∧ is_Some (world s !! y) ∧
    loop_body2 rand (x, y, ty) b s
    = filter_loop (x + dx) (y + dy) ty (seq 0 (length (filterPost s)))
        (b ++ [(x + dx, y + dy, ty)])
        (set_world
           (setCell (setCell (world s) (x + dx) (y + dy)
                             (getCell (world s) x y))
                    x y (Some 0))
           (grow x y (grow (x + dx) (y + dy) (set_rnd (S (rnd s)) s)))).
Proof.
  rewrite loop_body2_eq. cbn zeta.
  destruct (generateDirection _ _) as [[[dx dy]|]|] eqn:Hgen; try by left.
  destruct (world s !! (y + dy)) as [row2|] eqn:Hrow2; [| by left].
  destruct (is_zero _) eqn:Hz; [| right; by left].
  destruct (world s !! y) as [row|] eqn:Hrow; [| by left].
  right; right. exists dx, dy.
  assert (getCell (world s) (x + dx) (y + dy) = Some 0) as Hdest.
  { destruct (getCell (world s) (x + dx) (y + dy)) as [v|]; [| done].
    cbn in Hz. by apply bool_decide_eq_true_1 in Hz as ->. }
  rewrite Hdest. by eauto 10.
Qed.

(** What the filter loop can do: it writes the destination cell only,
    leaves the draws alone, and returns a prefix of the array it was given. *)
Lemma filter_loop_frame (x2 y2 ty : Z) (fs : list nat) (b : list agent)
  (s : State) :
  (∀ cx cy, (x2, y2) ≠ (cx, cy) →
            getCell (world (filter_loop x2 y2 ty fs b s).2) cx cy
            = getCell (world s) cx cy) ∧
  (∀ y, is_Some (world (filter_loop x2 y2 ty fs b s).2 !! y)
        ↔ is_Some (world s !! y)) ∧
  rnd (filter_loop x2 y2 ty fs b s).2 = rnd s ∧
  (∀ b', (filter_loop x2 y2 ty fs b s).1 = Normal b' →
         ∃ k, b' = take k b).
Proof.
  revert b s. induction fs as [|f fs IH]; intros b s.
  { cbn. repeat split; try done. intros b' [= <-]. exists (length b).
    by rewrite take_ge. }
  cbn [filter_loop]. unfold bind, gets, modify. cbn zeta.
  destruct (bool_decide (filterPost s !! f = Some x2)); [| apply IH].
  cbn [filterType set_filterCount].
  destruct (bool_decide (filterType s !! f = Some ty)).
  - unfold write_cell. cbn [world set_filterCount].
    destruct (world s !! y2) as [row|] eqn:Hrow.
    + destruct (IH (pop b)
                  (set_world (setCell (world s) x2 y2 (Some 0))
                     (grow x2 y2 (set_filterCount (bump f (filterCount s)) s))))
        as (Hw & Hr & Hn & Hb).
      cbn [world set_world rnd set_filterCount grow
       set_row0_length] in Hw, Hr, Hn.
      split; [| split; [| split]].
      * intros cx cy Hne. rewrite Hw by done. by apply setCell_other.
      * intros y. rewrite Hr. apply setCell_row.
      * done.
      * intros b' Hb'. destruct (Hb b' Hb') as [k ->].
        unfold pop. rewrite removelast_firstn_len, take_take. eauto.
    + cbn. repeat split; try done.
  - destruct (IH b (set_filterCount (bump f (filterCount s)) s))
      as (Hw & Hr & Hn & Hb).
    by cbn [world rnd set_filterCount] in Hw, Hr, Hn.
Qed.

Lemma loop_body_near (rand : nat → Q) (a : agent) (b b' : list agent)
  (s s' : State) :
  loop_body rand a b s = (Normal b', s') →
  ∃ a', b' = b ++ [a'] ∧ atype a' = atype a ∧
        (small_matrices (mpm s) → near a a').
Proof.
  destruct a as [[x y] ty].
  destruct (loop_body_cases rand x y ty b s)
    as [-> | [-> | (dx & dy & Hgen & _ & _ & _ & ->)]]; [discriminate | |].
  - intros [= <- _]. exists (x, y, ty). split; [done |]. split; [done |].
    intros _. unfold near. cbn. lia.
  - intros [= <- _]. exists (x + dx, y + dy, ty).
    split; [done |]. split; [done |]. intros Hsmall. unfold near. cbn.
    destruct (mpm s !! ty) as [m|] eqn:Hm; [| discriminate].
    destruct (Hsmall ty m Hm) as [Hrows Hcols].
    apply sampler_range in Hgen. lia.
Qed.

Lemma for_of_near (rand : nat → Q) (l b b' : list agent) (s s' : State) :
  for_of (loop_body rand) l b s = (Normal b', s') →
  ∃ l', b' = b ++ l' ∧ atype <$> l' = atype <$> l ∧
        (small_matrices (mpm s) → Forall2 near l l').
Proof.
  revert b s. induction l as [|a l IH]; intros b s; cbn [for_of].
  - intros [= <- _]. exists []. by rewrite app_nil_r.
  - unfold bind.
    pose proof (keeps_loop_body rand a b s) as (_ & Hm & _).
    destruct (loop_body rand a b s) as [[b1|] s1] eqn:E; [| discriminate].
    intros H. apply loop_body_near in E as (a' & -> & Hty & Hnear).
    apply IH in H as (l' & -> & Htys & Hnears).
    exists (a' :: l'). rewrite <- app_assoc. split; [done |].
    split; [cbn; by rewrite Hty, Htys |].
    intros Hsmall. constructor; [by apply Hnear |].
    apply Hnears. cbn in Hm. by rewrite Hm.
Qed.

Lemma call_near (rand : nat → Q) (e : engine) (s : State) :
  e ≠ Simulate2 →
  atype <$> agents (call rand e s).2 = atype <$> agents s ∧
  ((call rand e s).1 = Normal tt → small_matrices (mpm s) →
   Forall2 near (agents s) (agents (call rand e s).2)).
Proof.
  intros He.
  pose proof (keeps_for_of (loop_body rand) (agents s) []
                (keeps_loop_body rand) s) as (Ha & _).
  destruct e; [| done |]; cbn [call];
    rewrite ?simulate_eq, ?simulate_v0_2_eq;
    (destruct (for_of (loop_body rand) (agents s) [] s) as [[b|] s1] eqn:E;
     [| cbn in Ha; cbn; by rewrite Ha]);
    apply for_of_near in E as (l' & -> & Htys & Hnear);
    (destruct (drawMatrixOnCanvas _).1; [| done]);
    try destruct (match tend _ with Some _ => _ | None => _ end); done.
Qed.

(** X5: without the filter engine the registry keeps its types, in their
    order, through any sequence of calls, whether they complete or throw. *)
Theorem registry_types (rand : nat → Q) (es : list engine) (s : State) :
  Simulate2 ∉ es →
  atype <$> agents (run rand es s) = atype <$> agents s.
Proof.
  revert s. induction es as [|e es IH]; intros s Hes; [reflexivity |].
  cbn [run]. rewrite IH by (intros ?; apply Hes; by right).
  assert (e ≠ Simulate2) as He by (intros ->; apply Hes; by left).
  by destruct (call_near rand e s He) as [-> _].
Qed.

Lemma registry_types_witness :
  atype <$> agents (run half [Simulate; Simulate_v0_2; Simulate] stranded)
  = atype <$> agents stranded.
Proof.
  apply (registry_types half [Simulate; Simulate_v0_2; Simulate] stranded).
  intros H. repeat (apply elem_of_cons in H as [H|H]; [discriminate |]).
  by apply elem_of_nil in H.
Defined.

(** X6: when no matrix of the table has more than three rows or a first row
    of more than three entries, a completed call of [simulate] or
    [simulate_v0_2] leaves every agent within one cell of where it was, in each
    coordinate, at the same place of the registry. *)
Theorem one_cell_per_step (rand : nat → Q) (e : engine) (s : State) :
  e ≠ Simulate2 →
  small_matrices (mpm s) →
  (call rand e s).1 = Normal tt →
  Forall2 near (agents s) (agents (call rand e s).2).
Proof.
  intros He Hsmall Hdone. by apply (call_near rand e s He).
Qed.

Lemma one_cell_per_step_witness :
  Forall2 near (agents convoy) (agents (call half Simulate convoy).2).
Proof.
  apply (one_cell_per_step half Simulate convoy).
  - discriminate.
  - apply map_Forall_singleton. cbn. lia.
  - vm_compute. reflexivity.
Defined.

(** ** Ticks and draws *)

Lemma loop_body_rnd (rand : nat → Q) (a : agent) (b : list agent) (s : State) :
  rnd (loop_body rand a b s).2 = S (rnd s).
Proof.
  destruct a as [[x y] ty].
  by destruct (loop_body_cases rand x y ty b s)
    as [-> | [-> | (dx & dy & _ & _ & _ & _ & ->)]].
Qed.

Lemma loop_body2_rnd (rand : nat → Q) (a : agent) (b : list agent)
  (s : State) :
  rnd (loop_body2 rand a b s).2 = S (rnd s).
Proof.
  destruct a as [[x y] ty].
  destruct (loop_body2_cases rand x y ty b s)
    as [-> | [-> | (dx & dy & _ & _ & _ & _ & ->)]]; [done | done |].
  by destruct (filter_loop_frame (x + dx) (y + dy) ty
                 (seq 0 (length (filterPost s)))
                 (b ++ [(x + dx, y + dy, ty)])
                 (set_world
                    (setCell (setCell (world s) (x + dx) (y + dy)
                                      (getCell (world s) x y))
                             x y (Some 0))
                    (grow x y (grow (x + dx) (y + dy) (set_rnd (S (rnd s)) s))))) as (_ & _ & -> & _).
Qed.

Lemma for_of_rnd (body : agent → list agent → M (list agent))
  (l b : list agent) (s : State) :
  (∀ a b s, rnd (body a b s).2 = S (rnd s)) →
  match (for_of body l b s).1 with
  | Normal _ => rnd (for_of body l b s).2 = (rnd s + length l)%nat
  | Throw => (rnd s < rnd (for_of body l b s).2 ≤ rnd s + length l)%nat
  end.
Proof.
  intros Hb. revert b s. induction l as [|a l IH]; intros b s; cbn [for_of].
  { cbn. lia. }
  unfold bind. specialize (Hb a b s).
  destruct (body a b s) as [[b1|] s1]; cbn in Hb.
  - specialize (IH b1 s1). destruct ((for_of body l b1 s1).1); cbn; lia.
  - cbn. lia.
Qed.

(** X7: a call that completes advances the tick by one; a call that throws
    leaves it. *)
Theorem tick_progression (rand : nat → Q) (e : engine) (s : State) :
  t (call rand e s).2
  = match (call rand e s).1 with
    | Normal _ => t s + 1
    | Throw => t s
    end.
Proof.
  destruct e; cbn [call];
    rewrite ?simulate_eq, ?simulate2_eq, ?simulate_v0_2_eq.
  - pose proof (keeps_for_of (loop_body rand) (agents s) []
                  (keeps_loop_body rand) s) as (_ & _ & Ht & _).
    destruct (for_of _ _ _ s) as [[b|] s1]; cbn [snd] in Ht; [| done].
    by destruct (drawMatrixOnCanvas _).1; cbn; rewrite Ht.
  - pose proof (keeps_for_of (loop_body2 rand) (agents s) []
                  (keeps_loop_body2 rand) s) as (_ & _ & Ht & _).
    destruct (for_of _ _ _ s) as [[b|] s1]; cbn [snd] in Ht; [| done].
    by destruct (drawMatrixOnCanvas _).1; cbn; rewrite Ht.
  - pose proof (keeps_for_of (loop_body rand) (agents s) []
                  (keeps_loop_body rand) s) as (_ & _ & Ht & _).
    destruct (for_of _ _ _ s) as [[b|] s1]; cbn [snd] in Ht; [| done].
    destruct (drawMatrixOnCanvas _).1; [| by cbn; rewrite Ht].
    by destruct (match tend _ with Some _ => _ | None => _ end);
      cbn; rewrite Ht.
Qed.

(** With an empty [world] and no agents a call makes no draw and throws at
    the canvas, where [world[0].length] is read.  In [shortfall] every
    condition on the configuration but the one on the rounded mass holds, and
    on a late draw the call throws at the agent. *)
Example empty_world_throws (rand : nat → Q) (e : engine) :
  (call rand e blank).1 = Throw ∧ rnd (call rand e blank).2 = 0%nat.
Proof. by destruct e. Qed.

Example shortfall_throws :
  configured 5 5 (border 5 5) shortfall ∧
  ¬ well_formed 5 5 (border 5 5) shortfall ∧
  (simulate (λ _, late_draw) shortfall).1 = Throw.
Proof.
  split; [apply (bool_decide_unpack _); vm_compute; exact I |].
  split; [| vm_compute; reflexivity].
  apply (bool_decide_eq_false_1 (well_formed 5 5 (border 5 5) shortfall)).
  vm_compute. reflexivity.
Qed.

(** X8: a call that completes has made exactly one draw per agent of the
    registry; a call that throws has made at most that many, and at least
    one unless the registry is empty (the canvas can throw after the loop,
    and with no agent no draw is made before it). *)
Theorem draws_consumed (rand : nat → Q) (e : engine) (s : State) :
  match (call rand e s).1 with
  | Normal _ => rnd (call rand e s).2 = (rnd s + length (agents s))%nat
  | Throw =>
      (rnd s + Nat.min 1 (length (agents s)) ≤ rnd (call rand e s).2
       ≤ rnd s + length (agents s))%nat
  end.
Proof.
  destruct e; cbn [call];
    rewrite ?simulate_eq, ?simulate2_eq, ?simulate_v0_2_eq.
  - pose proof (for_of_rnd (loop_body rand) (agents s) [] s
                  (loop_body_rnd rand)) as H.
    destruct (for_of _ _ _ s) as [[b|] s1]; cbn in H;
      [| cbn [fst snd rnd set_t set_agents set_timer]; lia].
    destruct (drawMatrixOnCanvas _).1;
      cbn [fst snd rnd set_t set_agents set_timer]; lia.
  - pose proof (for_of_rnd (loop_body2 rand) (agents s) [] s
                  (loop_body2_rnd rand)) as H.
    destruct (for_of _ _ _ s) as [[b|] s1]; cbn in H;
      [| cbn [fst snd rnd set_t set_agents set_timer]; lia].
    destruct (drawMatrixOnCanvas _).1;
      cbn [fst snd rnd set_t set_agents set_timer]; lia.
  - pose proof (for_of_rnd (loop_body rand) (agents s) [] s
                  (loop_body_rnd rand)) as H.
    destruct (for_of _ _ _ s) as [[b|] s1]; cbn in H;
      [| cbn [fst snd rnd set_t set_agents set_timer]; lia].
    destruct (drawMatrixOnCanvas _).1; [| cbn [fst snd rnd set_t set_agents set_timer]; lia].
    destruct (match tend _ with Some _ => _ | None => _ end); cbn [fst snd rnd set_t set_agents set_timer]; lia.
Qed.

(** ** The three step functions compared *)

Lemma loop_body2_no_filters (rand : nat → Q) (a : agent) (b : list agent)
  (s : State) :
  filterPost s = [] → loop_body2 rand a b s = loop_body rand a b s.
Proof.
  intros Hf. destruct a as [[x y] ty].
  rewrite loop_body_eq, loop_body2_eq. cbn zeta. rewrite Hf. cbn [length seq].
  destruct (generateDirection _ _) as [[[dx dy]|]|]; reflexivity.
Qed.

Lemma for_of_no_filters (rand : nat → Q) (l b : list agent) (s : State) :
  filterPost s = [] →
  for_of (loop_body2 rand) l b s = for_of (loop_body rand) l b s.
Proof.
  revert b s. induction l as [|a l IH]; intros b s Hf; [reflexivity |].
  cbn [for_of]. unfold bind. rewrite loop_body2_no_filters by done.
  pose proof (keeps_loop_body rand a b s) as (_ & _ & _ & Hp & _).
  destruct (loop_body rand a b s) as [[b1|] s1]; [| reflexivity].
  apply IH. cbn in Hp. by rewrite Hp.
Qed.

(** X9: with no filter configured, [simulate2] is [simulate]: same outcome,
    same state. *)
Theorem simulate2_without_filters (rand : nat → Q) (s : State) :
  filterPost s = [] → simulate2 rand s = simulate rand s.
Proof.
  intros Hf. rewrite simulate2_eq, simulate_eq.
  by rewrite for_of_no_filters.
Qed.

Lemma simulate2_without_filters_witness :
  simulate2 half convoy = simulate half convoy.
Proof. apply (simulate2_without_filters half convoy). reflexivity. Defined.

(** X10: [simulate_v0_2] is [simulate] followed by the end-time test on the
    tick the call started with: when the call completes and that tick has
    reached [tend], the timer is cleared; nothing else differs. *)
Theorem simulate_v0_2_is_simulate (rand : nat → Q) (s : State) :
  simulate_v0_2 rand s
  = match simulate rand s with
    | (Normal _, s') =>
        (Normal tt, if past_end s then set_timer false s' else s')
    | (Throw, s') => (Throw, s')
    end.
Proof.
  rewrite simulate_v0_2_eq, simulate_eq.
  pose proof (keeps_for_of (loop_body rand) (agents s) []
                (keeps_loop_body rand) s) as (_ & _ & Ht & _ & _ & He & _).
  destruct (for_of (loop_body rand) (agents s) [] s) as [[b|] s1];
    [| reflexivity].
  cbn [snd] in Ht, He. unfold past_end.
  destruct (drawMatrixOnCanvas _).1; [| reflexivity].
  rewrite He, Ht.
  destruct (tend s) as [e|]; [destruct (bool_decide _) |]; reflexivity.
Qed.

(** The timer is cleared at the call that starts with the tick at [tend], and
    at every completed call after it. *)
Example timed_run :
  timer (run half [Simulate_v0_2; Simulate_v0_2] (timed 2)) = true ∧
  timer (run half [Simulate_v0_2; Simulate_v0_2; Simulate_v0_2] (timed 2))
  = false ∧
  t (run half [Simulate_v0_2; Simulate_v0_2; Simulate_v0_2] (timed 2)) = 3.
Proof. vm_compute. done. Qed.

(** ** The registry never grows *)

Lemma loop_body2_length (rand : nat → Q) (a : agent) (b b' : list agent)
  (s s' : State) :
  loop_body2 rand a b s = (Normal b', s') → (length b' ≤ S (length b))%nat.
Proof.
  destruct a as [[x y] ty].
  destruct (loop_body2_cases rand x y ty b s)
    as [-> | [-> | (dx & dy & _ & _ & _ & _ & ->)]]; [discriminate | |].
  - intros [= <- _]. rewrite length_app. cbn. lia.
  - intros H.
    destruct (filter_loop_frame (x + dx) (y + dy) ty
                (seq 0 (length (filterPost s)))
                (b ++ [(x + dx, y + dy, ty)])
                (set_world
                   (setCell (setCell (world s) (x + dx) (y + dy)
                                     (getCell (world s) x y))
                            x y (Some 0))
                   (grow x y (grow (x + dx) (y + dy) (set_rnd (S (rnd s)) s))))) as (_ & _ & _ & Hb).
    destruct (Hb b') as [k ->]; [by rewrite H |].
    rewrite length_take, length_app. cbn. lia.
Qed.

Lemma for_of_length_le (body : agent → list agent → M (list agent))
  (l b b' : list agent) (s s' : State) :
  (∀ a b b' s s', body a b s = (Normal b', s') →
                  (length b' ≤ S (length b))%nat) →
  for_of body l b s = (Normal b', s') →
  (length b' ≤ length b + length l)%nat.
Proof.
  intros Hb. revert b s. induction l as [|a l IH]; intros b s; cbn [for_of].
  - intros [= <- _]. lia.
  - unfold bind. destruct (body a b s) as [[b1|] s1] eqn:E; [| discriminate].
    intros H. apply IH in H. apply Hb in E. cbn. lia.
Qed.

Lemma call_length_le (rand : nat → Q) (e : engine) (s : State) :
  (length (agents (call rand e s).2) ≤ length (agents s))%nat.
Proof.
  destruct e; cbn [call].
  - by rewrite simulate_length.
  - rewrite simulate2_eq.
    pose proof (keeps_for_of (loop_body2 rand) (agents s) []
                  (keeps_loop_body2 rand) s) as (Ha & _).
    destruct (for_of (loop_body2 rand) (agents s) [] s) as [[b|] s1] eqn:E.
    + apply for_of_length_le in E; [| apply loop_body2_length].
      by destruct (drawMatrixOnCanvas _).1.
    + cbn in *. by rewrite Ha.
  - by rewrite simulate_v0_2_length.
Qed.

(** X11: no step function ever adds an entry to the registry: after any
    sequence of calls it has at most as many entries as before. *)
Theorem registry_never_grows (rand : nat → Q) (es : list engine) (s : State) :
  (length (agents (run rand es s)) ≤ length (agents s))%nat.
Proof.
  revert s. induction es as [|e es IH]; intros s; [done |].
  cbn [run]. etransitivity; [apply IH | apply call_length_le].
Qed.

(** ** Exclusion *)

(** X12: from a well-formed state (as for C1: the grid has its rows, and
    the running sum of every agent's matrix, rounded as the sampler rounds
    it, reaches 1, so that no call throws), after any sequence of calls no
    two agents of the registry share a cell, and every agent is strictly
    inside the grid. *)
Theorem exclusion W H walls (rand : nat → Q) (es : list engine) (s : State) :
  unit_draws rand →
  well_formed W H walls s →
  NoDup (pos <$> agents (run rand es s)) ∧
  ∀ a, a ∈ agents (run rand es s) → interior W H a.1.1 a.1.2.
Proof.
  intros Hr Hwf.
  destruct (run_well_formed W H walls rand es s Hr Hwf) as [Hwf' _].
  apply wf_with_facts in Hwf'. destruct Hwf' as [_ _ _ Hnd Hag _].
  split; [done |]. intros a Ha. by destruct (Hag a Ha) as ((Hi & _) & _).
Qed.

Lemma exclusion_witness :
  NoDup (pos <$> agents (run half [Simulate; Simulate2; Simulate] convoy)) ∧
  ∀ a, a ∈ agents (run half [Simulate; Simulate2; Simulate] convoy) →
       interior 5 5 a.1.1 a.1.2.
Proof.
  apply (exclusion 5 5 (border 5 5) half [Simulate; Simulate2; Simulate]
           convoy).
  - intros n. unfold half. split; lra.
  - apply (bool_decide_unpack _). vm_compute. exact I.
Defined.

(** ** Walls are never overwritten *)

Lemma take_pos_notin (c : Z * Z) (b : list agent) (k : nat) :
  c ∉ pos <$> b → c ∉ pos <$> take k b.
Proof.
  intros H Hin. apply H. rewrite <- (take_drop k b), fmap_app.
  apply elem_of_app. by left.
Qed.

Lemma moved_cell (w : gmap Z (gmap Z Z)) (x y x2 y2 cx cy : Z)
  (v : option Z) :
  getCell w cx cy ≠ Some 0 →
  getCell w x2 y2 = Some 0 →
  (x, y) ≠ (cx, cy) →
  getCell (setCell (setCell w x2 y2 v) x y (Some 0)) cx cy = getCell w cx cy
  ∧ (x2, y2) ≠ (cx, cy).
Proof.
  intros Hc Hdest Hne.
  assert ((x2, y2) ≠ (cx, cy)) as Hne2 by (intros [= <- <-]; congruence).
  by rewrite !setCell_other.
Qed.

Lemma loop_body_cell (rand : nat → Q) (a : agent) (b : list agent)
  (s : State) (cx cy : Z) :
  getCell (world s) cx cy ≠ Some 0 →
  pos a ≠ (cx, cy) →
  (cx, cy) ∉ pos <$> b →
  getCell (world (loop_body rand a b s).2) cx cy = getCell (world s) cx cy ∧
  ∀ b', (loop_body rand a b s).1 = Normal b' → (cx, cy) ∉ pos <$> b'.
Proof.
  destruct a as [[x y] ty]. unfold pos at 1. cbn [fst snd].
  intros Hc Ha Hb.
  destruct (loop_body_cases rand x y ty b s)
    as [-> | [-> | (dx & dy & _ & Hdest & _ & _ & ->)]]; cbn [fst snd].
  - done.
  - split; [done |]. intros b' [= <-]. rewrite fmap_app.
    intros [H|H]%elem_of_app; [done |].
    apply list_elem_of_singleton in H. by apply Ha.
  - cbn [world set_world set_rnd grow
       set_row0_length].
    destruct (moved_cell (world s) x y (x + dx) (y + dy) cx cy
                (getCell (world s) x y) Hc Hdest Ha) as [-> Hne2].
    split; [done |]. intros b' [= <-]. rewrite fmap_app.
    intros [H|H]%elem_of_app; [done |].
    apply list_elem_of_singleton in H. by apply Hne2.
Qed.

Lemma loop_body2_cell (rand : nat → Q) (a : agent) (b : list agent)
  (s : State) (cx cy : Z) :
  getCell (world s) cx cy ≠ Some 0 →
  pos a ≠ (cx, cy) →
  (cx, cy) ∉ pos <$> b →
  getCell (world (loop_body2 rand a b s).2) cx cy = getCell (world s) cx cy ∧
  ∀ b', (loop_body2 rand a b s).1 = Normal b' → (cx, cy) ∉ pos <$> b'.
Proof.
  destruct a as [[x y] ty]. unfold pos at 1. cbn [fst snd].
  intros Hc Ha Hb.
  destruct (loop_body2_cases rand x y ty b s)
    as [-> | [-> | (dx & dy & _ & Hdest & _ & _ & ->)]]; cbn [fst snd].
  - done.
  - split; [done |]. intros b' [= <-]. rewrite fmap_app.
    intros [H|H]%elem_of_app; [done |].
    apply list_elem_of_singleton in H. by apply Ha.
  - destruct (moved_cell (world s) x y (x + dx) (y + dy) cx cy
                (getCell (world s) x y) Hc Hdest Ha) as [Hsame Hne2].
    destruct (filter_loop_frame (x + dx) (y + dy) ty
                (seq 0 (length (filterPost s)))
                (b ++ [(x + dx, y + dy, ty)])
                (set_world
                   (setCell (setCell (world s) (x + dx) (y + dy)
                                     (getCell (world s) x y))
                            x y (Some 0))
                   (grow x y (grow (x + dx) (y + dy) (set_rnd (S (rnd s)) s))))) as (Hw & _ & _ & Hb').
    rewrite Hw by done. cbn [world set_world set_rnd grow
       set_row0_length].
    split; [done |]. intros b' Hnorm. destruct (Hb' b' Hnorm) as [k ->].
    apply take_pos_notin. rewrite fmap_app.
    intros [H|H]%elem_of_app; [done |].
    apply list_elem_of_singleton in H. by apply Hne2.
Qed.

Lemma for_of_cell (body : agent → list agent → M (list agent)) (cx cy : Z) :
  (∀ a b s,
     getCell (world s) cx cy ≠ Some 0 → pos a ≠ (cx, cy) →
     (cx, cy) ∉ pos <$> b →
     getCell (world (body a b s).2) cx cy = getCell (world s) cx cy ∧
     ∀ b', (body a b s).1 = Normal b' → (cx, cy) ∉ pos <$> b') →
  ∀ l b s,
    getCell (world s) cx cy ≠ Some 0 →
    (cx, cy) ∉ pos <$> l → (cx, cy) ∉ pos <$> b →
    getCell (world (for_of body l b s).2) cx cy = getCell (world s) cx cy ∧
    ∀ b', (for_of body l b s).1 = Normal b' → (cx, cy) ∉ pos <$> b'.
Proof.
  intros Hbody. induction l as [|a l IH]; intros b s Hc Hl Hb.
  { cbn. split; [done |]. by intros b' [= <-]. }
  cbn in Hl. apply not_elem_of_cons in Hl as [Ha Hl].
  cbn [for_of]. unfold bind.
  destruct (Hbody a b s Hc) as [Hw Hb1]; [done | done |].
  destruct (body a b s) as [[b1|] s1]; cbn [fst snd] in *; [| done].
  destruct (IH b1 s1) as [Hw' Hb']; [by rewrite Hw | done | by apply Hb1 |].
  by rewrite Hw', Hw.
Qed.

Lemma call_cell (rand : nat → Q) (e : engine) (s : State) (cx cy : Z) :
  getCell (world s) cx cy ≠ Some 0 →
  (cx, cy) ∉ pos <$> agents s →
  getCell (world (call rand e s).2) cx cy = getCell (world s) cx cy ∧
  (cx, cy) ∉ pos <$> agents (call rand e s).2.
Proof.
  intros Hc Ha.
  assert ((cx, cy) ∉ pos <$> ([] : list agent)) as Hnil
    by (cbn; apply not_elem_of_nil).
  destruct e; cbn [call];
    rewrite ?simulate_eq, ?simulate2_eq, ?simulate_v0_2_eq.
  - destruct (for_of_cell (loop_body rand) cx cy (λ a b s, loop_body_cell rand a b s cx cy)
                (agents s) [] s Hc Ha Hnil) as [Hw Hb].
    pose proof (keeps_for_of (loop_body rand) (agents s) []
                  (keeps_loop_body rand) s) as (Hag & _).
    destruct (for_of _ _ _ s) as [[b|] s1]; cbn [fst snd] in *.
    + destruct (drawMatrixOnCanvas _).1; cbn; (split; [done |]); by apply Hb.
    + by rewrite Hag.
  - destruct (for_of_cell (loop_body2 rand) cx cy (λ a b s, loop_body2_cell rand a b s cx cy)
                (agents s) [] s Hc Ha Hnil) as [Hw Hb].
    pose proof (keeps_for_of (loop_body2 rand) (agents s) []
                  (keeps_loop_body2 rand) s) as (Hag & _).
    destruct (for_of _ _ _ s) as [[b|] s1]; cbn [fst snd] in *.
    + destruct (drawMatrixOnCanvas _).1; cbn; (split; [done |]); by apply Hb.
    + by rewrite Hag.
  - destruct (for_of_cell (loop_body rand) cx cy (λ a b s, loop_body_cell rand a b s cx cy)
                (agents s) [] s Hc Ha Hnil) as [Hw Hb].
    pose proof (keeps_for_of (loop_body rand) (agents s) []
                  (keeps_loop_body rand) s) as (Hag & _).
    destruct (for_of _ _ _ s) as [[b|] s1]; cbn [fst snd] in *.
    + destruct (drawMatrixOnCanvas _).1;
        [| cbn; split; [done |]; by apply Hb].
      destruct (match tend _ with Some _ => _ | None => _ end); cbn;
        (split; [done |]); by apply Hb.
    + by rewrite Hag.
Qed.

(** X13: a cell that does not hold [0] and is not the cell of a registry
    entry keeps its value through any sequence of calls, whether they
    complete or throw: walls and filters are never overwritten, in any
    state. *)
Theorem walls_never_change (rand : nat → Q) (es : list engine) (s : State)
  (cx cy : Z) :
  getCell (world s) cx cy ≠ Some 0 →
  (cx, cy) ∉ pos <$> agents s →
  getCell (world (run rand es s)) cx cy = getCell (world s) cx cy.
Proof.
  revert s. induction es as [|e es IH]; intros s Hc Ha; [reflexivity |].
  cbn [run]. destruct (call_cell rand e s cx cy Hc Ha) as [Hw Ha'].
  rewrite IH; [done | by rewrite Hw | done].
Qed.

Lemma walls_never_change_witness :
  getCell (world (run half [Simulate; Simulate2; Simulate_v0_2] becalmed)) 4 1
  = getCell (world becalmed) 4 1.
Proof.
  apply (walls_never_change half [Simulate; Simulate2; Simulate_v0_2]
           becalmed 4 1).
  - vm_compute. discriminate.
  - apply (bool_decide_unpack _). vm_compute. exact I.
Defined.

(** ** Filter counters *)

Lemma loop_body_count (rand : nat → Q) (a : agent) (b : list agent)
  (s : State) :
  filterCount (loop_body rand a b s).2 = filterCount s.
Proof.
  destruct a as [[x y] ty].
  by destruct (loop_body_cases rand x y ty b s)
    as [-> | [-> | (dx & dy & _ & _ & _ & _ & ->)]].
Qed.

Lemma loop_body2_count (rand : nat → Q) (a : agent) (b : list agent)
  (s : State) (f : nat) (c : Z) :
  filterCount s !! f = Some (Count c) →
  ∃ c', filterCount (loop_body2 rand a b s).2 !! f = Some (Count c') ∧
        c ≤ c' ≤ c + 1.
Proof.
  intros Hc. destruct a as [[x y] ty].
  destruct (loop_body2_cases rand x y ty b s)
    as [-> | [-> | (dx & dy & _ & _ & Hrow2 & _ & ->)]].
  - exists c. split; [done | lia].
  - exists c. split; [done | lia].
  - edestruct (filter_loop_count (x + dx) (y + dy) ty f c
                 (seq 0 (length (filterPost s)))
                 (b ++ [(x + dx, y + dy, ty)]))
      as (b' & s' & -> & Hc'); [apply NoDup_seq | | | ].
    3: { cbn [snd]. rewrite Hc'. eexists. split; [done |].
         destruct (bool_decide _); lia. }
    + cbn [world set_world grow
       set_row0_length]. by apply setCell_row, setCell_row.
    + exact Hc.
Qed.

Lemma for_of_count (body : agent → list agent → M (list agent)) (f : nat) :
  (∀ a b s c, filterCount s !! f = Some (Count c) →
              ∃ c', filterCount (body a b s).2 !! f = Some (Count c') ∧
                    c ≤ c' ≤ c + 1) →
  ∀ l b s c, filterCount s !! f = Some (Count c) →
             ∃ c', filterCount (for_of body l b s).2 !! f = Some (Count c') ∧
                   c ≤ c' ≤ c + Z.of_nat (length l).
Proof.
  intros Hbody. induction l as [|a l IH]; intros b s c Hc.
  { exists c. split; [done | cbn; lia]. }
  cbn [for_of]. unfold bind.
  destruct (Hbody a b s c Hc) as (c1 & Hc1 & Hb1).
  destruct (body a b s) as [[b1|] s1]; cbn [snd] in Hc1.
  - destruct (IH b1 s1 c1 Hc1) as (c' & Hc' & Hb').
    exists c'. split; [done |]. cbn [length]. lia.
  - exists c1. split; [done |]. cbn [length]. lia.
Qed.

(** X14: a numeric filter counter never decreases; one call raises it by at
    most the number of agents in the registry; and only [simulate2] changes
    it. *)
Theorem counters_bounded (rand : nat → Q) (e : engine) (s : State) (f : nat)
  (c : Z) :
  filterCount s !! f = Some (Count c) →
  ∃ c', filterCount (call rand e s).2 !! f = Some (Count c') ∧
        c ≤ c' ≤ c + Z.of_nat (length (agents s)) ∧
        (e ≠ Simulate2 → c' = c).
Proof.
  intros Hc.
  assert (∀ l b s', filterCount s' = filterCount s →
            filterCount (for_of (loop_body rand) l b s').2 = filterCount s)
    as Hsame.
  { induction l as [|a l IH]; intros b s' Hs'; [done |].
    cbn [for_of]. unfold bind.
    pose proof (loop_body_count rand a b s') as Hb.
    destruct (loop_body rand a b s') as [[b1|] s1]; cbn [snd] in *.
    - apply IH. congruence.
    - congruence. }
  destruct e; cbn [call];
    rewrite ?simulate_eq, ?simulate2_eq, ?simulate_v0_2_eq.
  - specialize (Hsame (agents s) [] s eq_refl).
    exists c. destruct (for_of _ _ _ s) as [[b|] s1]; cbn [snd] in Hsame;
      [destruct (drawMatrixOnCanvas _).1 |]; cbn;
      rewrite Hsame; (split; [done |]); (split; [lia | done]).
  - destruct (for_of_count (loop_body2 rand) f
                (λ a b s c, loop_body2_count rand a b s f c)
                (agents s) [] s c Hc) as (c' & Hc' & Hb).
    exists c'. destruct (for_of _ _ _ s) as [[b|] s1]; cbn [snd] in Hc';
      [destruct (drawMatrixOnCanvas _).1 |]; cbn;
      (split; [done |]); (split; [lia | done]).
  - specialize (Hsame (agents s) [] s eq_refl).
    exists c. destruct (for_of _ _ _ s) as [[b|] s1]; cbn [snd] in Hsame.
    + destruct (drawMatrixOnCanvas _).1;
        [destruct (match tend _ with Some _ => _ | None => _ end) |]; cbn;
        rewrite Hsame; (split; [done |]); (split; [lia | done]).
    + cbn. rewrite Hsame. split; [done |]. split; [lia | done].
Qed.

Lemma counters_bounded_witness :
  ∃ c', filterCount (call updown Simulate2 patrol).2 !! 0%nat
        = Some (Count c') ∧
        0 ≤ c' ≤ 0 + Z.of_nat (length (agents patrol)) ∧
        (Simulate2 ≠ Simulate2 → c' = 0).
Proof.
  apply (counters_bounded updown Simulate2 patrol 0 0). reflexivity.
Defined.

(** * The grid builders *)

Lemma foldl_push {A B} (x : A) (l : list B) (acc : list A) :
  foldl (λ rs _, rs ++ [x]) acc l = acc ++ replicate (length l) x.
Proof.
  revert acc. induction l as [|y l IH]; intros acc; cbn.
  - by rewrite app_nil_r.
  - rewrite IH, <- app_assoc. reflexivity.
Qed.

Lemma createZeroMatrix_replicate (row col : Z) :
  createZeroMatrix row col
  = replicate (Z.to_nat row) (replicate (Z.to_nat col) (Some 0)).
Proof.
  unfold createZeroMatrix, zero_row.
  by rewrite !foldl_push, !length_seqZ.
Qed.

Lemma createZeroMatrix_get (row col : Z) (cx cy : nat) :
  grid_get (createZeroMatrix row col) cx cy
  = if bool_decide (Z.of_nat cx < col ∧ Z.of_nat cy < row) then Some 0
    else None.
Proof.
  rewrite createZeroMatrix_replicate.
  unfold grid_get. case_bool_decide as Hin.
  - rewrite !lookup_replicate_2 by lia. done.
  - destruct (decide (cy < Z.to_nat row)%nat).
    + rewrite lookup_replicate_2 by lia.
      by rewrite (lookup_ge_None_2 (replicate _ _) cx)
        by (rewrite length_replicate; lia).
    + by rewrite (lookup_ge_None_2 (replicate _ _) cy)
        by (rewrite length_replicate; lia).
Qed.

(** X15: [createZeroMatrix(row, col)] has [row] rows, every cell of the first
    [col] columns of a row holds 0, and every other read is undefined; a count
    that is zero or negative gives no rows, or rows without cells. *)
Theorem createZeroMatrix_zeros (row col : Z) (cx cy : nat) :
  length (createZeroMatrix row col) = Z.to_nat row ∧
  grid_get (createZeroMatrix row col) cx cy
  = if bool_decide (Z.of_nat cx < col ∧ Z.of_nat cy < row) then Some 0
    else None.
Proof.
  split; [| apply createZeroMatrix_get].
  by rewrite createZeroMatrix_replicate, length_replicate.
Qed.

Lemma array_set_lookup (l : list (option Z)) (i j : nat) (v : Z) :
  default None (array_set l i v !! j)
  = if decide (i = j) then Some v else default None (l !! j).
Proof.
  unfold array_set. destruct (decide (i < length l)%nat) as [Hlt|Hge].
  - destruct (decide (i = j)) as [<-|Hne].
    + by rewrite list_lookup_insert_eq.
    + by rewrite list_lookup_insert_ne.
  - destruct (decide (j < length l)%nat) as [Hj|Hj].
    + rewrite lookup_app_l by done. rewrite decide_False by lia. done.
    + rewrite lookup_app_r by lia.
      rewrite (lookup_ge_None_2 l j) by lia. cbn [default from_option].
      destruct (decide (i = j)) as [<-|Hne].
      * rewrite lookup_app_r by (rewrite length_replicate; lia).
        rewrite length_replicate, Nat.sub_diag. done.
      * destruct (decide (j < i)%nat).
        -- rewrite lookup_app_l by (rewrite length_replicate; lia).
           by rewrite lookup_replicate_2 by lia.
        -- rewrite lookup_app_r by (rewrite length_replicate; lia).
           rewrite length_replicate.
           by rewrite lookup_ge_None_2 by (cbn; lia).
Qed.

Lemma grid_get_default (m : grid) (x y : nat) :
  grid_get m x y = default None (default [] (m !! y) !! x).
Proof.
  unfold grid_get. destruct (m !! y) as [row|]; [| done].
  cbn [default from_option id]. by destruct (row !! x).
Qed.

Lemma grid_set_length (m : grid) (x y : nat) (w : Z) :
  length (grid_set m x y w) = length m.
Proof. unfold grid_set. apply length_alter. Qed.

Lemma grid_get_set (m : grid) (x y cx cy : nat) (w : Z) :
  (y < length m)%nat →
  grid_get (grid_set m x y w) cx cy
  = if decide (x = cx ∧ y = cy) then Some w else grid_get m cx cy.
Proof.
  intros Hy. rewrite !grid_get_default. unfold grid_set.
  destruct (decide (y = cy)) as [<-|Hne].
  - rewrite list_lookup_alter_eq.
    destruct (lookup_lt_is_Some_2 m y Hy) as [row Hrow]. rewrite Hrow.
    cbn [fmap option_fmap option_map default from_option id].
    rewrite array_set_lookup.
    destruct (decide (x = cx)) as [<-|Hx].
    + by rewrite decide_True.
    + by rewrite decide_False by (intros [? _]; done).
  - rewrite list_lookup_alter_ne by done.
    by rewrite decide_False by (intros [_ ?]; done).
Qed.

Section Plot.

Variables (rows cols x2 y2 dx dy sx sy w : Z).

Lemma drawWall_loop_cells (fuel : nat) (m : grid) (x y err : Z) :
  drawWall_loop rows cols x2 y2 dx dy sx sy w fuel m x y err
  = foldl (plot rows cols w) m
    <$> line_cells x2 y2 dx dy sx sy fuel x y err.
Proof.
  revert m x y err. induction fuel as [|fuel IH]; intros m x y err;
    [reflexivity |].
  cbn [drawWall_loop line_cells].
  destruct (bool_decide (x = x2 ∧ y = y2)); [reflexivity |].
  rewrite IH. by destruct (line_cells _ _ _ _ _ _ _ _ _ _).
Qed.

Lemma plot_length (m : grid) (p : Z * Z) :
  length (plot rows cols w m p) = length m.
Proof.
  unfold plot. destruct (bool_decide _); [apply grid_set_length | done].
Qed.

Lemma foldl_plot_length (pts : list (Z * Z)) (m : grid) :
  length (foldl (plot rows cols w) m pts) = length m.
Proof.
  revert m. induction pts as [|p pts IH]; intros m; [done |].
  cbn. by rewrite IH, plot_length.
Qed.

Lemma plot_get (m : grid) (p : Z * Z) (cx cy : nat) :
  rows = Z.of_nat (length m) →
  grid_get (plot rows cols w m p) cx cy
  = if bool_decide (p = (Z.of_nat cx, Z.of_nat cy) ∧
                    Z.of_nat cx < cols ∧ Z.of_nat cy < rows)
    then Some w else grid_get m cx cy.
Proof.
  intros Hrows. unfold plot. destruct p as [px py]. cbn [fst snd].
  destruct (bool_decide (0 ≤ px ∧ px < cols ∧ 0 ≤ py ∧ py < rows)) eqn:Hin.
  - apply bool_decide_eq_true_1 in Hin.
    rewrite grid_get_set by lia.
    destruct (decide (Z.to_nat px = cx ∧ Z.to_nat py = cy)) as [[<- <-]|Hne].
    + rewrite bool_decide_eq_true_2; [done |].
      rewrite !Z2Nat.id by lia. split; [done | lia].
    + rewrite bool_decide_eq_false_2; [done |].
      intros [[= -> ->] _]. apply Hne. by rewrite !Nat2Z.id.
  - apply bool_decide_eq_false_1 in Hin.
    rewrite bool_decide_eq_false_2; [done |].
    intros [[= -> ->] [? ?]]. apply Hin. lia.
Qed.

Lemma foldl_plot_get (pts : list (Z * Z)) (m : grid) (cx cy : nat) :
  rows = Z.of_nat (length m) →
  grid_get (foldl (plot rows cols w) m pts) cx cy
  = if bool_decide ((Z.of_nat cx, Z.of_nat cy) ∈ pts ∧
                    Z.of_nat cx < cols ∧ Z.of_nat cy < rows)
    then Some w else grid_get m cx cy.
Proof.
  revert m. induction pts as [|p pts IH]; intros m Hrows.
  { cbn. rewrite bool_decide_eq_false_2; [done |].
    intros [H _]. by apply elem_of_nil in H. }
  cbn [foldl]. rewrite IH by (by rewrite plot_length).
  rewrite plot_get by done.
  destruct (bool_decide ((Z.of_nat cx, Z.of_nat cy) ∈ pts ∧ _)) eqn:E1.
  - apply bool_decide_eq_true_1 in E1 as [Hin Hb].
    rewrite bool_decide_eq_true_2; [done |]. split; [by right | done].
  - apply bool_decide_eq_false_1 in E1.
    destruct (bool_decide (p = _ ∧ _)) eqn:E2.
    + apply bool_decide_eq_true_1 in E2 as [-> Hb].
      rewrite bool_decide_eq_true_2; [done |]. split; [by left | done].
    + apply bool_decide_eq_false_1 in E2.
      rewrite bool_decide_eq_false_2; [done |].
      intros [[Heq|Hin]%elem_of_cons Hb]; [by apply E2 | by apply E1].
Qed.

End Plot.

(** ** The line of [drawWall] *)

Lemma line_cells_more_fuel (x2 y2 dx dy sx sy : Z) (fuel : nat) (x y err : Z)
  (pts : list (Z * Z)) :
  line_cells x2 y2 dx dy sx sy fuel x y err = Some pts →
  line_cells x2 y2 dx dy sx sy (S fuel) x y err = Some pts.
Proof.
  revert x y err pts. induction fuel as [|fuel IH]; intros x y err pts;
    [discriminate |].
  intros H. cbn [line_cells] in H. cbn [line_cells].
  destruct (bool_decide (x = x2 ∧ y = y2)); [exact H |].
  destruct (line_cells x2 y2 dx dy sx sy fuel _ _ _) as [pts'|] eqn:E;
    [| discriminate].
  apply IH in E. cbn [line_cells] in E. by rewrite E.
Qed.

Lemma line_cells_fuel_le (x2 y2 dx dy sx sy : Z) (fuel fuel' : nat)
  (x y err : Z) (pts : list (Z * Z)) :
  (fuel ≤ fuel')%nat →
  line_cells x2 y2 dx dy sx sy fuel x y err = Some pts →
  line_cells x2 y2 dx dy sx sy fuel' x y err = Some pts.
Proof.
  induction 1 as [|fuel' _ IH]; [done |].
  intros H. by apply line_cells_more_fuel, IH.
Qed.

Section Line.

Variables (x1 y1 x2 y2 D E sx sy : Z).
Hypotheses (HD : 0 ≤ D) (HE : 0 ≤ E).
Hypotheses (Hsx : sx = 1 ∨ sx = -1) (Hsy : sy = 1 ∨ sy = -1).
Hypotheses (Hx2 : x2 = x1 + sx * D) (Hy2 : y2 = y1 + sy * E).

Lemma on_line_in_box (i j : Z) :
  0 ≤ i ≤ D → 0 ≤ j ≤ E →
  in_box (x1, y1) (x2, y2) (x1 + sx * i, y1 + sy * j).
Proof.
  intros Hi Hj. unfold in_box. cbn [fst snd]. subst x2 y2.
  destruct Hsx as [-> | ->], Hsy as [-> | ->]; lia.
Qed.

Lemma line_cells_walk (fuel : nat) (i j x y err : Z) :
  0 ≤ i ≤ D → 0 ≤ j ≤ E →
  x = x1 + sx * i → y = y1 + sy * j →
  err = D - E - i * E + j * D →
  (D - i) + (E - j) < Z.of_nat fuel →
  ∃ pts,
    line_cells x2 y2 D (- E) sx sy fuel x y err = Some pts ∧
    head pts = Some (x, y) ∧
    last pts = Some (x2, y2) ∧
    Forall (in_box (x1, y1) (x2, y2)) pts ∧
    linked pts ∧
    (∀ i', i ≤ i' ≤ D → ∃ q, q ∈ pts ∧ q.1 = x1 + sx * i') ∧
    (∀ j', j ≤ j' ≤ E → ∃ q, q ∈ pts ∧ q.2 = y1 + sy * j').
Proof.
  revert i j x y err. induction fuel as [|fuel IH];
    intros i j x y err Hi Hj Hx Hy Herr Hfuel; [lia |].
  cbn [line_cells].
  assert (x = x2 ↔ i = D) as Hxi.
  { subst x x2. destruct Hsx as [-> | ->]; lia. }
  assert (y = y2 ↔ j = E) as Hyj.
  { subst y y2. destruct Hsy as [-> | ->]; lia. }
  destruct (bool_decide (x = x2 ∧ y = y2)) eqn:Hend.
  - apply bool_decide_eq_true_1 in Hend as [Hex Hey].
    exists [(x, y)]. split; [done |]. split; [done |].
    split; [cbn; by rewrite Hex, Hey |].
    split; [constructor; [subst x y; by apply on_line_in_box | constructor] |].
    split; [intros [|k] p q; cbn; discriminate |].
    split.
    + intros i' Hi'. exists (x, y). split; [by left |]. cbn.
      apply Hxi in Hex. assert (i' = i) as -> by lia. done.
    + intros j' Hj'. exists (x, y). split; [by left |]. cbn.
      apply Hyj in Hey. assert (j' = j) as -> by lia. done.
  - apply bool_decide_eq_false_1 in Hend.
    assert (¬ (i = D ∧ j = E)) as Hnot by (rewrite <- Hxi, <- Hyj; exact Hend).
    assert (- E ≤ 2 * err → i < D) as HA.
    { intros Ha. destruct (decide (i < D)) as [|Hn]; [done |].
      assert (i = D) as -> by lia. assert (j < E) as Hj' by lia.
      assert (0 ≤ D * (E - j - 1)) as Hp by (apply Z.mul_nonneg_nonneg; lia).
      lia. }
    assert (2 * err ≤ D → j < E) as HB.
    { intros Hb. destruct (decide (j < E)) as [|Hn]; [done |].
      assert (j = E) as -> by lia. assert (i < D) as Hi' by lia.
      assert (0 ≤ E * (D - i - 1)) as Hp by (apply Z.mul_nonneg_nonneg; lia).
      lia. }
    set (a := bool_decide (- E ≤ 2 * err)).
    set (b := bool_decide (2 * err ≤ D)).
    assert (a = true ∨ b = true) as Hab.
    { subst a b. destruct (decide (- E ≤ 2 * err)).
      - left. by apply bool_decide_eq_true_2.
      - right. apply bool_decide_eq_true_2. lia. }
    assert (a = true → i < D) as HA'.
    { subst a. intros Ha. apply bool_decide_eq_true_1 in Ha. by apply HA. }
    assert (b = true → j < E) as HB'.
    { subst b. intros Hb. apply bool_decide_eq_true_1 in Hb. by apply HB. }
    clearbody a b. clear HA HB.
    set (i1 := if a then i + 1 else i).
    set (j1 := if b then j + 1 else j).
    assert (0 ≤ i1 ≤ D ∧ i ≤ i1 ≤ i + 1) as [Hi1 Hii].
    { subst i1. destruct a; [specialize (HA' eq_refl) |]; lia. }
    assert (0 ≤ j1 ≤ E ∧ j ≤ j1 ≤ j + 1) as [Hj1 Hjj].
    { subst j1. destruct b; [specialize (HB' eq_refl) |]; lia. }
    destruct (IH i1 j1 (if a then x + sx else x) (if b then y + sy else y)
                (if b then (if a then err + - E else err) + D
                 else (if a then err + - E else err)))
      as (pts & Hpts & Hhead & Hlast & Hbox & Hlink & Hcols & Hrows).
    + done.
    + done.
    + subst i1 x. destruct a; lia.
    + subst j1 y. destruct b; lia.
    + subst i1 j1 err. destruct a, b; lia.
    + subst i1 j1. destruct a, b; destruct Hab; try discriminate; lia.
    + rewrite Hpts. exists ((x, y) :: pts). split; [done |].
      split; [done |].
      assert (pts ≠ []) as Hne by (intros ->; discriminate).
      split; [by destruct pts |].
      split; [constructor; [subst x y; by apply on_line_in_box | done] |].
      split.
      { intros [|k] p q; cbn.
        - intros [= <-] Hq. destruct pts as [|q' pts']; [done |].
          cbn in Hq, Hhead. injection Hq as <-. injection Hhead as ->.
          unfold adjacent. cbn.
          destruct Hsx as [-> | ->], Hsy as [-> | ->]; destruct a, b; lia.
        - apply Hlink. }
      split.
      { intros i' Hi'. destruct (decide (i' = i)) as [-> | Hne'].
        - exists (x, y). split; [by left | done].
        - destruct (Hcols i') as (q & Hq & Hq1); [lia |].
          exists q. split; [by right | done]. }
      { intros j' Hj'. destruct (decide (j' = j)) as [-> | Hne'].
        - exists (x, y). split; [by left | done].
        - destruct (Hrows j') as (q & Hq & Hq1); [lia |].
          exists q. split; [by right | done]. }
Qed.

End Line.

(** ** [drawWall] *)

Lemma wall_cells_walk (p1 p2 : Z * Z) (fuel : nat) :
  (wall_fuel p1 p2 ≤ fuel)%nat →
  ∃ pts,
    wall_cells fuel p1 p2 = Some pts ∧
    head pts = Some p1 ∧ last pts = Some p2 ∧
    Forall (in_box p1 p2) pts ∧ linked pts ∧
    (∀ x, Z.min p1.1 p2.1 ≤ x ≤ Z.max p1.1 p2.1 → ∃ q, q ∈ pts ∧ q.1 = x) ∧
    (∀ y, Z.min p1.2 p2.2 ≤ y ≤ Z.max p1.2 p2.2 → ∃ q, q ∈ pts ∧ q.2 = y).
Proof.
  destruct p1 as [x1 y1], p2 as [x2 y2]. unfold wall_fuel, wall_cells.
  cbn [fst snd]. intros Hfuel.
  set (sx := if bool_decide (x1 < x2) then 1 else -1).
  set (sy := if bool_decide (y1 < y2) then 1 else -1).
  assert (sx = 1 ∨ sx = -1) as Hsx by (subst sx; case_bool_decide; auto).
  assert (sy = 1 ∨ sy = -1) as Hsy by (subst sy; case_bool_decide; auto).
  assert (x2 = x1 + sx * Z.abs (x2 - x1)) as Hx2
    by (subst sx; case_bool_decide; lia).
  assert (y2 = y1 + sy * Z.abs (y2 - y1)) as Hy2
    by (subst sy; case_bool_decide; lia).
  destruct (line_cells_walk x1 y1 x2 y2 (Z.abs (x2 - x1)) (Z.abs (y2 - y1))
              sx sy ltac:(lia) ltac:(lia) Hsx Hsy Hx2 Hy2 fuel 0 0 x1 y1
              (Z.abs (x2 - x1) + - Z.abs (y2 - y1)))
    as (pts & Hpts & Hhead & Hlast & Hbox & Hlink & Hcols & Hrows);
    [lia | lia | lia | lia | lia | lia |].
  exists pts. split; [done |]. split; [done |]. split; [done |].
  split; [done |]. split; [done |]. split.
  - intros x Hx.
    destruct (Hcols (if bool_decide (x1 < x2) then x - x1 else x1 - x))
      as (q & Hq & Hq1); [case_bool_decide; lia |].
    exists q. split; [done |]. rewrite Hq1. subst sx. case_bool_decide; lia.
  - intros y Hy.
    destruct (Hrows (if bool_decide (y1 < y2) then y - y1 else y1 - y))
      as (q & Hq & Hq1); [case_bool_decide; lia |].
    exists q. split; [done |]. rewrite Hq1. subst sy. case_bool_decide; lia.
Qed.

Lemma drawWall_cells (fuel : nat) (m : grid) (p1 p2 : Z * Z) (w : Z) :
  m ≠ [] →
  drawWall fuel m p1 p2 w
  = (λ pts, Normal (foldl (plot (Z.of_nat (length m)) (Z.of_nat (width m)) w)
                          m pts))
    <$> wall_cells fuel p1 p2.
Proof.
  intros Hm. unfold drawWall, wall_cells, width.
  destruct p1 as [x1 y1], p2 as [x2 y2].
  destruct m as [|r0 m']; [done |]. cbn [lookup list_lookup default from_option id].
  rewrite drawWall_loop_cells. by destruct (line_cells _ _ _ _ _ _ _ _ _ _).
Qed.

(** X16: [drawWall] leaves its loop for every pair of integer end points,
    after at most |x2 - x1| + |y2 - y1| + 1 iterations; more fuel does not
    change its result; and it throws exactly when the matrix has no row. *)
Theorem drawWall_terminates (fuel : nat) (m : grid) (p1 p2 : Z * Z) (w : Z) :
  (wall_fuel p1 p2 ≤ fuel)%nat →
  ∃ r, drawWall fuel m p1 p2 w = Some r ∧
       drawWall (wall_fuel p1 p2) m p1 p2 w = Some r ∧
       (r = Throw ↔ m = []).
Proof.
  intros Hfuel. destruct (decide (m = [])) as [-> | Hm].
  { exists Throw. by destruct p1, p2. }
  rewrite !drawWall_cells by done.
  destruct (wall_cells_walk p1 p2 fuel Hfuel) as (pts & Hpts & _).
  destruct (wall_cells_walk p1 p2 (wall_fuel p1 p2) ltac:(lia))
    as (pts' & Hpts' & _).
  assert (pts' = pts) as ->.
  { destruct p1 as [x1 y1], p2 as [x2 y2]. unfold wall_cells in *.
    apply (line_cells_fuel_le _ _ _ _ _ _ _ fuel) in Hpts'; [| done].
    congruence. }
  rewrite Hpts, Hpts'. eexists. split; [done |]. split; [done |]. by split.
Qed.

Lemma drawWall_terminates_witness :
  ∃ r, drawWall 100 (createZeroMatrix 5 5) (0, 0) (4, 2) 10 = Some r ∧
       drawWall (wall_fuel (0, 0) (4, 2)) (createZeroMatrix 5 5) (0, 0) (4, 2)
                10 = Some r ∧
       (r = Throw ↔ createZeroMatrix 5 5 = []).
Proof.
  apply (drawWall_terminates 100 (createZeroMatrix 5 5) (0, 0) (4, 2) 10).
  vm_compute. lia.
Defined.

Lemma drawWall_painted (fuel : nat) (m m' : grid) (p1 p2 : Z * Z) (w : Z) :
  drawWall fuel m p1 p2 w = Some (Normal m') →
  ∃ pts,
    wall_cells fuel p1 p2 = Some pts ∧
    length m' = length m ∧
    ∀ cx cy,
      grid_get m' cx cy
      = if bool_decide (cell cx cy ∈ pts ∧
                        (cx < width m)%nat ∧ (cy < length m)%nat)
        then Some w else grid_get m cx cy.
Proof.
  intros H. destruct (decide (m = [])) as [-> | Hm].
  { by destruct p1, p2. }
  rewrite drawWall_cells in H by done.
  destruct (wall_cells fuel p1 p2) as [pts|]; [| discriminate].
  injection H as <-. exists pts. split; [done |].
  split; [apply foldl_plot_length |].
  intros cx cy. rewrite foldl_plot_get by done.
  apply (f_equal (λ c : bool, if c then Some w else grid_get m cx cy)).
  apply bool_decide_ext. unfold cell.
  split; intros (? & ? & ?); (split; [done | lia]).
Qed.

Lemma wall_cells_fueled (fuel : nat) (p1 p2 : Z * Z) (pts : list (Z * Z)) :
  wall_cells fuel p1 p2 = Some pts →
  head pts = Some p1 ∧ last pts = Some p2 ∧
  Forall (in_box p1 p2) pts ∧ linked pts ∧
  (∀ x, Z.min p1.1 p2.1 ≤ x ≤ Z.max p1.1 p2.1 → ∃ q, q ∈ pts ∧ q.1 = x) ∧
  (∀ y, Z.min p1.2 p2.2 ≤ y ≤ Z.max p1.2 p2.2 → ∃ q, q ∈ pts ∧ q.2 = y).
Proof.
  intros H.
  destruct (wall_cells_walk p1 p2 (max fuel (wall_fuel p1 p2)) ltac:(lia))
    as (pts' & Hpts' & Hrest).
  assert (pts' = pts) as ->; [| done].
  destruct p1 as [x1 y1], p2 as [x2 y2]. unfold wall_cells in *.
  apply (line_cells_fuel_le _ _ _ _ _ _ _
           (max fuel (wall_fuel (x1, y1) (x2, y2)))) in H;
    [congruence | lia].
Qed.

Lemma array_set_length (l : list (option Z)) (i : nat) (v : Z) :
  (i < length l)%nat → length (array_set l i v) = length l.
Proof.
  intros Hi. unfold array_set. rewrite decide_True by done.
  apply length_insert.
Qed.

Lemma plot_width (rows cols w : Z) (m : grid) (p : Z * Z) :
  cols = Z.of_nat (width m) →
  width (plot rows cols w m p) = width m.
Proof.
  intros Hcols. unfold plot. case_bool_decide as Hin; [| done].
  unfold width, grid_set.
  destruct (decide (Z.to_nat p.2 = 0%nat)) as [-> | Hne].
  - rewrite list_lookup_alter_eq.
    destruct (m !! 0%nat) as [r0|] eqn:E0; [| done].
    cbn [fmap option_fmap option_map default from_option id].
    apply array_set_length. unfold width in Hcols. rewrite E0 in Hcols.
    cbn in Hcols. lia.
  - by rewrite list_lookup_alter_ne by done.
Qed.

Lemma foldl_plot_width (rows cols w : Z) (pts : list (Z * Z)) (m : grid) :
  cols = Z.of_nat (width m) →
  width (foldl (plot rows cols w) m pts) = width m.
Proof.
  revert m. induction pts as [|p pts IH]; intros m Hcols; [done |].
  cbn [foldl]. rewrite IH by (by rewrite plot_width).
  by apply plot_width.
Qed.

Lemma drawWall_shape (fuel : nat) (m m' : grid) (p1 p2 : Z * Z) (w : Z) :
  drawWall fuel m p1 p2 w = Some (Normal m') →
  length m' = length m ∧ width m' = width m.
Proof.
  intros H. destruct (decide (m = [])) as [-> | Hm].
  { by destruct p1, p2. }
  rewrite drawWall_cells in H by done.
  destruct (wall_cells fuel p1 p2) as [pts|]; [| discriminate].
  injection H as <-. split; [apply foldl_plot_length |].
  by apply foldl_plot_width.
Qed.

Lemma wall_cells_axis (fuel : nat) (p1 p2 q : Z * Z) (pts : list (Z * Z)) :
  p1.1 = p2.1 ∨ p1.2 = p2.2 →
  wall_cells fuel p1 p2 = Some pts →
  q ∈ pts ↔ in_box p1 p2 q.
Proof.
  intros Haxis Hpts.
  destruct (wall_cells_fueled _ _ _ _ Hpts)
    as (_ & _ & Hbox & _ & Hcols & Hrows).
  rewrite Forall_forall in Hbox. split; [apply Hbox |].
  intros [Hq1 Hq2]. destruct Haxis as [Hx | Hy].
  - destruct (Hrows q.2 Hq2) as (q' & Hq' & Heq).
    destruct (Hbox _ Hq') as [Hb _].
    assert (q' = q) as <-; [| done].
    destruct q, q'; cbn in *; f_equal; lia.
  - destruct (Hcols q.1 Hq1) as (q' & Hq' & Heq).
    destruct (Hbox _ Hq') as [_ Hb].
    assert (q' = q) as <-; [| done].
    destruct q, q'; cbn in *; f_equal; lia.
Qed.

(** X17: [drawWall] keeps the number of rows and the width of the matrix, and
    every cell afterwards either holds what it held before or holds [w]; a
    cell that changed lies inside the matrix and inside the rectangle spanned
    by the two end points. *)
Theorem drawWall_frame (fuel : nat) (m m' : grid) (p1 p2 : Z * Z) (w : Z)
  (cx cy : nat) :
  drawWall fuel m p1 p2 w = Some (Normal m') →
  length m' = length m ∧ width m' = width m ∧
  (grid_get m' cx cy = grid_get m cx cy ∨
   grid_get m' cx cy = Some w ∧ in_box p1 p2 (cell cx cy) ∧
   in_grid m (cell cx cy)).
Proof.
  intros H. destruct (drawWall_shape _ _ _ _ _ _ H) as [Hlen Hwid].
  destruct (drawWall_painted _ _ _ _ _ _ H) as (pts & Hpts & _ & Hget).
  split; [done |]. split; [done |].
  rewrite Hget. case_bool_decide as Hin; [right | by left].
  destruct Hin as (Hin & Hx & Hy). split; [done |].
  destruct (wall_cells_fueled _ _ _ _ Hpts) as (_ & _ & Hbox & _).
  rewrite Forall_forall in Hbox. split; [by apply Hbox |].
  unfold in_grid, cell. cbn. lia.
Qed.

Lemma drawWall_frame_witness :
  drawWall 100 (createZeroMatrix 5 5) (0, 0) (4, 2) 10
  = Some (Normal sloped_wall) ∧
  length sloped_wall = length (createZeroMatrix 5 5) ∧
  width sloped_wall = width (createZeroMatrix 5 5) ∧
  (grid_get sloped_wall 3 4 = grid_get (createZeroMatrix 5 5) 3 4 ∨
   grid_get sloped_wall 3 4 = Some 10 ∧ in_box (0, 0) (4, 2) (cell 3 4) ∧
   in_grid (createZeroMatrix 5 5) (cell 3 4)).
Proof.
  split; [reflexivity |].
  apply (drawWall_frame 100 (createZeroMatrix 5 5) sloped_wall (0, 0) (4, 2)
                        10 3 4).
  reflexivity.
Defined.

(** X18: the cells [drawWall] visits form a chain that starts at [p1], ends at
    [p2] and moves by at most one column and one row at a time, and every
    cell of the chain that lies inside the matrix holds [w] afterwards (so a
    wall between two points of the matrix has no gap). *)
Theorem drawWall_connects (fuel : nat) (m m' : grid) (p1 p2 : Z * Z) (w : Z) :
  drawWall fuel m p1 p2 w = Some (Normal m') →
  ∃ pts, head pts = Some p1 ∧ last pts = Some p2 ∧ linked pts ∧
         ∀ q, q ∈ pts → in_grid m q →
              grid_get m' (Z.to_nat q.1) (Z.to_nat q.2) = Some w.
Proof.
  intros H.
  destruct (drawWall_painted _ _ _ _ _ _ H) as (pts & Hpts & _ & Hget).
  destruct (wall_cells_fueled _ _ _ _ Hpts) as (Hhd & Hlst & _ & Hlink & _).
  exists pts. split; [done |]. split; [done |]. split; [done |].
  intros [qx qy] Hq [Hq1 Hq2]. cbn [fst snd] in *.
  rewrite Hget, bool_decide_eq_true_2; [done |].
  unfold cell. rewrite !Z2Nat.id by lia. split; [done | lia].
Qed.

Lemma drawWall_connects_witness :
  drawWall 100 (createZeroMatrix 5 5) (0, 0) (4, 2) 10
  = Some (Normal sloped_wall) ∧
  ∃ pts, head pts = Some (0, 0) ∧ last pts = Some (4, 2) ∧ linked pts ∧
         ∀ q, q ∈ pts → in_grid (createZeroMatrix 5 5) q →
              grid_get sloped_wall (Z.to_nat q.1) (Z.to_nat q.2) = Some 10.
Proof.
  split; [reflexivity |].
  apply (drawWall_connects 100 (createZeroMatrix 5 5) sloped_wall (0, 0)
                           (4, 2) 10).
  reflexivity.
Defined.

(** X19: a wall along one column or one row paints exactly the cells of the
    segment between its end points that lie inside the matrix, in whichever
    order the end points are given, and leaves every other cell as it was. *)
Theorem drawWall_axis_aligned (fuel : nat) (m m' : grid) (p1 p2 : Z * Z)
  (w : Z) (cx cy : nat) :
  p1.1 = p2.1 ∨ p1.2 = p2.2 →
  drawWall fuel m p1 p2 w = Some (Normal m') →
  grid_get m' cx cy
  = if bool_decide (in_box p1 p2 (cell cx cy) ∧ in_grid m (cell cx cy))
    then Some w else grid_get m cx cy.
Proof.
  intros Haxis H.
  destruct (drawWall_painted _ _ _ _ _ _ H) as (pts & Hpts & _ & Hget).
  rewrite Hget.
  apply (f_equal (λ c : bool, if c then Some w else grid_get m cx cy)).
  apply bool_decide_ext.
  rewrite (wall_cells_axis _ _ _ _ _ Haxis Hpts).
  unfold in_grid, cell. cbn [fst snd].
  split; intros (? & ?); (split; [done | lia]).
Qed.

Lemma drawWall_axis_aligned_witness :
  ((1, 5).1 = (1, -2).1 ∨ (1, 5).2 = (1, -2).2) ∧
  drawWall 100 (createZeroMatrix 4 4) (1, 5) (1, -2) 16
  = Some (Normal clipped_wall) ∧
  grid_get clipped_wall 1 3
  = if bool_decide (in_box (1, 5) (1, -2) (cell 1 3) ∧
                    in_grid (createZeroMatrix 4 4) (cell 1 3))
    then Some 16 else grid_get (createZeroMatrix 4 4) 1 3.
Proof.
  split; [left; reflexivity |]. split; [reflexivity |].
  apply (drawWall_axis_aligned 100 (createZeroMatrix 4 4) clipped_wall (1, 5)
                               (1, -2) 16 1 3).
  - left; reflexivity.
  - reflexivity.
Defined.

(** ** The enclosing walls *)

Lemma list_to_map_seq {A} (f : nat → A) (s n : nat) (k : Z) :
  (list_to_map ((λ i, (Z.of_nat i, f i)) <$> seq s n) : gmap Z A) !! k
  = if bool_decide (Z.of_nat s ≤ k < Z.of_nat s + Z.of_nat n)
    then Some (f (Z.to_nat k)) else None.
Proof.
  revert s. induction n as [|n IH]; intros s.
  { cbn. rewrite bool_decide_eq_false_2 by lia. apply lookup_empty. }
  cbn [seq fmap list_fmap list_to_map foldr uncurry].
  destruct (decide (k = Z.of_nat s)) as [-> | Hne].
  - rewrite lookup_insert_eq, bool_decide_eq_true_2 by lia.
    by rewrite Nat2Z.id.
  - rewrite lookup_insert_ne by done. rewrite IH.
    apply (f_equal (λ c : bool, if c then Some (f (Z.to_nat k)) else None)).
    apply bool_decide_ext. lia.
Qed.

Lemma bordered_get (W H : nat) (v x y : Z) :
  getCell (bordered W H v) x y
  = if bool_decide (0 ≤ x < Z.of_nat W ∧ 0 ≤ y < Z.of_nat H)
    then Some (if bool_decide (x = 0 ∨ x = Z.of_nat W - 1 ∨
                               y = 0 ∨ y = Z.of_nat H - 1)
               then v else 0)
    else None.
Proof.
  unfold getCell, bordered, bordered_row.
  rewrite (imap_seq_0 (replicate H ()) (λ j, (Z.of_nat j, _))).
  rewrite length_replicate, list_to_map_seq.
  case_bool_decide as Hy.
  - rewrite (imap_seq_0 (replicate W ()) (λ i, (Z.of_nat i, _))).
    rewrite length_replicate, list_to_map_seq.
    case_bool_decide as Hx.
    + rewrite (bool_decide_eq_true_2
                 (0 ≤ x < Z.of_nat W ∧ 0 ≤ y < Z.of_nat H)) by lia.
      f_equal. repeat case_bool_decide; cbn; try reflexivity; lia.
    + rewrite (bool_decide_eq_false_2
                 (0 ≤ x < Z.of_nat W ∧ 0 ≤ y < Z.of_nat H)) by lia.
      done.
  - rewrite (bool_decide_eq_false_2
               (0 ≤ x < Z.of_nat W ∧ 0 ≤ y < Z.of_nat H)) by lia.
    done.
Qed.

Lemma drawWall_axis_run (m : grid) (p1 p2 : Z * Z) (w : Z) :
  m ≠ [] →
  p1.1 = p2.1 ∨ p1.2 = p2.2 →
  ∃ m', drawWall (wall_fuel p1 p2) m p1 p2 w = Some (Normal m') ∧
        length m' = length m ∧ width m' = width m ∧
        ∀ cx cy,
          grid_get m' cx cy
          = if bool_decide (in_box p1 p2 (cell cx cy) ∧
                            (cx < width m)%nat ∧ (cy < length m)%nat)
            then Some w else grid_get m cx cy.
Proof.
  intros Hm Haxis.
  destruct (wall_cells_walk p1 p2 (wall_fuel p1 p2) ltac:(lia))
    as (pts & Hpts & _).
  assert (∃ m', drawWall (wall_fuel p1 p2) m p1 p2 w = Some (Normal m'))
    as [m' H].
  { rewrite drawWall_cells, Hpts by done. by eexists. }
  exists m'. split; [done |].
  destruct (drawWall_shape _ _ _ _ _ _ H) as [Hlen Hwid].
  split; [done |]. split; [done |]. intros cx cy.
  destruct (drawWall_painted _ _ _ _ _ _ H) as (pts' & Hpts' & _ & Hget).
  rewrite Hget.
  apply (f_equal (λ c : bool, if c then Some w else grid_get m cx cy)).
  apply bool_decide_ext.
  by rewrite (wall_cells_axis _ _ _ _ _ Haxis Hpts').
Qed.

Lemma createZeroMatrix_width (row col : Z) :
  0 < row → width (createZeroMatrix row col) = Z.to_nat col.
Proof.
  intros Hrow. unfold width. rewrite createZeroMatrix_replicate.
  rewrite lookup_replicate_2 by lia. cbn. apply length_replicate.
Qed.

(** X20: the four enclosing walls, drawn in the listed order on
    [createZeroMatrix(H, W)], give the [W] by [H] world the scenarios start
    from: the wall code in every cell of the first and last row and column,
    0 in every other cell, and nothing outside. *)
Theorem enclose_bordered (W H : nat) (v : Z) :
  (1 ≤ H)%nat →
  ∃ g, enclose (Z.of_nat W) (Z.of_nat H) v = Some (Normal g) ∧
       length g = H ∧
       ∀ x y, getCell (bordered W H v) x y
              = if bool_decide (0 ≤ x ∧ 0 ≤ y)
                then grid_get g (Z.to_nat x) (Z.to_nat y) else None.
Proof.
  intros HH. unfold enclose. cbn [foldl fst snd].
  pose proof (createZeroMatrix_width (Z.of_nat H) (Z.of_nat W) ltac:(lia))
    as Hw0.
  assert (length (createZeroMatrix (Z.of_nat H) (Z.of_nat W)) = H) as Hl0.
  { rewrite createZeroMatrix_replicate, length_replicate. lia. }
  rewrite Nat2Z.id in Hw0.
  destruct (drawWall_axis_run (createZeroMatrix (Z.of_nat H) (Z.of_nat W))
              (0, 0) (0, Z.of_nat H - 1) v)
    as (m1 & -> & Hl1 & Hw1 & Hg1); [by intros E; rewrite E in Hl0; cbn in Hl0; lia | by left |].
  destruct (drawWall_axis_run m1 (0, Z.of_nat H - 1)
              (Z.of_nat W - 1, Z.of_nat H - 1) v)
    as (m2 & -> & Hl2 & Hw2 & Hg2); [intros E; rewrite E in Hl1; cbn in Hl1; lia | by right |].
  destruct (drawWall_axis_run m2 (Z.of_nat W - 1, Z.of_nat H - 1)
              (Z.of_nat W - 1, 0) v)
    as (m3 & -> & Hl3 & Hw3 & Hg3); [intros E; rewrite E in Hl2; cbn in Hl2; lia | by left |].
  destruct (drawWall_axis_run m3 (Z.of_nat W - 1, 0) (0, 0) v)
    as (m4 & -> & Hl4 & Hw4 & Hg4); [intros E; rewrite E in Hl3; cbn in Hl3; lia | by right |].
  exists m4. split; [done |]. split; [lia |].
  intros x y. rewrite bordered_get.
  destruct (decide (0 ≤ x ∧ 0 ≤ y)) as [Hpos | Hneg].
  2: { rewrite (bool_decide_eq_false_2
                  (0 ≤ x < Z.of_nat W ∧ 0 ≤ y < Z.of_nat H)) by lia.
       by rewrite (bool_decide_eq_false_2 (0 ≤ x ∧ 0 ≤ y)). }
  rewrite (bool_decide_eq_true_2 (0 ≤ x ∧ 0 ≤ y)) by done.
  rewrite Hg4, Hg3, Hg2, Hg1, createZeroMatrix_get.
  rewrite Hw3, Hw2, Hw1, Hw0, Hl3, Hl2, Hl1, Hl0.
  unfold in_box, cell. cbn [fst snd]. rewrite !Z2Nat.id by lia.
  clear -HH Hpos.
  rewrite !Z.min_id, !Z.max_id.
  rewrite (Z.min_r (Z.of_nat H - 1) 0), (Z.max_l (Z.of_nat H - 1) 0),
    (Z.min_l 0 (Z.of_nat H - 1)), (Z.max_r 0 (Z.of_nat H - 1)) by lia.
  destruct (decide (W = 0%nat)) as [-> | HW].
  { repeat case_bool_decide; try reflexivity; lia. }
  rewrite (Z.min_r (Z.of_nat W - 1) 0), (Z.max_l (Z.of_nat W - 1) 0),
    (Z.min_l 0 (Z.of_nat W - 1)), (Z.max_r 0 (Z.of_nat W - 1)) by lia.
  repeat case_bool_decide; try reflexivity; lia.
Qed.

Lemma enclose_bordered_witness :
  ∃ g, enclose (Z.of_nat 6) (Z.of_nat 5) 10 = Some (Normal g) ∧
       length g = 5%nat ∧
       ∀ x y, getCell (bordered 6 5 10) x y
              = if bool_decide (0 ≤ x ∧ 0 ≤ y)
                then grid_get g (Z.to_nat x) (Z.to_nat y) else None.
Proof. apply (enclose_bordered 6 5 10). lia. Defined.

(** ** The input text *)

Lemma split_nonempty (s : string) : split s ≠ [].
Proof.
  destruct s as [|c s]; cbn [split]; [done |].
  destruct (decide (c = LF)); [done |]. by destruct (split s).
Qed.

Lemma split_single (s : string) : has_LF s = false → split s = [s].
Proof.
  induction s as [|c s IH]; cbn [split has_LF]; [done |].
  intros [Hc Hs]%orb_false_iff. apply bool_decide_eq_false in Hc.
  rewrite decide_False by done. by rewrite IH.
Qed.

Lemma append_nil_l (a : string) : EmptyString +:+ a = a.
Proof. reflexivity. Qed.

Lemma append_cons (c : Strings.Ascii.ascii) (a b : string) :
  String c a +:+ b = String c (a +:+ b).
Proof. reflexivity. Qed.

Lemma split_app_LF (a b : string) :
  split (a +:+ String LF b) = split a ++ split b.
Proof.
  induction a as [|c a IH]; rewrite ?append_nil_l, ?append_cons; cbn [split].
  { by rewrite decide_True. }
  destruct (decide (c = LF)); [by rewrite IH |].
  rewrite IH. pose proof (split_nonempty a). by destruct (split a).
Qed.

Lemma append_nonempty (a b : string) : a ≠ EmptyString → a +:+ b ≠ EmptyString.
Proof. destruct a; [done |]. by rewrite append_cons. Qed.

Lemma foldl_addText_lines (v : string) (ls : list string) :
  v ≠ EmptyString →
  Forall (λ l, has_LF l = false) ls →
  split (foldl addTextToTextarea v ls) = split v ++ ls.
Proof.
  revert v. induction ls as [|l ls IH]; intros v Hv Hls; cbn [foldl].
  { by rewrite app_nil_r. }
  apply Forall_cons in Hls as [Hl Hls].
  unfold addTextToTextarea at 2. rewrite decide_False by done.
  rewrite IH by (by try apply append_nonempty).
  rewrite append_cons, append_nil_l, split_app_LF, (split_single l) by done.
  by rewrite <- app_assoc.
Qed.

Lemma addText_lines (ls : list string) :
  Forall (λ l, has_LF l = false) ls →
  split (foldl addTextToTextarea EmptyString ls)
  = match drop_blank ls with
    | [] => [EmptyString]
    | ls' => ls'
    end.
Proof.
  induction 1 as [|l ls Hl Hls IH]; [done |].
  cbn [foldl]. destruct l as [|c l].
  { cbn [drop_blank]. exact IH. }
  unfold addTextToTextarea at 2. rewrite decide_True by done.
  rewrite append_nil_l. cbn [drop_blank].
  rewrite foldl_addText_lines by done.
  by rewrite (split_single (String c l)).
Qed.

Lemma indexOf_from_range (i : Z) (l s : string) :
  indexOf_from i l s = -1 ∨ i ≤ indexOf_from i l s.
Proof.
  revert i. induction l as [|c l IH]; intros i; cbn [indexOf_from].
  - destruct (String.prefix s EmptyString); [right; lia | by left].
  - destruct (String.prefix s (String c l)); [right; lia |].
    destruct (IH (i + 1)); [by left | right; lia].
Qed.

Lemma indexOf_zero (l s : string) :
  indexOf l s = 0 ↔ String.prefix s l = true.
Proof.
  unfold indexOf. destruct l as [|c l]; cbn [indexOf_from].
  - destruct (String.prefix s EmptyString); [done | split; [lia | done]].
  - destruct (String.prefix s (String c l)); [done |].
    destruct (indexOf_from_range (0 + 1) l s); split; (lia || done).
Qed.

Lemma prefix_key_blank (key : string) :
  String.prefix (key +:+ " ") EmptyString = false.
Proof. destruct key; [done |]. by rewrite append_cons. Qed.

Lemma filter_drop_blank (key : string) (ls : list string) :
  filter (λ l, String.prefix (key +:+ " ") l = true)
         (match drop_blank ls with
          | [] => [EmptyString]
          | ls' => ls'
          end)
  = filter (λ l, String.prefix (key +:+ " ") l = true) ls.
Proof.
  induction ls as [|l ls IH].
  { cbn [drop_blank]. rewrite filter_cons_False; [done |].
    by rewrite prefix_key_blank. }
  destruct l as [|c l].
  - cbn [drop_blank]. rewrite IH. rewrite (filter_cons_False _ EmptyString);
      [done | by rewrite prefix_key_blank].
  - done.
Qed.

(** X21: the lines written one by one into an empty textarea by
    [addTextToTextarea] come back from [getLinesFromTextarea]: it returns, in
    order, exactly the written lines that begin with the keyword followed by
    a space, provided no written line contains a line feed. *)
Theorem getLines_of_added (ls : list string) (keyword : string) :
  Forall (λ l, has_LF l = false) ls →
  getLinesFromTextarea (foldl addTextToTextarea EmptyString ls) keyword
  = filter (λ l, String.prefix (keyword +:+ " ") l = true) ls.
Proof.
  intros Hls. unfold getLinesFromTextarea.
  rewrite (list_filter_iff _ (λ l, String.prefix (keyword +:+ " ") l = true))
    by (intros l; apply indexOf_zero).
  rewrite addText_lines by done. apply filter_drop_blank.
Qed.

Lemma getLines_of_added_witness :
  Forall (λ l, has_LF l = false) sample_lines ∧
  getLinesFromTextarea (foldl addTextToTextarea EmptyString sample_lines)
                       "WALL"
  = filter (λ l, String.prefix ("WALL" +:+ " ") l = true) sample_lines.
Proof.
  assert (Forall (λ l, has_LF l = false) sample_lines) as H
    by (repeat constructor).
  split; [exact H |]. apply (getLines_of_added sample_lines "WALL" H).
Defined.

(** X22: [addTextToTextarea] loses empty lines written at the top of an empty
    textarea: splitting the value gives the written lines without their
    leading empty ones (and the one empty line of an empty textarea when
    nothing else was written). *)
Theorem leading_blank_lines_lost (ls : list string) :
  Forall (λ l, has_LF l = false) ls →
  split (foldl addTextToTextarea EmptyString ls)
  = match drop_blank ls with
    | [] => [EmptyString]
    | ls' => ls'
    end.
Proof. apply addText_lines. Qed.

Lemma leading_blank_lines_lost_witness :
  Forall (λ l, has_LF l = false) sample_lines ∧
  split (foldl addTextToTextarea EmptyString sample_lines)
  = match drop_blank sample_lines with
    | [] => [EmptyString]
    | ls' => ls'
    end.
Proof.
  assert (Forall (λ l, has_LF l = false) sample_lines) as H
    by (repeat constructor).
  split; [exact H |]. apply (leading_blank_lines_lost sample_lines H).
Defined.

Lemma getBlocks_fold (lines : list string) (key : string) (rows : Z)
  (suf pre : list string) (bs : list (list (option string))) :
  lines = pre ++ suf →
  ∃ new,
    (foldl (λ '(blocks, j) l,
              (if decide (indexOf l (key +:+ " ") = 0)
               then blocks ++ [(λ k, lines !! Z.to_nat (j + k))
                                 <$> seqZ 0 (rows + 1)]
               else blocks,
               j + 1))
           (bs, Z.of_nat (length pre)) suf).1 = bs ++ new ∧
    Forall (λ b, length b = Z.to_nat (rows + 1) ∧
                 ∀ l, Some l ∈ b → l ∈ lines) new ∧
    (0 ≤ rows →
     (λ b, b !! 0%nat) <$> new
     = (λ l, Some (Some l))
         <$> filter (λ l, indexOf l (key +:+ " ") = 0) suf).
Proof.
  revert pre bs. induction suf as [|l suf IH]; intros pre bs Hlines.
  { exists []. cbn. by rewrite app_nil_r. }
  cbn [foldl].
  destruct (IH (pre ++ [l])
              (if decide (indexOf l (key +:+ " ") = 0)
               then bs ++ [(λ k, lines !! Z.to_nat (Z.of_nat (length pre) + k))
                             <$> seqZ 0 (rows + 1)]
               else bs))
    as (new & Hnew & Hall & Hheads).
  { by rewrite <- app_assoc. }
  rewrite length_app, Nat2Z.inj_add in Hnew. cbn [length] in Hnew.
  change (Z.of_nat 1) with 1 in Hnew. rewrite Hnew. clear Hnew.
  destruct (decide (indexOf l (key +:+ " ") = 0)) as [Hkey | Hkey].
  - exists (((λ k, lines !! Z.to_nat (Z.of_nat (length pre) + k))
               <$> seqZ 0 (rows + 1)) :: new).
    split; [by rewrite <- app_assoc |]. split.
    + constructor; [| done]. split.
      * by rewrite length_fmap, length_seqZ.
      * intros l' [k [Hk _]]%list_elem_of_fmap.
        symmetry in Hk. by apply list_elem_of_lookup_2 in Hk.
    + intros Hrows. rewrite filter_cons_True by done.
      cbn [fmap list_fmap]. f_equal; [| by apply Hheads].
      rewrite list_lookup_fmap, lookup_seqZ_lt by lia.
      cbn [fmap option_fmap option_map]. f_equal.
      replace (Z.to_nat (Z.of_nat (length pre) + (0 + Z.of_nat 0)))
        with (length pre) by lia.
      rewrite Hlines. by rewrite lookup_app_r, Nat.sub_diag by lia.
  - exists new. split; [done |]. split; [done |].
    intros Hrows. rewrite filter_cons_False by done. by apply Hheads.
Qed.

(** X23: [getBlocksFromTextarea] returns one block for each line that
    [getLinesFromTextarea] returns for the same key, in the same order and
    with that line first; every block has [rows + 1] entries, each of them a
    line of the text or undefined. *)
Theorem getBlocks_heads (el key : string) (rows : Z) :
  0 ≤ rows →
  (λ b, b !! 0%nat) <$> getBlocksFromTextarea el key rows
  = (λ l, Some (Some l)) <$> getLinesFromTextarea el key ∧
  Forall (λ b, length b = Z.to_nat (rows + 1) ∧
               ∀ l, Some l ∈ b → l ∈ split el)
         (getBlocksFromTextarea el key rows).
Proof.
  intros Hrows. unfold getBlocksFromTextarea, getLinesFromTextarea.
  destruct (getBlocks_fold (split el) key rows (split el) [] [] eq_refl)
    as (new & Hnew & Hall & Hheads).
  cbn [length] in Hnew. change (Z.of_nat 0) with 0 in Hnew.
  cbv zeta. rewrite Hnew. cbn [app].
  split; [by apply Hheads | done].
Qed.

Lemma getBlocks_heads_witness :
  (λ b, b !! 0%nat) <$> getBlocksFromTextarea sample_blocks "MPMAT" 3
  = (λ l, Some (Some l)) <$> getLinesFromTextarea sample_blocks "MPMAT" ∧
  Forall (λ b, length b = Z.to_nat (3 + 1) ∧
               ∀ l, Some l ∈ b → l ∈ split sample_blocks)
         (getBlocksFromTextarea sample_blocks "MPMAT" 3).
Proof. apply (getBlocks_heads sample_blocks "MPMAT" 3). lia. Defined.

(** ** Colours *)

Lemma getColor_known :
  Forall (λ n, getColor n ≠ "#fff") (seqZ 10 40 ++ seqZ 90 10).
Proof. apply (bool_decide_unpack _). vm_compute. reflexivity. Qed.

(** X24: [getColor] answers with its fallback colour exactly for the integer
    codes outside 10..49 and 90..99: the empty cell 0, the categories 5 to 8
    and every code of three digits or below zero are drawn white, every wall,
    gas, fluid, solid and filter code has a colour of its own table. *)
Theorem getColor_fallback (num : Z) :
  getColor num = "#fff" ↔ ¬ (10 ≤ num ≤ 49 ∨ 90 ≤ num ≤ 99).
Proof.
  split.
  - intros Hfb Hin. pose proof getColor_known as Hall.
    rewrite Forall_forall in Hall. apply (Hall num); [| done].
    rewrite elem_of_app, !elem_of_seqZ. lia.
  - intros Hout. unfold getColor, palette.
    assert (num / 10 ≠ 1 ∧ num / 10 ≠ 2 ∧ num / 10 ≠ 3 ∧ num / 10 ≠ 4 ∧
            num / 10 ≠ 9) as (H1 & H2 & H3 & H4 & H9).
    { pose proof (Z.div_mod num 10 ltac:(lia)).
      pose proof (Z.mod_pos_bound num 10 ltac:(lia)). lia. }
    rewrite !lookup_insert_ne by done. by rewrite lookup_empty.
Qed.
